(** * cpp-cache: the LRU family of [include/LruCache.h]

    The development embeds the three classes of [LruCache.h]

    - [LruCache]       : hash index + doubly linked recency list,
    - [LruKCache]      : LRU-K admission on top of [LruCache],
    - [KHashLruCaches] : hash-sharded vector of [LruCache],

    at the level of the pointers the C++ code manipulates: nodes live in an
    arena, [prev_]/[next_] are optional addresses, and every dereference of
    an address that holds no node (undefined behaviour in C++) is an error
    of the [option] monad.  The frequency-bucketed LFU engine, whose header
    is not part of the sources at hand, is modelled from its specification
    in a module of its own. *)

From Stdlib Require Import ZArith Lia.
From stdpp Require Import base option list gmap fin_maps.

Local Open Scope Z_scope.

(** ** Machine integers (LP64: 32-bit [int], 64-bit [size_t]) *)

Definition INT_MAX : Z := 2 ^ 31 - 1.
Definition SIZE_MAX : Z := 2 ^ 64 - 1.

(** Conversion of an integer value to [size_t] (modulo [2^64]). *)
Definition to_size_t (z : Z) : Z := z mod 2 ^ 64.

(** Conversion of an integer value to [int] (two's complement, modulo
    [2^32]). *)
Definition to_int (z : Z) : Z :=
  let r := z mod 2 ^ 32 in if 2 ^ 31 <=? r then r - 2 ^ 32 else r.

(** ** [LruCache<Key, Value>] *)

Module Lru.

(** Addresses of nodes: indices into the arena. *)
Abbreviation ptr := nat.

Section Defs.
Context {Key Value : Type} `{Countable Key}.
(** [Key{}] and [Value{}], the value-initialised key and value. *)
Context (Key0 : Key) (Value0 : Value).

(** [struct Node]: [prev_] is the [weak_ptr], [next_] the [shared_ptr];
    [None] is the null pointer. *)
Record Node := mkNode {
  key_ : Key;
  value_ : Value;
  prev_ : option ptr;
  next_ : option ptr
}.

Definition setValue (value : Value) (n : Node) : Node :=
  mkNode (key_ n) value (prev_ n) (next_ n).
Definition set_prev (p : option ptr) (n : Node) : Node :=
  mkNode (key_ n) (value_ n) p (next_ n).
Definition set_next (p : option ptr) (n : Node) : Node :=
  mkNode (key_ n) (value_ n) (prev_ n) p.

(** The private members of the class, together with the arena [heap_]
    that holds every node ever made by [make_shared].  Nodes are not
    reclaimed in the model; a node that the C++ code releases is one that
    no link and no index entry refers to any more. *)
Record LruCache := mkLru {
  capacity_ : Z;
  nodeMap_ : gmap Key ptr;
  dummyHead_ : ptr;
  dummyTail_ : ptr;
  heap_ : list Node
}.

Definition with_heap (h : list Node) (s : LruCache) : LruCache :=
  mkLru (capacity_ s) (nodeMap_ s) (dummyHead_ s) (dummyTail_ s) h.
Definition with_nodeMap (m : gmap Key ptr) (s : LruCache) : LruCache :=
  mkLru (capacity_ s) m (dummyHead_ s) (dummyTail_ s) (heap_ s).

(** [*p]: reading through an address with no node is an error. *)
Definition deref (p : ptr) (s : LruCache) : option Node := heap_ s !! p.

(** [p->field = ...]: [f] rewrites the node stored at [p]. *)
Definition assign (p : ptr) (f : Node → Node) (s : LruCache)
  : option LruCache :=
  n ← heap_ s !! p; Some (with_heap (<[p := f n]> (heap_ s)) s).

(** [std::make_shared<Node>(...)]: the new node gets the next free
    address. *)
Definition make_shared (n : Node) (s : LruCache) : ptr * LruCache :=
  (length (heap_ s), with_heap (heap_ s ++ [n]) s).

(** [initializeList] *)
Definition initializeList (s : LruCache) : option LruCache :=
  let '(hd, s) := make_shared (mkNode Key0 Value0 None None) s in
  let '(tl, s) := make_shared (mkNode Key0 Value0 None None) s in
  let s := mkLru (capacity_ s) (nodeMap_ s) hd tl (heap_ s) in
  s ← assign hd (set_next (Some tl)) s;
  assign tl (set_prev (Some hd)) s.

(** The member initialiser of the constructor:
    [capacity > 0 ? static_cast<std::size_t>(capacity) : 0]. *)
Definition stored_capacity (capacity : Z) : Z :=
  if 0 <? capacity then to_size_t capacity else 0.

(** [LruCache(int capacity)] *)
Definition new (capacity : Z) : option LruCache :=
  initializeList (mkLru (stored_capacity capacity) ∅ 0%nat 0%nat []).

(** [removeNode] *)
Definition removeNode (node : ptr) (s : LruCache) : option LruCache :=
  n ← deref node s;
  match prev_ n, next_ n with
  | Some prev, Some next =>
      s ← assign prev (set_next (Some next)) s;
      s ← assign next (set_prev (Some prev)) s;
      s ← assign node (set_next None) s;
      assign node (set_prev None) s
  | _, _ => Some s
  end.

(** [insertNode]; the failing [assert] is an error. *)
Definition insertNode (node : ptr) (s : LruCache) : option LruCache :=
  tl ← deref (dummyTail_ s) s;
  prev ← prev_ tl;
  s ← assign node (set_next (Some (dummyTail_ s))) s;
  s ← assign node (set_prev (Some prev)) s;
  s ← assign prev (set_next (Some node)) s;
  assign (dummyTail_ s) (set_prev (Some node)) s.

(** [moveToMostRecent] *)
Definition moveToMostRecent (node : ptr) (s : LruCache) : option LruCache :=
  s ← removeNode node s; insertNode node s.

(** [updateExistingNode] *)
Definition updateExistingNode (node : ptr) (value : Value) (s : LruCache)
  : option LruCache :=
  s ← assign node (setValue value) s; moveToMostRecent node s.

(** [evictLeastRecent] *)
Definition evictLeastRecent (s : LruCache) : option LruCache :=
  hd ← deref (dummyHead_ s) s;
  match next_ hd with
  | None => Some s
  | Some leastRecent =>
      if decide (leastRecent = dummyTail_ s) then Some s
      else
        s ← removeNode leastRecent s;
        n ← deref leastRecent s;
        Some (with_nodeMap (delete (key_ n) (nodeMap_ s)) s)
  end.

(** [nodeMap_.try_emplace(key, node)] *)
Definition try_emplace (key : Key) (node : ptr) (m : gmap Key ptr)
  : gmap Key ptr :=
  match m !! key with Some _ => m | None => <[key := node]> m end.

(** [addNewNode] *)
Definition addNewNode (key : Key) (value : Value) (s : LruCache)
  : option LruCache :=
  s ← (if capacity_ s <=? Z.of_nat (size (nodeMap_ s))
       then evictLeastRecent s else Some s);
  let '(newNode, s) := make_shared (mkNode key value None None) s in
  s ← insertNode newNode s;
  Some (with_nodeMap (try_emplace key newNode (nodeMap_ s)) s).

(** [put] *)
Definition put (key : Key) (value : Value) (s : LruCache)
  : option LruCache :=
  if capacity_ s =? 0 then Some s
  else match nodeMap_ s !! key with
       | Some node => updateExistingNode node value s
       | None => addNewNode key value s
       end.

(** [bool get(const Key &, Value &)]: the second component of the result
    is what the reference argument holds on return. *)
Definition get (key : Key) (value : Value) (s : LruCache)
  : option (LruCache * (bool * Value)) :=
  match nodeMap_ s !! key with
  | Some node =>
      s ← moveToMostRecent node s;
      n ← deref node s;
      Some (s, (true, value_ n))
  | None => Some (s, (false, value))
  end.

(** [Value get(const Key &)] *)
Definition get1 (key : Key) (s : LruCache) : option (LruCache * Value) :=
  '(s, (_, value)) ← get key Value0 s; Some (s, value).

(** [remove] *)
Definition remove (key : Key) (s : LruCache) : option LruCache :=
  match nodeMap_ s !! key with
  | Some node =>
      s ← removeNode node s;
      Some (with_nodeMap (delete key (nodeMap_ s)) s)
  | None => Some s
  end.

(** *** The operations as commands, for runs of a cache *)

Inductive Op :=
| OPut (key : Key) (value : Value)
| OGet (key : Key) (value : Value)
| OGet1 (key : Key)
| ORemove (key : Key).

Inductive Ret :=
| RUnit
| RFound (found : bool) (value : Value)
| RValue (value : Value).

Definition step (op : Op) (s : LruCache) : option (LruCache * Ret) :=
  match op with
  | OPut key value => s ← put key value s; Some (s, RUnit)
  | OGet key value => '(s, (b, v)) ← get key value s; Some (s, RFound b v)
  | OGet1 key => '(s, v) ← get1 key s; Some (s, RValue v)
  | ORemove key => s ← remove key s; Some (s, RUnit)
  end.

Fixpoint run (ops : list Op) (s : LruCache) : option (LruCache * list Ret) :=
  match ops with
  | [] => Some (s, [])
  | op :: ops =>
      '(s, r) ← step op s;
      '(s, rs) ← run ops s;
      Some (s, r :: rs)
  end.

(** *** Reading the recency list off the heap *)

(** Follow [next_] from [p] up to the tail sentinel [z], collecting the
    key and value of each node passed. *)
Fixpoint walk (fuel : nat) (h : list Node) (p z : ptr) : list (Key * Value) :=
  match fuel with
  | O => []
  | S fuel =>
      if decide (p = z) then []
      else match h !! p with
           | Some n =>
               (key_ n, value_ n) ::
               match next_ n with
               | Some q => walk fuel h q z
               | None => []
               end
           | None => []
           end
  end.

(** The resident entries from the least to the most recently used: the
    nodes strictly between the two sentinels. *)
Definition contents (s : LruCache) : list (Key * Value) :=
  match heap_ s !! dummyHead_ s with
  | Some hd =>
      match next_ hd with
      | Some p => walk (length (heap_ s)) (heap_ s) p (dummyTail_ s)
      | None => []
      end
  | None => []
  end.

(** The key that [evictLeastRecent] would erase: the one of
    [dummyHead_->next_], unless that is the tail sentinel. *)
Definition leastRecentKey (s : LruCache) : option Key :=
  hd ← heap_ s !! dummyHead_ s;
  p ← next_ hd;
  if decide (p = dummyTail_ s) then None else key_ <$> heap_ s !! p.

(** *** Representation invariant *)

Definition nextOf (h : list Node) (p : ptr) : option (option ptr) :=
  next_ <$> h !! p.
Definition prevOf (h : list Node) (p : ptr) : option (option ptr) :=
  prev_ <$> h !! p.
Definition keyOf (h : list Node) (p : ptr) : option Key := key_ <$> h !! p.
Definition valueOf (h : list Node) (p : ptr) : option Value :=
  value_ <$> h !! p.

(** [chain h a ps z]: in heap [h] the nodes [a], [ps], [z] are doubly
    linked in this order. *)
Fixpoint chain (h : list Node) (a : ptr) (ps : list ptr) (z : ptr) : Prop :=
  match ps with
  | [] => nextOf h a = Some (Some z) ∧ prevOf h z = Some (Some a)
  | p :: ps =>
      nextOf h a = Some (Some p) ∧ prevOf h p = Some (Some a) ∧ chain h p ps z
  end.

(** A linked entry: the address of its node, its key and its value. *)
Record Entry := mkEntry { eptr : ptr; ekey : Key; evalue : Value }.

Definition cell (h : list Node) (e : Entry) : Prop :=
  keyOf h (eptr e) = Some (ekey e) ∧ valueOf h (eptr e) = Some (evalue e).

Definition ekv (e : Entry) : Key * Value := (ekey e, evalue e).
Definition eindex (e : Entry) : Key * ptr := (ekey e, eptr e).

(** The list between the sentinels holds exactly the entries [l]. *)
Record list_rep (s : LruCache) (l : list Entry) : Prop := mkListRep {
  rep_chain : chain (heap_ s) (dummyHead_ s) (eptr <$> l) (dummyTail_ s);
  rep_nodup : NoDup (dummyHead_ s :: (eptr <$> l) ++ [dummyTail_ s]);
  rep_cells : Forall (cell (heap_ s)) l
}.

(** The index maps precisely the keys of the linked entries, each to its
    node, and no key is linked twice. *)
Record rep (s : LruCache) (l : list Entry) : Prop := mkRep {
  rep_list : list_rep s l;
  rep_map : nodeMap_ s = list_to_map (eindex <$> l);
  rep_keys : NoDup (ekey <$> l)
}.

(** Everything but the heap is the same in [s'] as in [s]. *)
Definition same_frame (s s' : LruCache) : Prop :=
  capacity_ s' = capacity_ s ∧ nodeMap_ s' = nodeMap_ s ∧
  dummyHead_ s' = dummyHead_ s ∧ dummyTail_ s' = dummyTail_ s ∧
  length (heap_ s') = length (heap_ s).

(** The last node of the segment [a :: ps], and the first of [ps ++ [z]]. *)
Definition lastp (a : ptr) (ps : list ptr) : ptr := default a (last ps).
Definition headp (ps : list ptr) (z : ptr) : ptr := default z (head ps).

(** [node] is linked immediately before the tail sentinel. *)
Definition beforeTail (s : LruCache) (node : ptr) : Prop :=
  prevOf (heap_ s) (dummyTail_ s) = Some (Some node) ∧
  nextOf (heap_ s) node = Some (Some (dummyTail_ s)).

(** A cache state that satisfies the invariant for some list of entries. *)
Definition wf (s : LruCache) : Prop := ∃ l, rep s l.

(** *** The recency list as a plain list

    What the operations do to the list of resident entries, oldest first.
    This is the reading of the linked list that the invariant justifies;
    the refinement lemmas relate it to the pointer code above. *)

Fixpoint assoc (k : Key) (l : list (Key * Value)) : option Value :=
  match l with
  | [] => None
  | (k', v) :: l => if decide (k = k') then Some v else assoc k l
  end.

Definition drop_key (k : Key) (l : list (Key * Value)) : list (Key * Value) :=
  filter (λ e, e.1 ≠ k) l.

Definition model_put (cap : Z) (k : Key) (v : Value) (l : list (Key * Value))
  : list (Key * Value) :=
  if cap =? 0 then l
  else match assoc k l with
       | Some _ => drop_key k l ++ [(k, v)]
       | None => (if cap <=? Z.of_nat (length l) then tail l else l) ++ [(k, v)]
       end.

Definition model_get (k : Key) (v0 : Value) (l : list (Key * Value))
  : list (Key * Value) * (bool * Value) :=
  match assoc k l with
  | Some v => (drop_key k l ++ [(k, v)], (true, v))
  | None => (l, (false, v0))
  end.

Definition model_remove (k : Key) (l : list (Key * Value))
  : list (Key * Value) := drop_key k l.

Definition model_step (cap : Z) (op : Op) (l : list (Key * Value))
  : list (Key * Value) * Ret :=
  match op with
  | OPut k v => (model_put cap k v l, RUnit)
  | OGet k v0 => let '(l, (b, v)) := model_get k v0 l in (l, RFound b v)
  | OGet1 k => let '(l, (_, v)) := model_get k Value0 l in (l, RValue v)
  | ORemove k => (model_remove k l, RUnit)
  end.

Fixpoint model_run (cap : Z) (ops : list Op) (l : list (Key * Value))
  : list (Key * Value) * list Ret :=
  match ops with
  | [] => (l, [])
  | op :: ops =>
      let '(l, r) := model_step cap op l in
      let '(l, rs) := model_run cap ops l in
      (l, r :: rs)
  end.

(** A cache built by the constructor and driven through [ops]. *)
Definition exec (capacity : Z) (ops : list Op) : option (LruCache * list Ret) :=
  s ← new capacity; run ops s.

(** What an operation returns when it finds nothing. *)
Definition miss_ret (op : Op) : Ret :=
  match op with
  | OPut _ _ => RUnit
  | OGet _ value => RFound false value
  | OGet1 _ => RValue Value0
  | ORemove _ => RUnit
  end.

(** *** Vocabulary for statements about runs *)

(** The key an operation is about. *)
Definition op_key (op : Op) : Key :=
  match op with
  | OPut key _ | OGet key _ | OGet1 key | ORemove key => key
  end.

(** What is known of the value of [k] after [op], when [acc] was known
    before it: a [put] of [k] writes its value, a [remove] of [k] leaves
    none, and every other operation changes nothing. *)
Definition note_write (k : Key) (op : Op) (acc : option Value)
  : option Value :=
  match op with
  | OPut key value => if decide (key = k) then Some value else acc
  | ORemove key => if decide (key = k) then None else acc
  | _ => acc
  end.

(** The value that the last [put] of [k] among [ops] wrote, unless a
    [remove] of [k] follows it. *)
Fixpoint last_write (k : Key) (ops : list Op) (acc : option Value)
  : option Value :=
  match ops with
  | [] => acc
  | op :: ops => last_write k ops (note_write k op acc)
  end.

(** The [n] newest entries of a recency list: its last [n] elements. *)
Definition newest (n : nat) (l : list (Key * Value)) : list (Key * Value) :=
  drop (length l - n) l.

(** The number of entries linked behind the entry of [k], that is, used
    more recently than [k]; [None] when [k] has no entry. *)
Fixpoint behind (k : Key) (l : list (Key * Value)) : option nat :=
  match l with
  | [] => None
  | (k', _) :: l => if decide (k = k') then Some (length l) else behind k l
  end.

End Defs.

Arguments Node : clear implicits.
Arguments Entry : clear implicits.
Arguments Op : clear implicits.
Arguments Ret : clear implicits.
Arguments LruCache _ _ {_ _}.

End Lru.

(** ** [LruKCache<Key, Value>] *)

Module LruK.

Section Defs.
Context {Key Value : Type} `{Countable Key}.
Context (Key0 : Key) (Value0 : Value).

(** [base] is the [LruCache<Key, Value>] sub-object the class inherits:
    the main cache.  The history cache holds [size_t] counts. *)
Record LruKCache := mkLruK {
  base : Lru.LruCache Key Value;
  k_ : Z;
  historyList_ : Lru.LruCache Key Z;
  historyValueMap_ : gmap Key Value
}.

(** [LruKCache(int capacity, int historyCapacity, int k)] *)
Definition new (capacity historyCapacity k : Z) : option LruKCache :=
  b ← Lru.new Key0 Value0 capacity;
  h ← Lru.new (Value := Z) Key0 0 historyCapacity;
  Some (mkLruK b k h ∅).

(** [historyCount >= k_] compares a [size_t] with an [int]: the [int] is
    converted to [size_t] first. *)
Definition reached (historyCount k : Z) : bool :=
  to_size_t k <=? historyCount.

(** [Value get(const Key &)] *)
Definition get (key : Key) (s : LruKCache) : option (LruKCache * Value) :=
  '(b, (inMainCache, value)) ← Lru.get key Value0 (base s);
  '(h, historyCount) ← Lru.get1 (Value := Z) 0 key (historyList_ s);
  let historyCount := to_size_t (historyCount + 1) in
  h ← Lru.put key historyCount h;
  if (inMainCache : bool) then Some (mkLruK b (k_ s) h (historyValueMap_ s), value)
  else if reached historyCount (k_ s) then
    match historyValueMap_ s !! key with
    | Some storedValue =>
        h ← Lru.remove key h;
        let m := delete key (historyValueMap_ s) in
        b ← Lru.put key storedValue b;
        Some (mkLruK b (k_ s) h m, storedValue)
    | None => Some (mkLruK b (k_ s) h (historyValueMap_ s), value)
    end
  else Some (mkLruK b (k_ s) h (historyValueMap_ s), value).

(** [void put(const Key &, const Value &)] *)
Definition put (key : Key) (value : Value) (s : LruKCache)
  : option LruKCache :=
  '(b, (inMainCache, existingValue)) ← Lru.get key Value0 (base s);
  if (inMainCache : bool) then
    b ← Lru.put key value b;
    Some (mkLruK b (k_ s) (historyList_ s) (historyValueMap_ s))
  else
    '(h, historyCount) ← Lru.get1 (Value := Z) 0 key (historyList_ s);
    let historyCount := to_size_t (historyCount + 1) in
    h ← Lru.put key historyCount h;
    let m := <[key := value]> (historyValueMap_ s) in
    if reached historyCount (k_ s) then
      h ← Lru.remove key h;
      let m := delete key m in
      b ← Lru.put key value b;
      Some (mkLruK b (k_ s) h m)
    else Some (mkLruK b (k_ s) h m).

(** The members inherited unchanged from [LruCache]: the two-argument
    [get] and [remove] act on the main cache alone. *)
Definition get2 (key : Key) (value : Value) (s : LruKCache)
  : option (LruKCache * (bool * Value)) :=
  '(b, r) ← Lru.get key value (base s);
  Some (mkLruK b (k_ s) (historyList_ s) (historyValueMap_ s), r).

Definition remove (key : Key) (s : LruKCache) : option LruKCache :=
  b ← Lru.remove key (base s);
  Some (mkLruK b (k_ s) (historyList_ s) (historyValueMap_ s)).

Inductive Op :=
| OPut (key : Key) (value : Value)
| OGet (key : Key)
| OGet2 (key : Key) (value : Value)
| ORemove (key : Key).

Definition step (op : Op) (s : LruKCache) : option LruKCache :=
  match op with
  | OPut key value => put key value s
  | OGet key => fst <$> get key s
  | OGet2 key value => fst <$> get2 key value s
  | ORemove key => remove key s
  end.

Fixpoint run (ops : list Op) (s : LruKCache) : option LruKCache :=
  match ops with
  | [] => Some s
  | op :: ops => s ← step op s; run ops s
  end.

Definition exec (capacity historyCapacity k : Z) (ops : list Op)
  : option LruKCache :=
  s ← new capacity historyCapacity k; run ops s.

(** [key] is in the index of the main cache. *)
Definition resident (key : Key) (s : LruKCache) : bool :=
  bool_decide (is_Some (Lru.nodeMap_ (base s) !! key)).

(** The count that [put] and [get] compare with [k_]: the count the
    history cache returns for [key] (0 when it has none), plus one. *)
Definition historyCount (key : Key) (s : LruKCache) : Z :=
  match Lru.get1 (Value := Z) 0 key (historyList_ s) with
  | Some (_, c) => to_size_t (c + 1)
  | None => 0
  end.

(** The [put]s and one-argument [get]s of [key] among [ops]: the calls
    that count as an access to [key]. *)
Definition access_key (op : Op) : option Key :=
  match op with
  | OPut k _ | OGet k => Some k
  | _ => None
  end.

Definition accesses (key : Key) (ops : list Op) : nat :=
  length (filter (λ op, access_key op = Some key) ops).

(** Both caches of the object satisfy the [LruCache] invariant. *)
Definition wf (s : LruKCache) : Prop :=
  Lru.wf (base s) ∧ Lru.wf (historyList_ s).

(** After the operations [ops]: no count in the history exceeds the number
    of accesses to its key, and a key in the main cache has been accessed
    at least [k_] times. *)
Definition counted (ops : list Op) (s : LruKCache) : Prop :=
  (∀ y c, (y, c) ∈ Lru.contents (historyList_ s) →
     0 ≤ c ≤ Z.of_nat (accesses y ops)) ∧
  (∀ y, resident y s = true → k_ s ≤ Z.of_nat (accesses y ops)).

End Defs.

Arguments LruKCache _ _ {_ _}.
Arguments Op : clear implicits.

End LruK.

(** ** Binary64 arithmetic of [KHashLruCaches]'s constructor

    The constructor computes the slice size in [double].  A finite double
    is represented by a pair of integers: [mkDouble m e] stands for
    [m * 2^e], with [|m| <= 2^53].  The pair is a name for the value, not
    a canonical encoding.  The quotients formed here lie between [2^-32]
    and [2^64] in magnitude, well inside the normal range, so neither
    overflow nor gradual underflow is modelled. *)

Record double := mkDouble { mant : Z; expo : Z }.

(** [n/d] rounded to the nearest integer, ties to even ([0 <= n], [0 < d]). *)
Definition round_half_even (n d : Z) : Z :=
  let q := n / d in
  let r := n mod d in
  if 2 * r <? d then q
  else if d <? 2 * r then q + 1
  else if Z.even q then q else q + 1.

(** Numerator and denominator of [a / (d * 2^e)]. *)
Definition scaled (a d e : Z) : Z * Z :=
  (a * 2 ^ Z.max 0 (- e), d * 2 ^ Z.max 0 e).

(** The double nearest to the rational [num/den] ([0 < den]), ties to
    even: the exponent is chosen so that the scaled quotient lies in
    [[2^52, 2^53)] and is then rounded to an integer. *)
Definition round53 (num den : Z) : double :=
  if num =? 0 then mkDouble 0 0
  else
    let a := Z.abs num in
    let e1 := Z.log2 a - Z.log2 den - 52 in
    let e := if (scaled a den e1).1 <? 2 ^ 52 * (scaled a den e1).2
             then e1 - 1 else e1 in
    mkDouble (Z.sgn num * round_half_even (scaled a den e).1 (scaled a den e).2) e.

(** Conversion of an integer to [double]. *)
Definition double_of_Z (z : Z) : double := round53 z 1.

(** [a / b] for a non-zero [b]; the quotient by zero is an infinity or a
    NaN, which no finite pair stands for. *)
Definition double_div (a b : double) : option double :=
  if mant b =? 0 then None
  else
    let num := mant a * 2 ^ Z.max 0 (expo a - expo b) in
    let den := mant b * 2 ^ Z.max 0 (expo b - expo a) in
    Some (round53 (Z.sgn den * num) (Z.abs den)).

(** [std::ceil]: the result is an integer-valued double, given here by its
    value. *)
Definition double_ceil (d : double) : Z :=
  if 0 <=? expo d then mant d * 2 ^ expo d
  else - ((- mant d) / 2 ^ (- expo d)).

(** Conversion of an integer-valued double to [size_t]: undefined when the
    value is out of range. *)
Definition double_to_size_t (v : Z) : option Z :=
  if (0 <=? v) && (v <=? SIZE_MAX) then Some v else None.

(** [size_t sliceSize = std::ceil(capacity / static_cast<double>(sliceNum_))] *)
Definition slice_size (capacity sliceNum_ : Z) : option Z :=
  q ← double_div (double_of_Z capacity) (double_of_Z sliceNum_);
  double_to_size_t (double_ceil q).

(** The exact quotient rounded up, [ceil(c / s)], for [0 < s]. *)
Definition ceil_div (c s : Z) : Z := (c + s - 1) / s.

(** ** [KHashLruCaches<Key, Value>] *)

Module KHash.

Section Defs.
Context {Key Value : Type} `{Countable Key}.
Context (Key0 : Key) (Value0 : Value).
(** [std::hash<Key>] and [std::thread::hardware_concurrency()], which the
    standard library supplies. *)
Context (Hash : Key → Z) (hardware_concurrency : Z).

Record KHashLruCaches := mkKHash {
  capacity_ : Z;
  sliceNum_ : Z;
  lruSliceCaches_ : list (Lru.LruCache Key Value)
}.

(** The loop of the constructor: [n] times
    [emplace_back(new LruCache<Key, Value>(sliceSize))], the [size_t]
    argument being converted to the [int] parameter.  [sliceSize] is
    [None] when the conversion that initialised it gave no defined value;
    the loop is the only place that reads it. *)
Fixpoint make_slices (n : nat) (sliceSize : option Z)
  : option (list (Lru.LruCache Key Value)) :=
  match n with
  | O => Some []
  | S n =>
      sliceSize' ← sliceSize;
      c ← Lru.new Key0 Value0 (to_int sliceSize');
      cs ← make_slices n sliceSize;
      Some (c :: cs)
  end.

(** [KHashLruCaches(size_t capacity, int sliceNum)].  When [sliceNum_] is
    0 the quotient is infinite (or not a number) and initialises
    [sliceSize] with no defined value, but the loop then runs no
    iteration and never reads it: the constructor returns a cache without
    slices. *)
Definition new (capacity sliceNum : Z) : option KHashLruCaches :=
  let sliceNum_ :=
    to_int (if 0 <? sliceNum then sliceNum else hardware_concurrency) in
  let sliceSize := slice_size capacity sliceNum_ in
  caches ← make_slices (Z.to_nat sliceNum_) sliceSize;
  Some (mkKHash capacity sliceNum_ caches).

(** [Hash(key) % sliceNum_]: both operands are [size_t]; the remainder by
    zero is undefined. *)
Definition sliceIndex (key : Key) (s : KHashLruCaches) : option nat :=
  if to_size_t (sliceNum_ s) =? 0 then None
  else Some (Z.to_nat (to_size_t (Hash key) mod to_size_t (sliceNum_ s))).

(** [put] *)
Definition put (key : Key) (value : Value) (s : KHashLruCaches)
  : option KHashLruCaches :=
  i ← sliceIndex key s;
  c ← lruSliceCaches_ s !! i;
  c ← Lru.put key value c;
  Some (mkKHash (capacity_ s) (sliceNum_ s) (<[i := c]> (lruSliceCaches_ s))).

(** [bool get(Key, Value &)] *)
Definition get (key : Key) (value : Value) (s : KHashLruCaches)
  : option (KHashLruCaches * (bool * Value)) :=
  i ← sliceIndex key s;
  c ← lruSliceCaches_ s !! i;
  '(c, r) ← Lru.get key value c;
  Some (mkKHash (capacity_ s) (sliceNum_ s) (<[i := c]> (lruSliceCaches_ s)), r).

(** [Value get(Key)] *)
Definition get1 (key : Key) (s : KHashLruCaches)
  : option (KHashLruCaches * Value) :=
  '(s, (_, value)) ← get key Value0 s; Some (s, value).

(** Insert the pairs of [kvs] in order. *)
Fixpoint put_all (kvs : list (Key * Value)) (s : KHashLruCaches)
  : option KHashLruCaches :=
  match kvs with
  | [] => Some s
  | (k, v) :: kvs => s ← put k v s; put_all kvs s
  end.

(** Query the keys of [ks] in order, the reference argument holding [v0]
    at each call; the state after the last query. *)
Fixpoint get_all (ks : list Key) (v0 : Value) (s : KHashLruCaches)
  : option KHashLruCaches :=
  match ks with
  | [] => Some s
  | k :: ks => '(s, _) ← get k v0 s; get_all ks v0 s
  end.

(** The slice that [key] is routed to among [n] slices. *)
Definition slice_of (n : Z) (key : Key) : Z := to_size_t (Hash key) mod n.

(** How many of the pairs of [kvs] are routed to slice [i]. *)
Definition load (n : Z) (i : Z) (kvs : list (Key * Value)) : nat :=
  length (filter (λ kv, slice_of n kv.1 = i) kvs).

(** Slice [i] of [h] is a well-formed cache of capacity [cap] whose
    recency list is the part of [kvs] routed to it, in insertion order. *)
Definition slices_hold (n cap : Z) (kvs : list (Key * Value))
    (h : KHashLruCaches) : Prop :=
  sliceNum_ h = n ∧ length (lruSliceCaches_ h) = Z.to_nat n ∧
  ∀ i c, lruSliceCaches_ h !! i = Some c →
    Lru.capacity_ c = cap ∧
    ∃ l, Lru.rep c l ∧
      Lru.ekv <$> l = filter (λ kv, slice_of n kv.1 = Z.of_nat i) kvs.

(** Every pair of [kvs] is resident, with its value, in the slice it is
    routed to. *)
Definition slices_keep (n : Z) (kvs : list (Key * Value))
    (h : KHashLruCaches) : Prop :=
  sliceNum_ h = n ∧ length (lruSliceCaches_ h) = Z.to_nat n ∧
  ∀ i c, lruSliceCaches_ h !! i = Some c →
    ∃ l, Lru.rep c l ∧
      ∀ k v, (k, v) ∈ kvs → slice_of n k = Z.of_nat i →
        Lru.assoc k (Lru.ekv <$> l) = Some v.

(** *** The operations as commands, for runs of a sharded cache *)

Inductive Op :=
| OPut (key : Key) (value : Value)
| OGet (key : Key) (value : Value)
| OGet1 (key : Key).

Definition step (op : Op) (s : KHashLruCaches)
  : option (KHashLruCaches * Lru.Ret Value) :=
  match op with
  | OPut key value => s ← put key value s; Some (s, Lru.RUnit)
  | OGet key value =>
      '(s, (b, v)) ← get key value s; Some (s, Lru.RFound b v)
  | OGet1 key => '(s, v) ← get1 key s; Some (s, Lru.RValue v)
  end.

Fixpoint run (ops : list Op) (s : KHashLruCaches)
  : option (KHashLruCaches * list (Lru.Ret Value)) :=
  match ops with
  | [] => Some (s, [])
  | op :: ops =>
      '(s, r) ← step op s;
      '(s, rs) ← run ops s;
      Some (s, r :: rs)
  end.

(** A sharded cache built by the constructor and driven through [ops]. *)
Definition exec (capacity sliceNum : Z) (ops : list Op)
  : option (KHashLruCaches * list (Lru.Ret Value)) :=
  s ← new capacity sliceNum; run ops s.

(** The call that the slice receives. *)
Definition as_lru (op : Op) : Lru.Op Key Value :=
  match op with
  | OPut key value => Lru.OPut key value
  | OGet key value => Lru.OGet key value
  | OGet1 key => Lru.OGet1 key
  end.

(** After the operations [pre]: every slice of [h] is a well-formed cache
    of capacity [cap] holding at most [cap] entries, each under a key
    routed to this slice and with the value that [pre] wrote last for
    it. *)
Definition slices_routed (n cap : Z) (pre : list Op) (h : KHashLruCaches)
  : Prop :=
  sliceNum_ h = n ∧ length (lruSliceCaches_ h) = Z.to_nat n ∧
  ∀ i c, lruSliceCaches_ h !! i = Some c →
    Lru.capacity_ c = cap ∧
    ∃ l, Lru.rep c l ∧ Z.of_nat (length l) ≤ cap ∧
      ∀ e, e ∈ l →
        slice_of n (Lru.ekey e) = Z.of_nat i ∧
        Lru.last_write (Lru.ekey e) (as_lru <$> pre) None
        = Some (Lru.evalue e).

End Defs.

Arguments KHashLruCaches _ _ {_ _}.
Arguments Op : clear implicits.

End KHash.

(** ** The LFU core, from its specification

    [LfuCache.h] is not among the sources; only its test is.  The
    definitions of this module follow sections 3 and 4 of the
    specification, sentence by sentence. *)

Module Lfu.

Section Defs.
Context {Key Value : Type} `{Countable Key}.

(** Modelled from the spec: the node of the missing [LfuCache.h], "owns
    key, value, frequency (positive integer, starts at 1)"; the key is the
    one the index files the node under, and the intrusive links are the
    position of the key in its bucket. *)
Record Node := mkNode { value : Value; frequency : Z }.

(** Modelled from the spec: the state of the missing LfuCore: "capacity,
    key→node index, mapping from frequency value → FrequencyBucketList,
    minFrequency, and an aging threshold (maxAverageFrequency) with a
    running total-frequency counter".  A bucket is the list of its keys,
    oldest member first. *)
Record LfuCore := mkLfu {
  capacity : Z;
  index : gmap Key Node;
  buckets : gmap Z (list Key);
  minFrequency : Z;
  maxAverageFrequency : Z;
  totalFrequency : Z
}.

(** Modelled from the spec: the missing constructor
    [LfuCache(capacity, maxAverageFrequency)]; the spec leaves the initial
    [minFrequency] open ("irrelevant when the cache is empty"), 1 is
    taken. *)
Definition new (capacity maxAverageFrequency : Z) : LfuCore :=
  mkLfu (Z.max 0 capacity) ∅ ∅ 1 maxAverageFrequency 0.

(** Modelled from the spec: the missing FrequencyBucketList: [bucket] reads
    a bucket (empty when absent), [append] "inserts node immediately before
    the tail sentinel", [unlink] "removes node from wherever it sits" and
    does nothing when it is not linked, [firstNode] "returns the node
    adjacent to the head sentinel". *)
Definition bucket (f : Z) (b : gmap Z (list Key)) : list Key :=
  default [] (b !! f).
Definition append (f : Z) (k : Key) (b : gmap Z (list Key))
  : gmap Z (list Key) := <[f := bucket f b ++ [k]]> b.
Definition unlink (f : Z) (k : Key) (b : gmap Z (list Key))
  : gmap Z (list Key) :=
  match b !! f with
  | Some ks => <[f := filter (λ k', k' ≠ k) ks]> b
  | None => b
  end.
Definition firstNode (f : Z) (b : gmap Z (list Key)) : option Key :=
  head (bucket f b).

(** Modelled from the spec: the aging sweep of the missing LfuCore: "every
    live node's frequency is halved (minimum 1), all nodes are relocated
    into the bucket matching their new frequency, minFrequency is
    recomputed as the minimum non-empty bucket key, and the running
    total-frequency counter is recomputed as the sum of live frequencies".
    The order in which the sweep re-appends the nodes is left open by the
    spec; the keys are taken bucket by bucket in the order of
    [map_to_list], each bucket from its oldest member. *)
Definition halve (n : Node) : Node :=
  mkNode (value n) (Z.max 1 (frequency n / 2)).

Definition relocate (idx : gmap Key Node) (b : gmap Z (list Key))
  : gmap Z (list Key) :=
  foldl (λ acc k, match idx !! k with
                  | Some n => append (frequency n) k acc
                  | None => acc
                  end)
        ∅ (concat (snd <$> map_to_list b)).

Definition min_bucket (b : gmap Z (list Key)) (d : Z) : Z :=
  match filter (λ fb, fb.2 ≠ []) (map_to_list b) with
  | [] => d
  | fb :: fbs => foldr Z.min fb.1 (fst <$> fbs)
  end.

Definition age (s : LfuCore) : LfuCore :=
  let idx := halve <$> index s in
  let b := relocate idx (buckets s) in
  mkLfu (capacity s) idx b (min_bucket b (minFrequency s))
        (maxAverageFrequency s)
        (foldr Z.add 0 ((frequency ∘ snd) <$> map_to_list idx)).

(** Modelled from the spec: the aging condition of the missing LfuCore:
    "the running total-frequency counter divided by the current index size
    exceeds maxAverageFrequency". *)
Definition aging_due (s : LfuCore) : bool :=
  maxAverageFrequency s <? totalFrequency s / Z.of_nat (size (index s)).

Definition check_aging (s : LfuCore) : LfuCore :=
  if aging_due s then age s else s.

(** Modelled from the spec: the promote step of the missing LfuCore, up to
    the aging check: "unlink the node from its current frequency bucket;
    if that bucket becomes empty and its frequency equals minFrequency,
    advance minFrequency to frequency + 1; increment the node's frequency
    by 1; append the node to the bucket for the new frequency; add 1 to the
    running total-frequency counter". *)
Definition promote_steps (k : Key) (s : LfuCore) : LfuCore :=
  match index s !! k with
  | None => s
  | Some n =>
      let f := frequency n in
      let b := unlink f k (buckets s) in
      let minf := if bool_decide (bucket f b = [] ∧ f = minFrequency s)
                  then f + 1 else minFrequency s in
      mkLfu (capacity s)
            (<[k := mkNode (value n) (f + 1)]> (index s))
            (append (f + 1) k b) minf (maxAverageFrequency s)
            (totalFrequency s + 1)
  end.

(** Modelled from the spec: promote of the missing LfuCore: the steps
    above, "then check the aging condition". *)
Definition promote (k : Key) (s : LfuCore) : LfuCore :=
  check_aging (promote_steps k s).

(** Modelled from the spec: evict of the missing LfuCore: "locate the
    bucket at minFrequency, take its firstNode(), unlink it from the
    bucket, erase it from the index, and subtract its frequency from the
    running total-frequency counter". *)
Definition evict (s : LfuCore) : LfuCore :=
  match firstNode (minFrequency s) (buckets s) with
  | None => s
  | Some k =>
      mkLfu (capacity s) (delete k (index s))
            (unlink (minFrequency s) k (buckets s))
            (minFrequency s) (maxAverageFrequency s)
            (totalFrequency s
             - default 0 (frequency <$> index s !! k))
  end.

(** Modelled from the spec: [put] of the missing LfuCore, up to the aging
    check of its last step: "If key exists, overwrite its value and perform
    the promote step.  If key is absent and the index is at capacity,
    perform evict first, then insert a new node at frequency 1, update
    minFrequency = 1, and add the node's weight to the running
    total-frequency counter". *)
Definition put_steps (k : Key) (v : Value) (s : LfuCore) : LfuCore :=
  match index s !! k with
  | Some n =>
      promote_steps k
        (mkLfu (capacity s) (<[k := mkNode v (frequency n)]> (index s))
               (buckets s) (minFrequency s) (maxAverageFrequency s)
               (totalFrequency s))
  | None =>
      let s := if capacity s <=? Z.of_nat (size (index s))
               then evict s else s in
      mkLfu (capacity s) (<[k := mkNode v 1]> (index s))
            (append 1 k (buckets s)) 1 (maxAverageFrequency s)
            (totalFrequency s + 1)
  end.

(** Modelled from the spec: [put] of the missing LfuCore: "if capacity ==
    0, no-op", else the steps above, "then check the aging condition". *)
Definition put (k : Key) (v : Value) (s : LfuCore) : LfuCore :=
  if capacity s =? 0 then s else check_aging (put_steps k v s).

(** Modelled from the spec: [get] of the missing LfuCore: "if key absent,
    returns not-found and leaves all state unchanged.  If present, perform
    promote, then return the current value". *)
Definition get (k : Key) (s : LfuCore) : LfuCore * option Value :=
  match index s !! k with
  | None => (s, None)
  | Some n => (promote k s, Some (value n))
  end.

(** Modelled from the spec: [remove] of the missing LfuCore: "unlinks and
    erases the node if present; decrements the running total-frequency
    counter by the node's last frequency; no-op if absent". *)
Definition remove (k : Key) (s : LfuCore) : LfuCore :=
  match index s !! k with
  | None => s
  | Some n =>
      mkLfu (capacity s) (delete k (index s))
            (unlink (frequency n) k (buckets s))
            (minFrequency s) (maxAverageFrequency s)
            (totalFrequency s - frequency n)
  end.

(** Modelled from the spec: [purge] of the missing LfuCore: "clears the
    index and all buckets; resets minFrequency and the running counter to
    initial state". *)
Definition purge (s : LfuCore) : LfuCore :=
  mkLfu (capacity s) ∅ ∅ 1 (maxAverageFrequency s) 0.

Inductive Op :=
| OPut (k : Key) (v : Value)
| OGet (k : Key)
| ORemove (k : Key)
| OPurge.

Definition step (op : Op) (s : LfuCore) : LfuCore :=
  match op with
  | OPut k v => put k v s
  | OGet k => (get k s).1
  | ORemove k => remove k s
  | OPurge => purge s
  end.

(** The frequency the index records for [k]. *)
Definition freq (k : Key) (s : LfuCore) : option Z :=
  frequency <$> index s !! k.

(** [op] runs an aging sweep when started in [s]: its aging check, if it
    gets to one, finds the condition true. *)
Definition sweeps (op : Op) (s : LfuCore) : bool :=
  match op with
  | OPut k v => negb (capacity s =? 0) && aging_due (put_steps k v s)
  | OGet k =>
      match index s !! k with
      | Some _ => aging_due (promote_steps k s)
      | None => false
      end
  | _ => false
  end.

(** [op] is a successful [get] of [k], or a [put] on [k] while [k] is in
    the index and the cache accepts entries. *)
Definition hits (k : Key) (op : Op) (s : LfuCore) : bool :=
  match op with
  | OPut k' _ => bool_decide (k' = k ∧ is_Some (index s !! k))
                 && negb (capacity s =? 0)
  | OGet k' => bool_decide (k' = k ∧ is_Some (index s !! k))
  | _ => false
  end.

(** A run of [ops] from [s] during which [k] stays in the index and no
    aging sweep fires: the number of hits on [k], if the run is such. *)
Fixpoint quiet_hits (k : Key) (ops : list Op) (s : LfuCore) : option nat :=
  match ops with
  | [] => Some O
  | op :: ops =>
      if sweeps op s then None
      else if bool_decide (is_Some (index (step op s) !! k)) then
        n ← quiet_hits k ops (step op s);
        Some ((if hits k op s then 1 else 0) + n)%nat
      else None
  end.

Fixpoint run (ops : list Op) (s : LfuCore) : LfuCore :=
  match ops with
  | [] => s
  | op :: ops => run ops (step op s)
  end.

End Defs.

Arguments LfuCore _ _ {_ _}.
Arguments Node : clear implicits.
Arguments Op : clear implicits.

End Lfu.

(** * Proofs

    The invariant of the linked list and of the index, its preservation by
    every operation of [LruCache], the refinement of the list model, and on
    top of these the properties of the three classes and of the LFU
    model. *)

Local Close Scope Z_scope.

(** ** [LruCache]: heap, chains and the invariant *)

Section LruFacts.
Import Lru.
Context {Key Value : Type} `{Countable Key}.
Context (Key0 : Key) (Value0 : Value).
Implicit Types (s : LruCache Key Value) (h : list (Node Key Value))
  (p q a z : ptr) (ps : list ptr) (l : list (Entry Key Value))
  (n : Node Key Value).

Lemma nextOf_is_Some h p : is_Some (nextOf h p) ↔ is_Some (h !! p).
Proof. unfold nextOf. by rewrite fmap_is_Some. Qed.
Lemma prevOf_is_Some h p : is_Some (prevOf h p) ↔ is_Some (h !! p).
Proof. unfold prevOf. by rewrite fmap_is_Some. Qed.

Lemma lookup_update h p n q :
  p < length h →
  <[p := n]> h !! q = if decide (q = p) then Some n else h !! q.
Proof.
  intros Hp. case_decide as Hq.
  - subst. by apply list_lookup_insert_eq.
  - by apply list_lookup_insert_ne.
Qed.

(** An assignment through a valid address succeeds; it changes the node
    at that address and nothing else.  The goal is split into the frame and
    the four field views, each of which is a lookup in the updated heap. *)
Ltac assign_effect :=
  let n := fresh "n" in
  let Hn := fresh "Hn" in
  intros [n Hn]; unfold assign; rewrite Hn; simpl; eexists; split; [done|];
  pose proof (lookup_lt_Some _ _ _ Hn);
  split; [repeat split; simpl; by rewrite length_insert|];
  unfold nextOf, prevOf, keyOf, valueOf; simpl;
  repeat split; intros ?; rewrite lookup_update by done;
  case_decide; subst; rewrite ?Hn; done.

(** Effect of one field assignment on the four field views of the heap. *)
Lemma assign_set_next s p v :
  is_Some (heap_ s !! p) →
  ∃ s', assign p (set_next v) s = Some s' ∧ same_frame s s' ∧
    (∀ q, nextOf (heap_ s') q =
          if decide (q = p) then Some v else nextOf (heap_ s) q) ∧
    (∀ q, prevOf (heap_ s') q = prevOf (heap_ s) q) ∧
    (∀ q, keyOf (heap_ s') q = keyOf (heap_ s) q) ∧
    (∀ q, valueOf (heap_ s') q = valueOf (heap_ s) q).
Proof. assign_effect. Qed.

Lemma assign_set_prev s p v :
  is_Some (heap_ s !! p) →
  ∃ s', assign p (set_prev v) s = Some s' ∧ same_frame s s' ∧
    (∀ q, nextOf (heap_ s') q = nextOf (heap_ s) q) ∧
    (∀ q, prevOf (heap_ s') q =
          if decide (q = p) then Some v else prevOf (heap_ s) q) ∧
    (∀ q, keyOf (heap_ s') q = keyOf (heap_ s) q) ∧
    (∀ q, valueOf (heap_ s') q = valueOf (heap_ s) q).
Proof. assign_effect. Qed.

Lemma assign_setValue s p v :
  is_Some (heap_ s !! p) →
  ∃ s', assign p (setValue v) s = Some s' ∧ same_frame s s' ∧
    (∀ q, nextOf (heap_ s') q = nextOf (heap_ s) q) ∧
    (∀ q, prevOf (heap_ s') q = prevOf (heap_ s) q) ∧
    (∀ q, keyOf (heap_ s') q = keyOf (heap_ s) q) ∧
    (∀ q, valueOf (heap_ s') q =
          if decide (q = p) then Some v else valueOf (heap_ s) q).
Proof. assign_effect. Qed.

(** ** Chains *)

Lemma chain_frame h h' a ps z :
  (∀ q, q ∈ a :: ps → nextOf h' q = nextOf h q) →
  (∀ q, q ∈ ps ++ [z] → prevOf h' q = prevOf h q) →
  chain h a ps z → chain h' a ps z.
Proof.
  revert a. induction ps as [|p ps IH]; intros a Hn Hp; simpl.
  - intros [Ha Hz]. rewrite Hn, Hp by set_solver. done.
  - intros (Ha & Hb & Hc). rewrite Hn, Hp by set_solver.
    split_and!; [done..|]. apply IH; [| |done]; intros q Hq; [apply Hn|apply Hp]; set_solver.
Qed.

Lemma chain_app h a ps1 p ps2 z :
  chain h a (ps1 ++ p :: ps2) z ↔ chain h a ps1 p ∧ chain h p ps2 z.
Proof.
  revert a. induction ps1 as [|x ps1 IH]; intros a; simpl.
  - tauto.
  - rewrite IH. tauto.
Qed.

Lemma chain_alloc h a ps z q :
  chain h a ps z → q ∈ a :: ps ++ [z] → is_Some (h !! q).
Proof.
  revert a. induction ps as [|p ps IH]; intros a; simpl.
  - intros [Ha Hz] Hq. apply elem_of_cons in Hq as [->|Hq].
    + apply nextOf_is_Some. eauto.
    + apply list_elem_of_singleton in Hq as ->. apply prevOf_is_Some. eauto.
  - intros (Ha & Hb & Hc) Hq. apply elem_of_cons in Hq as [->|Hq].
    + apply nextOf_is_Some. eauto.
    + by apply (IH p).
Qed.


Lemma lastp_cons a p ps : lastp a (p :: ps) = lastp p ps.
Proof. unfold lastp. rewrite (last_cons p ps). by destruct (last ps). Qed.

Lemma lastp_elem a ps : lastp a ps ∈ a :: ps.
Proof.
  revert a. induction ps as [|p ps IH]; intros a.
  - unfold lastp. simpl. set_solver.
  - rewrite lastp_cons. specialize (IH p). set_solver.
Qed.

Lemma headp_elem ps z : headp ps z ∈ ps ++ [z].
Proof. destruct ps; unfold headp; simpl; set_solver. Qed.

Lemma chain_last h a ps z :
  chain h a ps z →
  nextOf h (lastp a ps) = Some (Some z) ∧ prevOf h z = Some (Some (lastp a ps)).
Proof.
  revert a. induction ps as [|p ps IH]; intros a; simpl.
  - done.
  - intros (_ & _ & Hc). rewrite lastp_cons. by apply IH.
Qed.

Lemma chain_head h a ps z :
  chain h a ps z →
  nextOf h a = Some (Some (headp ps z)) ∧ prevOf h (headp ps z) = Some (Some a).
Proof. destruct ps; simpl; unfold headp; simpl; tauto. Qed.

Lemma chain_redirect h h' a ps z z' :
  chain h a ps z → NoDup (a :: ps) →
  (∀ q, q ∈ a :: ps → q ≠ lastp a ps → nextOf h' q = nextOf h q) →
  (∀ q, q ∈ ps → prevOf h' q = prevOf h q) →
  nextOf h' (lastp a ps) = Some (Some z') →
  prevOf h' z' = Some (Some (lastp a ps)) →
  chain h' a ps z'.
Proof.
  revert a. induction ps as [|p ps IH]; intros a; simpl.
  - done.
  - intros (Ha & Hb & Hc) Hnd Hn Hp. rewrite lastp_cons. intros Hl Hz.
    apply NoDup_cons in Hnd as [Hnotin Hnd].
    assert (a ≠ lastp p ps) as Hne.
    { intros ->. apply Hnotin, lastp_elem. }
    rewrite Hn, Hp; [|set_solver..| by rewrite lastp_cons].
    split_and!; [done..|]. apply IH; try done.
    + intros q Hq Hql. apply Hn; [set_solver|by rewrite lastp_cons].
    + intros q Hq. apply Hp. set_solver.
Qed.

Lemma same_frame_trans s1 s2 s3 :
  same_frame s1 s2 → same_frame s2 s3 → same_frame s1 s3.
Proof. unfold same_frame. intros (?&?&?&?&?) (?&?&?&?&?). split_and!; congruence. Qed.

(** Splitting of the pointer list around a linked node. *)
Lemma nodup_around (hd tl p : ptr) ps1 ps2 :
  NoDup (hd :: (ps1 ++ p :: ps2) ++ [tl]) →
  NoDup (hd :: ps1) ∧ NoDup (ps2 ++ [tl]) ∧
  (p ∉ hd :: ps1) ∧ (p ∉ ps2 ++ [tl]) ∧
  (∀ x, x ∈ hd :: ps1 → x ∉ (ps2 ++ [tl])) ∧
  NoDup (hd :: (ps1 ++ ps2) ++ [tl]).
Proof.
  intros Hnd.
  replace (hd :: (ps1 ++ p :: ps2) ++ [tl])
    with ((hd :: ps1) ++ p :: (ps2 ++ [tl])) in Hnd
    by (simpl; by rewrite <-app_assoc).
  apply NoDup_app in Hnd as (H1 & H2 & H3).
  apply NoDup_cons in H3 as [H3 H4].
  split_and!; try done.
  - intros Hp. apply (H2 p Hp). set_solver.
  - intros x Hx Hx'. apply (H2 x Hx). set_solver.
  - replace (hd :: (ps1 ++ ps2) ++ [tl]) with ((hd :: ps1) ++ (ps2 ++ [tl]))
      by (simpl; by rewrite <-app_assoc).
    apply NoDup_app. split_and!; try done.
    intros x Hx Hx'. apply (H2 x Hx). set_solver.
Qed.

Lemma removeNode_spec s l1 e l2 :
  list_rep s (l1 ++ e :: l2) →
  ∃ s', removeNode (eptr e) s = Some s' ∧ same_frame s s' ∧
    list_rep s' (l1 ++ l2) ∧
    (∀ q, keyOf (heap_ s') q = keyOf (heap_ s) q) ∧
    (∀ q, valueOf (heap_ s') q = valueOf (heap_ s) q).
Proof.
  intros [Hch Hnd Hce].
  rewrite fmap_app, fmap_cons in Hch, Hnd.
  set (ps1 := eptr <$> l1) in *. set (ps2 := eptr <$> l2) in *.
  set (p := eptr e) in *.
  apply chain_app in Hch as [Hc1 Hc2].
  destruct (chain_last _ _ _ _ Hc1) as [Han Hpp].
  destruct (chain_head _ _ _ _ Hc2) as [Hpn Hbp].
  set (a := lastp (dummyHead_ s) ps1) in *.
  set (b := headp ps2 (dummyTail_ s)) in *.
  pose proof (lastp_elem (dummyHead_ s) ps1) as Ha. fold a in Ha.
  pose proof (headp_elem ps2 (dummyTail_ s)) as Hb. fold b in Hb.
  apply nodup_around in Hnd as (Hnd1 & Hnd2 & Hp1 & Hp2 & Hdisj & Hnd').
  assert (a ≠ p) as Hap by (intros ->; done).
  assert (b ≠ p) as Hbp' by (intros ->; done).
  assert (a ≠ b) as Hab by (intros ->; by apply (Hdisj b)).
  unfold removeNode, deref.
  assert (∃ n, heap_ s !! p = Some n ∧ prev_ n = Some a ∧ next_ n = Some b)
    as (n & Hn & Hnp & Hnn).
  { unfold nextOf, prevOf in Hpp, Hpn. destruct (heap_ s !! p) as [n|]; [|done].
    simpl in *. exists n. split_and!; congruence. }
  rewrite Hn. simpl. rewrite Hnp, Hnn.
  destruct (assign_set_next s a (Some b)) as (s1 & -> & Hf1 & Hn1 & Hp1' & Hk1 & Hv1).
  { apply nextOf_is_Some. eauto. }
  simpl.
  destruct (assign_set_prev s1 b (Some a)) as (s2 & -> & Hf2 & Hn2 & Hp2' & Hk2 & Hv2).
  { apply prevOf_is_Some. rewrite Hp1'. eauto. }
  simpl.
  destruct (assign_set_next s2 p None) as (s3 & -> & Hf3 & Hn3 & Hp3' & Hk3 & Hv3).
  { apply nextOf_is_Some. rewrite Hn2, Hn1. case_decide; eauto. }
  simpl.
  destruct (assign_set_prev s3 p None) as (s4 & -> & Hf4 & Hn4 & Hp4' & Hk4 & Hv4).
  { apply nextOf_is_Some. rewrite Hn3, decide_True by done. eauto. }
  exists s4. split; [done|].
  assert (same_frame s s4) as Hf by eauto using same_frame_trans.
  assert (∀ q, nextOf (heap_ s4) q =
    if decide (q = p) then Some None
    else if decide (q = a) then Some (Some b) else nextOf (heap_ s) q) as HN.
  { intros q. rewrite Hn4, Hn3, Hn2, Hn1. done. }
  assert (∀ q, prevOf (heap_ s4) q =
    if decide (q = p) then Some None
    else if decide (q = b) then Some (Some a) else prevOf (heap_ s) q) as HP.
  { intros q. rewrite Hp4', Hp3', Hp2', Hp1'. done. }
  assert (∀ q, keyOf (heap_ s4) q = keyOf (heap_ s) q) as HK.
  { intros q. by rewrite Hk4, Hk3, Hk2, Hk1. }
  assert (∀ q, valueOf (heap_ s4) q = valueOf (heap_ s) q) as HV.
  { intros q. by rewrite Hv4, Hv3, Hv2, Hv1. }
  split; [done|]. split; [|done].
  destruct Hf as (_ & _ & Hhd & Htl & _).
  split.
  - rewrite fmap_app, Hhd, Htl. fold ps1 ps2.
    assert (chain (heap_ s4) (dummyHead_ s) ps1 b) as Hc1'.
    { eapply chain_redirect; [exact Hc1|done|..]; fold a.
      - intros q Hq Hqa. rewrite HN. rewrite !decide_False; [done|done|].
        intros ->. done.
      - intros q Hq. rewrite HP. rewrite !decide_False; [done| |].
        + intros ->. apply (Hdisj b); [set_solver|done].
        + intros ->. apply Hp1. set_solver.
      - rewrite HN. rewrite decide_False, decide_True; done.
      - rewrite HP. rewrite decide_False, decide_True; done. }
    destruct ps2 as [|b' ps2'] eqn:Hps2.
    + rewrite app_nil_r. done.
    + apply chain_app. split; [done|].
      simpl in Hc2. destruct Hc2 as (_ & _ & Hc2).
      unfold b, headp in *; simpl in *.
      apply NoDup_cons in Hnd2 as [Hb1 Hnd2].
      eapply chain_frame; [| |exact Hc2].
      * intros q Hq. rewrite HN. rewrite !decide_False; [done| |].
        -- intros ->. apply (Hdisj a Ha). set_solver.
        -- intros ->. apply Hp2. set_solver.
      * intros q Hq. rewrite HP. rewrite !decide_False; [done| |].
        -- intros ->. done.
        -- intros ->. apply Hp2. set_solver.
  - rewrite fmap_app, Hhd, Htl. done.
  - apply Forall_app in Hce as [Hce1 Hce2]. apply Forall_cons in Hce2 as [_ Hce2].
    apply Forall_app. split; (eapply Forall_impl; [eassumption|]);
      intros x [??]; split; by rewrite ?HK, ?HV.
Qed.


Lemma insertNode_spec s l e :
  list_rep s l →
  eptr e ∉ dummyHead_ s :: (eptr <$> l) ++ [dummyTail_ s] →
  cell (heap_ s) e →
  ∃ s', insertNode (eptr e) s = Some s' ∧ same_frame s s' ∧
    list_rep s' (l ++ [e]) ∧
    (∀ q, keyOf (heap_ s') q = keyOf (heap_ s) q) ∧
    (∀ q, valueOf (heap_ s') q = valueOf (heap_ s) q).
Proof.
  intros [Hch Hnd Hce] Hfresh [Hek Hev].
  set (ps := eptr <$> l) in *. set (p := eptr e) in *.
  destruct (chain_last _ _ _ _ Hch) as [Han Hzp].
  set (a := lastp (dummyHead_ s) ps) in *.
  pose proof (lastp_elem (dummyHead_ s) ps) as Ha. fold a in Ha.
  assert (a ≠ p) as Hap by (intros ->; apply Hfresh; set_solver).
  assert (dummyTail_ s ≠ p) as Hzp' by (intros Heq; apply Hfresh; set_solver).
  assert (a ≠ dummyTail_ s) as Haz.
  { intros Heq. apply NoDup_cons in Hnd as [Hhd Hnd].
    apply elem_of_cons in Ha as [Ha|Ha].
    - apply Hhd. rewrite <-Ha, Heq. set_solver.
    - apply NoDup_app in Hnd as (_ & Hnd & _). apply (Hnd a Ha). set_solver. }
  unfold insertNode, deref.
  assert (∃ n, heap_ s !! dummyTail_ s = Some n ∧ prev_ n = Some a)
    as (tl & Htl & Htlp).
  { unfold prevOf in Hzp. destruct (heap_ s !! dummyTail_ s) as [n|]; [|done].
    simpl in *. exists n. split; congruence. }
  rewrite Htl. simpl. rewrite Htlp. simpl.
  destruct (assign_set_next s p (Some (dummyTail_ s)))
    as (s1 & -> & Hf1 & Hn1 & Hp1 & Hk1 & Hv1).
  { unfold keyOf in Hek. destruct (heap_ s !! p); [eauto|done]. }
  simpl.
  destruct (assign_set_prev s1 p (Some a)) as (s2 & -> & Hf2 & Hn2 & Hp2 & Hk2 & Hv2).
  { apply nextOf_is_Some. rewrite Hn1, decide_True by done. eauto. }
  simpl.
  destruct (assign_set_next s2 a (Some p)) as (s3 & -> & Hf3 & Hn3 & Hp3 & Hk3 & Hv3).
  { apply nextOf_is_Some. rewrite Hn2, Hn1, decide_False by done. eauto. }
  simpl.
  assert (same_frame s s3) as Hf by eauto using same_frame_trans.
  assert (dummyTail_ s3 = dummyTail_ s) as Ht3 by apply Hf.
  rewrite Ht3.
  destruct (assign_set_prev s3 (dummyTail_ s) (Some p))
    as (s4 & -> & Hf4 & Hn4 & Hp4 & Hk4 & Hv4).
  { apply prevOf_is_Some. rewrite Hp3, Hp2, decide_False, Hp1 by done. eauto. }
  exists s4. split; [done|].
  assert (same_frame s s4) as Hf' by eauto using same_frame_trans.
  assert (∀ q, nextOf (heap_ s4) q =
    if decide (q = a) then Some (Some p)
    else if decide (q = p) then Some (Some (dummyTail_ s))
    else nextOf (heap_ s) q) as HN.
  { intros q. rewrite Hn4, Hn3, Hn2, Hn1. done. }
  assert (∀ q, prevOf (heap_ s4) q =
    if decide (q = dummyTail_ s) then Some (Some p)
    else if decide (q = p) then Some (Some a) else prevOf (heap_ s) q) as HP.
  { intros q. rewrite Hp4, Hp3, Hp2, Hp1. done. }
  assert (∀ q, keyOf (heap_ s4) q = keyOf (heap_ s) q) as HK.
  { intros q. by rewrite Hk4, Hk3, Hk2, Hk1. }
  assert (∀ q, valueOf (heap_ s4) q = valueOf (heap_ s) q) as HV.
  { intros q. by rewrite Hv4, Hv3, Hv2, Hv1. }
  split; [done|]. split; [|done].
  destruct Hf' as (_ & _ & Hhd & Htl' & _).
  split.
  - rewrite fmap_app, Hhd, Htl'. simpl. fold ps p.
    apply chain_app. split.
    + eapply chain_redirect; [exact Hch| |..]; fold a.
      * apply NoDup_cons in Hnd as [Hhd' Hnd].
        apply NoDup_app in Hnd as (Hnd & _ & _).
        apply NoDup_cons. split; [|done]. set_solver.
      * intros q Hq Hqa. rewrite HN, !decide_False; [done| |done].
        intros ->. apply Hfresh. set_solver.
      * intros q Hq. rewrite HP, !decide_False; [done| |].
        -- intros ->. apply Hfresh. set_solver.
        -- intros ->. apply NoDup_cons in Hnd as [_ Hnd].
           apply NoDup_app in Hnd as (_ & Hnd & _). apply (Hnd _ Hq). set_solver.
      * by rewrite HN, decide_True.
      * by rewrite HP, decide_False, decide_True.
    + simpl. rewrite HN, HP, decide_False, !decide_True by done. done.
  - rewrite fmap_app, Hhd, Htl'. simpl. fold ps p.
    apply NoDup_cons in Hnd as [Hhd' Hnd].
    apply NoDup_app in Hnd as (Hnd1 & Hnd2 & Hnd3).
    apply NoDup_cons. split.
    + intros Hin. apply Hfresh.
      rewrite <-app_assoc in Hin. simpl in Hin.
      apply elem_of_app in Hin as [Hin|Hin]; [set_solver|].
      apply elem_of_cons in Hin as [Hin|Hin]; [|set_solver].
      rewrite Hin. set_solver.
    + rewrite <-app_assoc. simpl. apply NoDup_app. split_and!; [done| |].
      * intros x Hx Hx'. apply elem_of_cons in Hx' as [->|Hx'].
        -- apply Hfresh. set_solver.
        -- by apply (Hnd2 x).
      * apply NoDup_cons. split; [set_solver|done].
  - apply Forall_app. split.
    + eapply Forall_impl; [eassumption|].
      intros x [??]; split; by rewrite ?HK, ?HV.
    + apply Forall_singleton. split; by rewrite ?HK, ?HV.
Qed.

Lemma list_rep_alloc s l n :
  list_rep s l →
  list_rep (make_shared n s).2 l ∧
  length (heap_ s) ∉ dummyHead_ s :: (eptr <$> l) ++ [dummyTail_ s].
Proof.
  intros [Hch Hnd Hce].
  assert (∀ q, is_Some (heap_ s !! q) → (heap_ s ++ [n]) !! q = heap_ s !! q) as Hold.
  { intros q [x Hq]. by rewrite (lookup_app_l_Some _ _ _ _ Hq). }
  split.
  - split; simpl; [|done|].
    + eapply chain_frame; [| |exact Hch]; intros q Hq; unfold nextOf, prevOf;
        rewrite Hold; [done| |done|];
        eapply chain_alloc; [exact Hch| |exact Hch|];
        simpl; set_solver.
    + eapply Forall_impl; [exact Hce|]. intros e [Hk Hv].
      unfold cell, keyOf, valueOf in *.
      rewrite Hold; [done|]. destruct (heap_ s !! eptr e); [eauto|done].
  - intros Hin. eapply chain_alloc in Hin as [x Hx]; [|exact Hch].
    apply lookup_lt_Some in Hx. lia.
Qed.


(** ** The index *)

Lemma eindex_fst l : (eindex <$> l).*1 = ekey <$> l.
Proof. by rewrite <-list_fmap_compose. Qed.

Lemma eindex_elem l k p :
  (k, p) ∈ eindex <$> l ↔ ∃ e, e ∈ l ∧ ekey e = k ∧ eptr e = p.
Proof.
  rewrite list_elem_of_fmap. unfold eindex. split.
  - intros (e & Heq & He). exists e. by simplify_eq.
  - intros (e & He & <- & <-). by exists e.
Qed.

Lemma rep_size s l : rep s l → size (nodeMap_ s) = length l.
Proof.
  intros [_ -> Hk]. rewrite map_size_list_to_map, length_fmap; [done|].
  by rewrite eindex_fst.
Qed.

Lemma rep_lookup_Some s l k p :
  rep s l → nodeMap_ s !! k = Some p →
  ∃ l1 e l2, l = l1 ++ e :: l2 ∧ ekey e = k ∧ eptr e = p.
Proof.
  intros [_ -> Hk] Hl. apply elem_of_list_to_map_2, eindex_elem in Hl.
  destruct Hl as (e & He & <- & <-).
  apply list_elem_of_split in He as (l1 & l2 & ->). by exists l1, e, l2.
Qed.

Lemma rep_lookup_None s l k :
  rep s l → nodeMap_ s !! k = None ↔ k ∉ ekey <$> l.
Proof.
  intros [_ -> Hk]. by rewrite <-not_elem_of_list_to_map, eindex_fst.
Qed.

Lemma rep_lookup_elem s l e :
  rep s l → e ∈ l → nodeMap_ s !! ekey e = Some (eptr e).
Proof.
  intros [_ -> Hk] He. apply elem_of_list_to_map_1.
  - by rewrite eindex_fst.
  - apply eindex_elem. eauto.
Qed.

Lemma index_moved l1 e l2 e' :
  NoDup (ekey <$> l1 ++ e :: l2) → eindex e' = eindex e →
  list_to_map (eindex <$> l1 ++ l2 ++ [e']) =@{gmap Key ptr}
  list_to_map (eindex <$> l1 ++ e :: l2).
Proof.
  intros Hnd Heq. symmetry. apply list_to_map_proper.
  - by rewrite eindex_fst.
  - rewrite !fmap_app, fmap_cons. simpl. rewrite Heq. solve_Permutation.
Qed.

Lemma index_deleted l1 e l2 :
  NoDup (ekey <$> l1 ++ e :: l2) →
  delete (ekey e) (list_to_map (eindex <$> l1 ++ e :: l2)) =@{gmap Key ptr}
  list_to_map (eindex <$> l1 ++ l2).
Proof.
  intros Hnd.
  rewrite (list_to_map_proper _ (eindex <$> e :: (l1 ++ l2))).
  - rewrite fmap_cons. simpl. rewrite delete_insert_eq. apply delete_id.
    apply not_elem_of_list_to_map_1. rewrite eindex_fst.
    rewrite fmap_app, fmap_cons in Hnd.
    apply NoDup_app in Hnd as (_ & Hd & Hnd).
    apply NoDup_cons in Hnd as [Hnd _]. rewrite fmap_app.
    intros [Hin|Hin]%elem_of_app; [|done]. apply (Hd _ Hin). set_solver.
  - by rewrite eindex_fst.
  - rewrite !fmap_app, !fmap_cons, fmap_app. solve_Permutation.
Qed.

Lemma index_inserted l e :
  ekey e ∉ ekey <$> l →
  <[ekey e := eptr e]> (list_to_map (eindex <$> l)) =@{gmap Key ptr}
  list_to_map (eindex <$> l ++ [e]).
Proof.
  intros Hk. rewrite fmap_app. simpl. unfold eindex at 3.
  rewrite list_to_map_snoc; [done|]. by rewrite eindex_fst.
Qed.

Lemma keys_moved l1 e l2 e' :
  NoDup (ekey <$> l1 ++ e :: l2) → ekey e' = ekey e →
  NoDup (ekey <$> l1 ++ l2 ++ [e']).
Proof.
  intros Hnd Heq. eapply NoDup_Permutation_proper; [|exact Hnd].
  rewrite !fmap_app, fmap_cons. simpl. rewrite Heq. solve_Permutation.
Qed.

Lemma keys_deleted l1 e l2 :
  NoDup (ekey <$> l1 ++ e :: l2) → NoDup (ekey <$> l1 ++ l2).
Proof.
  rewrite !fmap_app, fmap_cons. intros Hnd.
  apply NoDup_app in Hnd as (H1 & H2 & H3). apply NoDup_cons in H3 as [H3 H4].
  apply NoDup_app. split_and!; [done| |done].
  intros x Hx Hx'. apply (H2 x Hx). set_solver.
Qed.

(** ** The operations preserve the invariant *)

Lemma moveToMostRecent_spec s l1 e l2 :
  rep s (l1 ++ e :: l2) →
  ∃ s', moveToMostRecent (eptr e) s = Some s' ∧ same_frame s s' ∧
    rep s' (l1 ++ l2 ++ [e]).
Proof.
  intros [Hl Hm Hk]. unfold moveToMostRecent.
  destruct (removeNode_spec _ _ _ _ Hl) as (s1 & -> & Hf1 & Hl1 & Hk1 & Hv1).
  simpl.
  destruct (insertNode_spec s1 (l1 ++ l2) e Hl1) as (s2 & -> & Hf2 & Hl2 & Hk2 & Hv2).
  - destruct Hf1 as (_ & _ & -> & -> & _). destruct Hl as [_ Hnd _].
    rewrite fmap_app, fmap_cons in Hnd.
    apply nodup_around in Hnd as (_ & _ & Hp1 & Hp2 & _).
    rewrite fmap_app, <-app_assoc. simpl.
    intros Hin. rewrite app_comm_cons in Hin.
    apply elem_of_app in Hin as [Hin|Hin]; done.
  - destruct Hl as [_ _ Hce]. apply Forall_app in Hce as [_ Hce].
    apply Forall_cons in Hce as [[??] _]. split; by rewrite ?Hk1, ?Hv1.
  - exists s2. split; [done|].
    assert (same_frame s s2) as Hf by eauto using same_frame_trans.
    split; [done|]. rewrite app_assoc. split; [done| |].
    + destruct Hf as (_ & -> & _). rewrite Hm, <-app_assoc.
      symmetry. by apply index_moved.
    + rewrite <-app_assoc. by eapply keys_moved.
Qed.

Lemma setValue_list_rep s l1 e l2 v :
  list_rep s (l1 ++ e :: l2) →
  ∃ s', assign (eptr e) (setValue v) s = Some s' ∧ same_frame s s' ∧
    list_rep s' (l1 ++ mkEntry (eptr e) (ekey e) v :: l2).
Proof.
  intros [Hch Hnd Hce].
  destruct (assign_setValue s (eptr e) v) as (s1 & -> & Hf & Hn & Hp & Hk & Hv).
  { eapply chain_alloc; [exact Hch|]. rewrite fmap_app, fmap_cons. set_solver. }
  exists s1. split; [done|]. split; [done|].
  destruct Hf as (_ & _ & Hhd & Htl & _).
  rewrite fmap_app, fmap_cons in Hch, Hnd.
  split; rewrite ?fmap_app, ?fmap_cons, ?Hhd, ?Htl; simpl.
  - eapply chain_frame; [| |exact Hch]; intros; by rewrite ?Hn, ?Hp.
  - done.
  - apply nodup_around in Hnd as (_ & _ & Hp1 & Hp2 & _).
    apply Forall_app in Hce as [Hce1 Hce2].
    apply Forall_cons in Hce2 as [[He1 He2] Hce2].
    apply Forall_app. split; [|apply Forall_cons; split].
    + apply Forall_forall. intros x Hx.
      rewrite Forall_forall in Hce1. destruct (Hce1 x Hx) as [??].
      split; rewrite ?Hk, ?Hv; [done|]. rewrite decide_False; [done|].
      intros Heq. apply Hp1. rewrite <-Heq. apply elem_of_cons. right.
      apply list_elem_of_fmap. eauto.
    + split; simpl; rewrite ?Hk, ?Hv; [done|]. by rewrite decide_True.
    + apply Forall_forall. intros x Hx.
      rewrite Forall_forall in Hce2. destruct (Hce2 x Hx) as [??].
      split; rewrite ?Hk, ?Hv; [done|]. rewrite decide_False; [done|].
      intros Heq. apply Hp2. rewrite <-Heq. apply elem_of_app. left.
      apply list_elem_of_fmap. eauto.
Qed.

Lemma updateExistingNode_spec s l1 e l2 v :
  rep s (l1 ++ e :: l2) →
  ∃ s', updateExistingNode (eptr e) v s = Some s' ∧ same_frame s s' ∧
    rep s' (l1 ++ l2 ++ [mkEntry (eptr e) (ekey e) v]).
Proof.
  intros [Hl Hm Hk]. unfold updateExistingNode.
  destruct (setValue_list_rep _ _ _ _ v Hl) as (s1 & -> & Hf1 & Hl1). simpl.
  set (e' := mkEntry (eptr e) (ekey e) v) in *.
  assert (rep s1 (l1 ++ e' :: l2)) as Hr1.
  { split; [done| |].
    - destruct Hf1 as (_ & -> & _). rewrite Hm. by rewrite !fmap_app, !fmap_cons.
    - by rewrite fmap_app, fmap_cons in *. }
  destruct (moveToMostRecent_spec _ _ _ _ Hr1) as (s2 & Hs2 & Hf2 & Hr2).
  exists s2. split; [exact Hs2|]. split; [|done].
  eauto using same_frame_trans.
Qed.


Lemma evictLeastRecent_nil s :
  rep s [] → evictLeastRecent s = Some s.
Proof.
  intros [[Hch _ _] _ _]. simpl in Hch. destruct Hch as [Hn _].
  unfold evictLeastRecent, deref. unfold nextOf in Hn.
  destruct (heap_ s !! dummyHead_ s) as [hd|]; [|done]. simpl in *.
  injection Hn as ->. by rewrite decide_True.
Qed.

Lemma evictLeastRecent_cons s e l :
  rep s (e :: l) →
  ∃ s', evictLeastRecent s = Some s' ∧ rep s' l ∧
    capacity_ s' = capacity_ s ∧
    nodeMap_ s' = delete (ekey e) (nodeMap_ s) ∧
    length (heap_ s') = length (heap_ s).
Proof.
  intros [Hl Hm Hk]. pose proof Hl as [Hch Hnd Hce].
  simpl in Hch. destruct Hch as (Hn & _ & _).
  unfold evictLeastRecent, deref. unfold nextOf in Hn.
  destruct (heap_ s !! dummyHead_ s) as [hd|]; [|done]. simpl in *.
  injection Hn as ->. rewrite decide_False.
  2:{ intros Heq. apply NoDup_cons in Hnd as [_ Hnd].
      apply NoDup_cons in Hnd as [Hnd _]. apply Hnd. rewrite Heq. set_solver. }
  destruct (removeNode_spec s [] e l Hl) as (s1 & -> & Hf & Hl1 & Hk1 & Hv1).
  simpl. apply Forall_cons in Hce as [[Hek _] _].
  rewrite <-Hk1 in Hek. unfold keyOf in Hek.
  destruct (heap_ s1 !! eptr e) as [n|]; [|done]. simpl in *.
  injection Hek as ->. eexists. split; [done|].
  destruct Hf as (Hc & Hmap & Hhd & Htl & Hlen). simpl.
  split_and!; try done; [|by rewrite Hmap].
  split; simpl.
  - destruct Hl1 as [???]. by split.
  - rewrite Hmap, Hm. apply (index_deleted [] e l). done.
  - by apply NoDup_cons in Hk as [_ ?].
Qed.

Lemma rep_alloc s l n :
  rep s l → rep (make_shared n s).2 l.
Proof.
  intros [Hl Hm Hk]. split; [|done..]. by apply list_rep_alloc.
Qed.

Lemma addNewNode_fits s l k v :
  rep s l → k ∉ ekey <$> l →
  ∃ s', addNewNode k v s = Some s' ∧ capacity_ s' = capacity_ s ∧
    ∃ p, rep s' ((if bool_decide (capacity_ s ≤ Z.of_nat (length l))%Z
                  then tail l else l) ++ [mkEntry p k v]).
Proof.
  intros Hr Hk. unfold addNewNode. rewrite (rep_size _ _ Hr).
  assert (∃ s1, (if (capacity_ s <=? Z.of_nat (length l))%Z
                 then evictLeastRecent s else Some s) = Some s1 ∧
            capacity_ s1 = capacity_ s ∧
            rep s1 (if bool_decide (capacity_ s ≤ Z.of_nat (length l))%Z
                    then tail l else l)) as (s1 & -> & Hc1 & Hr1).
  { destruct (Z.leb_spec (capacity_ s) (Z.of_nat (length l))) as [Hle|Hlt].
    - rewrite bool_decide_eq_true_2 by done. destruct l as [|e l].
      + exists s. by rewrite evictLeastRecent_nil.
      + destruct (evictLeastRecent_cons _ _ _ Hr) as (s1 & -> & ? & ? & _).
        by exists s1.
    - rewrite bool_decide_eq_false_2 by lia. by exists s. }
  set (l' := if bool_decide (capacity_ s ≤ Z.of_nat (length l))%Z
             then tail l else l) in *.
  assert (k ∉ ekey <$> l') as Hk'.
  { unfold l'. case_bool_decide; [|done]. destruct l; [done|]. set_solver. }
  simpl. set (n := mkNode k v None None).
  pose proof (rep_alloc s1 l' n Hr1) as Hr2.
  destruct Hr1 as [Hl1 Hm1 Hk1].
  destruct (list_rep_alloc s1 l' n Hl1) as [Hl2 Hfresh].
  set (p := length (heap_ s1)) in *.
  destruct (insertNode_spec (with_heap (heap_ s1 ++ [n]) s1) l' (mkEntry p k v))
    as (s3 & Hs3 & Hf3 & Hl3 & _); [done|done| |].
  { split; unfold keyOf, valueOf; simpl;
      by rewrite lookup_app_r, Nat.sub_diag by done. }
  simpl in Hs3. rewrite Hs3. simpl.
  eexists. split; [done|]. destruct Hf3 as (Hc3 & Hm3 & Hhd3 & Htl3 & _).
  simpl in *. split; [congruence|].
  exists p. split; simpl.
  - destruct Hl3 as [???]. by split.
  - rewrite Hm3, Hm1. unfold try_emplace.
    rewrite not_elem_of_list_to_map_1 by (by rewrite eindex_fst).
    by rewrite <-index_inserted.
  - rewrite fmap_app. simpl. apply NoDup_app. split_and!; [done| |].
    + intros x Hx Hx'. apply list_elem_of_singleton in Hx'. by subst.
    + apply NoDup_singleton.
Qed.


Lemma put_zero s k v : capacity_ s = 0%Z → put k v s = Some s.
Proof. intros Hc. unfold put. by rewrite Hc. Qed.

Lemma put_hit s l1 e l2 v :
  rep s (l1 ++ e :: l2) → capacity_ s ≠ 0%Z →
  ∃ s', put (ekey e) v s = Some s' ∧ same_frame s s' ∧
    rep s' (l1 ++ l2 ++ [mkEntry (eptr e) (ekey e) v]).
Proof.
  intros Hr Hc. unfold put.
  destruct (Z.eqb_spec (capacity_ s) 0) as [|_]; [done|].
  rewrite (rep_lookup_elem _ _ e Hr) by set_solver.
  by apply updateExistingNode_spec.
Qed.

Lemma put_miss s l k v :
  rep s l → capacity_ s ≠ 0%Z → k ∉ ekey <$> l →
  ∃ s', put k v s = Some s' ∧ capacity_ s' = capacity_ s ∧
    ∃ p, rep s' ((if bool_decide (capacity_ s ≤ Z.of_nat (length l))%Z
                  then tail l else l) ++ [mkEntry p k v]).
Proof.
  intros Hr Hc Hk. unfold put.
  destruct (Z.eqb_spec (capacity_ s) 0) as [|_]; [done|].
  apply (rep_lookup_None _ _ _ Hr) in Hk as Hnone. rewrite Hnone.
  by apply addNewNode_fits.
Qed.

Lemma get_hit s l1 e l2 v0 :
  rep s (l1 ++ e :: l2) →
  ∃ s', get (ekey e) v0 s = Some (s', (true, evalue e)) ∧ same_frame s s' ∧
    rep s' (l1 ++ l2 ++ [e]).
Proof.
  intros Hr. unfold get.
  rewrite (rep_lookup_elem _ _ e Hr) by set_solver.
  destruct (moveToMostRecent_spec _ _ _ _ Hr) as (s1 & -> & Hf & Hr1). simpl.
  pose proof Hr1 as [[_ _ Hce] _ _].
  rewrite app_assoc in Hce. apply Forall_app in Hce as [_ Hce].
  apply Forall_singleton in Hce as [_ Hv]. unfold valueOf, deref in *.
  destruct (heap_ s1 !! eptr e) as [n|]; [|done]. simpl in *.
  injection Hv as ->. by exists s1.
Qed.

Lemma get_miss s l k v0 :
  rep s l → k ∉ ekey <$> l → get k v0 s = Some (s, (false, v0)).
Proof.
  intros Hr Hk. unfold get.
  apply (rep_lookup_None _ _ _ Hr) in Hk. by rewrite Hk.
Qed.

Lemma remove_hit s l1 e l2 :
  rep s (l1 ++ e :: l2) →
  ∃ s', remove (ekey e) s = Some s' ∧ capacity_ s' = capacity_ s ∧
    rep s' (l1 ++ l2).
Proof.
  intros Hr. unfold remove.
  rewrite (rep_lookup_elem _ _ e Hr) by set_solver.
  destruct Hr as [Hl Hm Hk].
  destruct (removeNode_spec _ _ _ _ Hl) as (s1 & -> & Hf & Hl1 & _). simpl.
  eexists. split; [done|]. destruct Hf as (Hc & Hmap & Hhd & Htl & _).
  split; [done|]. split; simpl.
  - destruct Hl1 as [???]. by split.
  - rewrite Hmap, Hm. by apply index_deleted.
  - by eapply keys_deleted.
Qed.

Lemma remove_miss s l k :
  rep s l → k ∉ ekey <$> l → remove k s = Some s.
Proof.
  intros Hr Hk. unfold remove.
  apply (rep_lookup_None _ _ _ Hr) in Hk. by rewrite Hk.
Qed.


(** ** Refinement of the list model *)

Lemma assoc_ekv_None l k : k ∉ ekey <$> l → assoc k (ekv <$> l) = None.
Proof.
  induction l as [|e l IH]; [done|]. rewrite fmap_cons.
  intros [Hne Hk]%not_elem_of_cons. simpl.
  rewrite decide_False by done. by apply IH.
Qed.

Lemma assoc_ekv_Some l1 e l2 :
  NoDup (ekey <$> l1 ++ e :: l2) →
  assoc (ekey e) (ekv <$> l1 ++ e :: l2) = Some (evalue e).
Proof.
  induction l1 as [|x l1 IH]; simpl.
  - intros _. by rewrite decide_True.
  - intros [Hx Hnd]%NoDup_cons. rewrite decide_False; [by apply IH|].
    intros Heq. apply Hx. rewrite <-Heq, fmap_app, fmap_cons. set_solver.
Qed.

Lemma drop_key_absent l k : k ∉ ekey <$> l → drop_key k (ekv <$> l) = ekv <$> l.
Proof.
  unfold drop_key. induction l as [|e l IH]; [done|]. rewrite !fmap_cons.
  intros [Hne Hk]%not_elem_of_cons.
  rewrite filter_cons_True by (simpl; congruence). by rewrite IH.
Qed.

Lemma drop_key_ekv l1 e l2 :
  NoDup (ekey <$> l1 ++ e :: l2) →
  drop_key (ekey e) (ekv <$> l1 ++ e :: l2) = ekv <$> l1 ++ l2.
Proof.
  rewrite !fmap_app, !fmap_cons. intros Hnd.
  apply NoDup_app in Hnd as (_ & Hd & Hnd). apply NoDup_cons in Hnd as [Hnd _].
  unfold drop_key. rewrite filter_app, filter_cons_False by (simpl; auto).
  fold (drop_key (ekey e) (ekv <$> l1)). fold (drop_key (ekey e) (ekv <$> l2)).
  rewrite !drop_key_absent; [done|done|].
  intros Hin. apply (Hd _ Hin). set_solver.
Qed.

Lemma key_split l k :
  k ∈ ekey <$> l → ∃ l1 e l2, l = l1 ++ e :: l2 ∧ ekey e = k.
Proof.
  intros (e & -> & He)%list_elem_of_fmap.
  apply list_elem_of_split in He as (l1 & l2 & ->). by exists l1, e, l2.
Qed.

Lemma put_refines s l k v :
  rep s l →
  ∃ s' l', put k v s = Some s' ∧ rep s' l' ∧ capacity_ s' = capacity_ s ∧
    ekv <$> l' = model_put (capacity_ s) k v (ekv <$> l).
Proof.
  intros Hr. unfold model_put.
  destruct (Z.eqb_spec (capacity_ s) 0) as [Hc|Hc].
  { exists s, l. by rewrite put_zero. }
  destruct (decide (k ∈ ekey <$> l)) as [Hin|Hnin].
  - apply key_split in Hin as (l1 & e & l2 & -> & <-).
    pose proof Hr as [_ _ Hk].
    destruct (put_hit _ _ _ _ v Hr Hc) as (s' & Hs' & Hf & Hr').
    exists s', (l1 ++ l2 ++ [mkEntry (eptr e) (ekey e) v]).
    split_and!; [done|done|apply Hf|].
    rewrite assoc_ekv_Some, drop_key_ekv by done.
    by rewrite app_assoc, fmap_app.
  - destruct (put_miss _ _ _ v Hr Hc Hnin) as (s' & Hs' & Hc' & p & Hr').
    eexists s', _. split_and!; [done|exact Hr'|done|].
    rewrite assoc_ekv_None by done. rewrite fmap_app, length_fmap. simpl.
    f_equal. case_bool_decide as Hle.
    + destruct (Z.leb_spec (capacity_ s) (Z.of_nat (length l))); [|lia].
      by destruct l.
    + destruct (Z.leb_spec (capacity_ s) (Z.of_nat (length l))); [lia|done].
Qed.

Lemma get_refines s l k v0 :
  rep s l →
  ∃ s' l', get k v0 s = Some (s', (model_get k v0 (ekv <$> l)).2) ∧
    rep s' l' ∧ capacity_ s' = capacity_ s ∧
    ekv <$> l' = (model_get k v0 (ekv <$> l)).1.
Proof.
  intros Hr. unfold model_get.
  destruct (decide (k ∈ ekey <$> l)) as [Hin|Hnin].
  - apply key_split in Hin as (l1 & e & l2 & -> & <-).
    pose proof Hr as [_ _ Hk].
    destruct (get_hit _ _ _ _ v0 Hr) as (s' & Hs' & Hf & Hr').
    exists s', (l1 ++ l2 ++ [e]).
    rewrite assoc_ekv_Some, drop_key_ekv by done. simpl.
    split_and!; [done|done|apply Hf|].
    by rewrite app_assoc, fmap_app.
  - exists s, l. rewrite assoc_ekv_None by done. simpl.
    by rewrite (get_miss _ _ _ _ Hr Hnin).
Qed.

Lemma remove_refines s l k :
  rep s l →
  ∃ s' l', remove k s = Some s' ∧ rep s' l' ∧ capacity_ s' = capacity_ s ∧
    ekv <$> l' = model_remove k (ekv <$> l).
Proof.
  intros Hr. unfold model_remove.
  destruct (decide (k ∈ ekey <$> l)) as [Hin|Hnin].
  - apply key_split in Hin as (l1 & e & l2 & -> & <-).
    pose proof Hr as [_ _ Hk].
    destruct (remove_hit _ _ _ _ Hr) as (s' & Hs' & Hc & Hr').
    exists s', (l1 ++ l2). by rewrite drop_key_ekv.
  - exists s, l. rewrite drop_key_absent by done.
    by rewrite (remove_miss _ _ _ Hr Hnin).
Qed.


Lemma lru_new_spec c :
  ∃ s, new Key0 Value0 c = Some s ∧ rep s [] ∧ capacity_ s = stored_capacity c.
Proof.
  eexists. split; [reflexivity|]. split; [|done].
  split; [|done|apply NoDup_nil_2]. split; simpl.
  - done.
  - apply NoDup_cons. split; [set_solver|]. apply NoDup_singleton.
  - done.
Qed.

Lemma step_refines s l op :
  rep s l →
  ∃ s' l', step Value0 op s
           = Some (s', (model_step Value0 (capacity_ s) op (ekv <$> l)).2) ∧
    rep s' l' ∧ capacity_ s' = capacity_ s ∧
    ekv <$> l' = (model_step Value0 (capacity_ s) op (ekv <$> l)).1.
Proof.
  intros Hr. destruct op as [k v|k v0|k|k]; simpl.
  - destruct (put_refines _ _ k v Hr) as (s' & l' & -> & ? & ? & ?).
    by exists s', l'.
  - destruct (get_refines _ _ k v0 Hr) as (s' & l' & -> & ? & ? & ?).
    exists s', l'. by destruct (model_get k v0 (ekv <$> l)) as [? [??]].
  - unfold get1.
    destruct (get_refines _ _ k Value0 Hr) as (s' & l' & -> & ? & ? & ?).
    exists s', l'. by destruct (model_get k Value0 (ekv <$> l)) as [? [??]].
  - destruct (remove_refines _ _ k Hr) as (s' & l' & -> & ? & ? & ?).
    by exists s', l'.
Qed.

Lemma run_refines ops : ∀ s l,
  rep s l →
  ∃ s' l', run Value0 ops s
           = Some (s', (model_run Value0 (capacity_ s) ops (ekv <$> l)).2) ∧
    rep s' l' ∧ capacity_ s' = capacity_ s ∧
    ekv <$> l' = (model_run Value0 (capacity_ s) ops (ekv <$> l)).1.
Proof.
  induction ops as [|op ops IH]; intros s l Hr; simpl.
  - by exists s, l.
  - destruct (step_refines _ _ op Hr) as (s1 & l1 & -> & Hr1 & Hc1 & Hl1).
    simpl. destruct (model_step Value0 (capacity_ s) op (ekv <$> l)) as [m1 r1].
    simpl in *. subst m1.
    destruct (IH _ _ Hr1) as (s2 & l2 & -> & Hr2 & Hc2 & Hl2). simpl.
    rewrite Hc1 in *.
    destruct (model_run Value0 (capacity_ s) ops (ekv <$> l1)) as [m2 rs].
    simpl in *. exists s2, l2. split_and!; [done|done|congruence|done].
Qed.

Lemma exec_refines c ops :
  ∃ s l, exec Key0 Value0 c ops
         = Some (s, (model_run Value0 (stored_capacity c) ops []).2) ∧
    rep s l ∧ capacity_ s = stored_capacity c ∧
    ekv <$> l = (model_run Value0 (stored_capacity c) ops []).1.
Proof.
  destruct (lru_new_spec c) as (s0 & Hs0 & Hr0 & Hc0).
  destruct (run_refines ops _ _ Hr0) as (s & l & Hs & Hr & Hc & Hl).
  exists s, l. unfold exec. rewrite Hs0. simpl. rewrite Hc0 in *.
  split_and!; [done|done|congruence|done].
Qed.

(** ** Reading the list off the heap *)

Lemma nodup_bounded (xs : list nat) (m : nat) :
  NoDup xs → (∀ x, x ∈ xs → x < m) → length xs ≤ m.
Proof.
  intros Hnd Hlt. trans (length (seq 0 m)); [|by rewrite length_seq].
  apply submseteq_length.
  apply NoDup_submseteq; [done|]. intros x Hx. apply elem_of_seq.
  specialize (Hlt x Hx). lia.
Qed.

Lemma walk_chain h z l : ∀ a fuel,
  chain h a (eptr <$> l) z → NoDup ((eptr <$> l) ++ [z]) →
  Forall (cell h) l → length l < fuel →
  walk fuel h (headp (eptr <$> l) z) z = ekv <$> l.
Proof.
  induction l as [|e l IH]; intros a fuel Hch Hnd Hce Hlen;
    (destruct fuel as [|fuel]; [simpl in Hlen; lia|]).
  - simpl. unfold headp. simpl. by rewrite decide_True.
  - rewrite fmap_cons in *. simpl in Hch. destruct Hch as (_ & _ & Hch).
    apply NoDup_cons in Hnd as [Hne Hnd].
    apply Forall_cons in Hce as [[Hk Hv] Hce].
    unfold headp at 1. simpl. rewrite decide_False by (intros Heq; set_solver).
    destruct (chain_head _ _ _ _ Hch) as [Hn _].
    unfold keyOf, valueOf, nextOf in *.
    destruct (h !! eptr e) as [n|]; [|done]. simpl in *.
    injection Hk as ->. injection Hv as ->. injection Hn as ->.
    unfold ekv at 1. f_equal. eapply IH; [done..|]. simpl in Hlen. lia.
Qed.

Lemma contents_rep s l : list_rep s l → contents s = ekv <$> l.
Proof.
  intros [Hch Hnd Hce]. unfold contents.
  destruct (chain_head _ _ _ _ Hch) as [Hn _]. unfold nextOf in Hn.
  destruct (heap_ s !! dummyHead_ s) as [hd|]; [|done]. simpl in Hn.
  injection Hn as ->.
  apply walk_chain with (a := dummyHead_ s); [done| |done|].
  - by apply NoDup_cons in Hnd as [_ ?].
  - assert (length (dummyHead_ s :: (eptr <$> l) ++ [dummyTail_ s])
            ≤ length (heap_ s)) as Hlen.
    { apply nodup_bounded; [done|]. intros x Hx.
      destruct (chain_alloc _ _ _ _ x Hch Hx) as [n Hx'].
      by apply lookup_lt_Some in Hx'. }
    simpl in Hlen. rewrite length_app, length_fmap in Hlen. simpl in Hlen. lia.
Qed.

Lemma leastRecentKey_rep s l :
  rep s l → leastRecentKey s = ekey <$> head l.
Proof.
  intros [[Hch Hnd Hce] _ _]. unfold leastRecentKey.
  destruct (chain_head _ _ _ _ Hch) as [Hn _]. unfold nextOf in Hn.
  destruct (heap_ s !! dummyHead_ s) as [hd|]; [|done]. simpl in *.
  injection Hn as ->. simpl. destruct l as [|e l]; unfold headp; simpl.
  - by rewrite decide_True.
  - rewrite decide_False.
    + apply Forall_cons in Hce as [[Hk _] _]. done.
    + intros Heq. apply NoDup_cons in Hnd as [_ Hnd]. simpl in Hnd.
      apply NoDup_cons in Hnd as [Hnd _]. apply Hnd. rewrite Heq. set_solver.
Qed.

(** ** Facts about the list model *)

Implicit Types (m : list (Key * Value)) (k : Key) (v : Value).

Lemma drop_key_length m k : length (drop_key k m) ≤ length m.
Proof. apply length_filter. Qed.

Lemma assoc_None m k : assoc k m = None ↔ k ∉ m.*1.
Proof.
  induction m as [|[k' v'] m IH]; simpl.
  - split; [set_solver|done].
  - case_decide; [set_solver|]. rewrite IH. set_solver.
Qed.

Lemma assoc_drop_key m k : assoc k (drop_key k m) = None.
Proof.
  apply assoc_None. unfold drop_key. intros ([k' v'] & -> & Hin)%list_elem_of_fmap.
  apply list_elem_of_filter in Hin as [Hne _]. done.
Qed.

Lemma assoc_drop_key_ne m k k' : k ≠ k' → assoc k (drop_key k' m) = assoc k m.
Proof.
  intros Hne. unfold drop_key. induction m as [|[k1 v1] m IH]; [done|].
  destruct (decide (k1 = k')) as [->|Hk1].
  - rewrite filter_cons_False by (simpl; auto). simpl.
    by rewrite decide_False.
  - rewrite filter_cons_True by done. simpl. by rewrite IH.
Qed.

Lemma assoc_app m1 m2 k :
  assoc k (m1 ++ m2) = match assoc k m1 with Some v => Some v | None => assoc k m2 end.
Proof.
  induction m1 as [|[k' v'] m1 IH]; simpl; [done|]. by case_decide.
Qed.

Lemma drop_key_shorter m k v :
  assoc k m = Some v → length (drop_key k m) < length m.
Proof.
  unfold drop_key. induction m as [|[k' v'] m IH]; simpl; [done|].
  case_decide as Hk.
  - subst. intros _. rewrite filter_cons_False by (simpl; auto).
    pose proof (length_filter (λ e : Key * Value, e.1 ≠ k') m). lia.
  - intros Hm. rewrite filter_cons_True by (simpl; auto). simpl.
    specialize (IH Hm). lia.
Qed.

Lemma assoc_tail m k : assoc k m = None → assoc k (tail m) = None.
Proof.
  destruct m as [|[k' v'] m]; simpl; [done|]. by case_decide.
Qed.

(** A key just written is resident with the value written. *)
Lemma assoc_model_put cap m k v :
  cap ≠ 0%Z → assoc k (model_put cap k v m) = Some v.
Proof.
  intros Hc. unfold model_put. destruct (Z.eqb_spec cap 0) as [|_]; [done|].
  destruct (assoc k m) eqn:Hm; rewrite assoc_app.
  - rewrite assoc_drop_key. simpl. by rewrite decide_True.
  - assert (assoc k (if (cap <=? Z.of_nat (length m))%Z then tail m else m)
            = None) as ->.
    { case_match; [by apply assoc_tail|done]. }
    simpl. by rewrite decide_True.
Qed.

(** The model never holds more than [cap] entries. *)
Lemma model_put_length cap m k v :
  (0 ≤ cap)%Z → (Z.of_nat (length m) ≤ cap)%Z →
  (Z.of_nat (length (model_put cap k v m)) ≤ cap)%Z.
Proof.
  intros Hc Hm. unfold model_put. destruct (Z.eqb_spec cap 0) as [|Hne]; [done|].
  destruct (assoc k m) eqn:Hk.
  - apply drop_key_shorter in Hk. rewrite length_app. simpl. lia.
  - destruct (Z.leb_spec cap (Z.of_nat (length m))); rewrite length_app; simpl.
    + destruct m; simpl in *; lia.
    + lia.
Qed.

Lemma model_get_length m k v0 :
  length (model_get k v0 m).1 ≤ length m.
Proof.
  unfold model_get. destruct (assoc k m) eqn:Hk; simpl; [|done].
  apply drop_key_shorter in Hk. rewrite length_app. simpl. lia.
Qed.

Lemma model_step_length cap op m :
  (0 ≤ cap)%Z → (Z.of_nat (length m) ≤ cap)%Z →
  (Z.of_nat (length (model_step Value0 cap op m).1) ≤ cap)%Z.
Proof.
  intros Hc Hm. destruct op as [k v|k v0|k|k]; simpl.
  - by apply model_put_length.
  - pose proof (model_get_length m k v0).
    destruct (model_get k v0 m) as [? [??]]. simpl in *. lia.
  - pose proof (model_get_length m k Value0).
    destruct (model_get k Value0 m) as [? [??]]. simpl in *. lia.
  - pose proof (drop_key_length m k). unfold model_remove. lia.
Qed.

Lemma model_run_length cap ops : ∀ m,
  (0 ≤ cap)%Z → (Z.of_nat (length m) ≤ cap)%Z →
  (Z.of_nat (length (model_run Value0 cap ops m).1) ≤ cap)%Z.
Proof.
  induction ops as [|op ops IH]; intros m Hc Hm; simpl; [done|].
  pose proof (model_step_length cap op m Hc Hm) as Hs.
  destruct (model_step Value0 cap op m) as [m1 r]. simpl in Hs.
  specialize (IH m1 Hc Hs).
  by destruct (model_run Value0 cap ops m1) as [m2 rs].
Qed.

Lemma stored_capacity_nonneg c : (0 ≤ stored_capacity c)%Z.
Proof.
  unfold stored_capacity, to_size_t. case_match; [|done].
  apply Z.mod_pos_bound. done.
Qed.

Lemma stored_capacity_int c :
  (0 ≤ c ≤ INT_MAX)%Z → stored_capacity c = c.
Proof.
  unfold stored_capacity, to_size_t, INT_MAX. intros Hc.
  destruct (Z.ltb_spec 0 c); [|lia]. apply Z.mod_small. lia.
Qed.

(** Every run of a constructed cache is defined, and its reached state
    satisfies the invariant. *)
Lemma exec_rep c ops s rs :
  exec Key0 Value0 c ops = Some (s, rs) →
  ∃ l, rep s l ∧ capacity_ s = stored_capacity c ∧
    (Z.of_nat (length l) ≤ stored_capacity c)%Z.
Proof.
  intros He. destruct (exec_refines c ops) as (s' & l & He' & Hr & Hc & Hl).
  rewrite He in He'. injection He' as <- _. exists l. split_and!; [done..|].
  rewrite <-(length_fmap ekv), Hl. apply model_run_length.
  - apply stored_capacity_nonneg.
  - simpl. apply stored_capacity_nonneg.
Qed.


Lemma rep_lookup_iff s l k p :
  rep s l →
  nodeMap_ s !! k = Some p ↔ ∃ e, e ∈ l ∧ ekey e = k ∧ eptr e = p.
Proof.
  intros [_ -> Hk]. rewrite <-elem_of_list_to_map by (by rewrite eindex_fst).
  apply eindex_elem.
Qed.

Lemma ekv_fst l : (ekv <$> l).*1 = ekey <$> l.
Proof. by rewrite <-list_fmap_compose. Qed.

Lemma rep_resident s l k :
  rep s l → nodeMap_ s !! k = None ↔ assoc k (ekv <$> l) = None.
Proof.
  intros Hr. by rewrite (rep_lookup_None _ _ _ Hr), assoc_None, ekv_fst.
Qed.

Lemma rep_before_tail s l e : rep s (l ++ [e]) → beforeTail s (eptr e).
Proof.
  intros [[Hch _ _] _ _]. rewrite fmap_app in Hch. simpl in Hch.
  apply chain_app in Hch as [_ Hch]. simpl in Hch. destruct Hch. by split.
Qed.

(** A miss on a full cache evicts the head entry and links the new one
    last. *)
Lemma put_evicts s l k v :
  rep s l → (1 ≤ capacity_ s)%Z → k ∉ ekey <$> l →
  (capacity_ s ≤ Z.of_nat (length l))%Z →
  ∃ e l' s' p, l = e :: l' ∧ put k v s = Some s' ∧
    capacity_ s' = capacity_ s ∧ rep s' (l' ++ [mkEntry p k v]).
Proof.
  intros Hr Hc Hk Hfull.
  destruct (put_miss _ _ k v Hr) as (s' & Hs' & Hc' & p & Hr'); [lia|done|].
  rewrite bool_decide_eq_true_2 in Hr' by done.
  destruct l as [|e l']; [simpl in Hfull; lia|].
  by exists e, l', s', p.
Qed.


(** ** The claims about [LruCache] *)

(** C1. Capacity bound: whatever operations a cache built with capacity
    [c] goes through, they all return, and the index never holds more than
    [c] keys; a [put] of a new key into a full index erases the least
    recent key before it inserts the new one, so the size stays at [c]. *)
Theorem lru_capacity_bound (c : Z) (ops : list (Op Key Value)) :
  (0 ≤ c ≤ INT_MAX)%Z →
  ∃ s rs, exec Key0 Value0 c ops = Some (s, rs) ∧
    capacity_ s = c ∧
    (Z.of_nat (size (nodeMap_ s)) ≤ c)%Z ∧
    ∀ k v, nodeMap_ s !! k = None → Z.of_nat (size (nodeMap_ s)) = c →
      (1 ≤ c)%Z →
      ∃ s' e, put k v s = Some s' ∧
        leastRecentKey s = Some e ∧ nodeMap_ s' !! e = None ∧
        is_Some (nodeMap_ s' !! k) ∧
        size (nodeMap_ s') = size (nodeMap_ s).
Proof.
  intros Hc. destruct (exec_refines c ops) as (s & l & He & Hr & Hcap & Hl).
  exists s, (model_run Value0 (stored_capacity c) ops []).2.
  destruct (exec_rep _ _ _ _ He) as (l0 & Hr0 & _ & Hlen).
  rewrite stored_capacity_int in * by done.
  rewrite (rep_size _ _ Hr0). split_and!; [done..|].
  intros k v Hk Hfull Hc1.
  apply (rep_lookup_None _ _ _ Hr0) in Hk.
  destruct (put_evicts s l0 k v Hr0) as (e & l' & s' & p & -> & Hs' & _ & Hr');
    [lia|done|lia|].
  exists s', (ekey e). split_and!; [done| | | |].
  - by rewrite (leastRecentKey_rep _ _ Hr0).
  - apply (rep_lookup_None _ _ _ Hr'). destruct Hr0 as [_ _ Hnd].
    rewrite fmap_cons in Hnd, Hk. apply NoDup_cons in Hnd as [Hnd _].
    rewrite fmap_app. simpl. set_solver.
  - pose proof (rep_lookup_elem _ _ (mkEntry p k v) Hr') as Hin.
    simpl in Hin. rewrite Hin by set_solver. eauto.
  - rewrite (rep_size _ _ Hr'), length_app. simpl. lia.
Qed.

Lemma run_zero_capacity s ops :
  capacity_ s = 0%Z → nodeMap_ s = ∅ →
  run Value0 ops s = Some (s, miss_ret Value0 <$> ops).
Proof.
  intros Hc Hm. induction ops as [|op ops IH]; [done|].
  rewrite fmap_cons. cbn [run].
  assert (step Value0 op s = Some (s, miss_ret Value0 op)) as ->.
  { destruct op; simpl; unfold put, get1, get, remove;
      rewrite ?Hc, ?Hm, ?lookup_empty; done. }
  simpl. by rewrite IH.
Qed.

(** C2. A cache built with a capacity that is not positive is built all
    the same, stays exactly as built under every sequence of operations,
    and answers each of them as a miss. *)
Theorem lru_nonpositive_capacity (c : Z) (ops : list (Op Key Value)) :
  (c ≤ 0)%Z →
  ∃ s0, new Key0 Value0 c = Some s0 ∧
    capacity_ s0 = 0%Z ∧ nodeMap_ s0 = ∅ ∧ contents s0 = [] ∧
    (∀ k v, put k v s0 = Some s0) ∧
    (∀ k v, get k v s0 = Some (s0, (false, v))) ∧
    exec Key0 Value0 c ops = Some (s0, miss_ret Value0 <$> ops).
Proof.
  intros Hc. unfold exec, new, stored_capacity.
  destruct (Z.ltb_spec 0 c) as [|_]; [lia|].
  eexists. split; [reflexivity|]. simpl.
  split_and!; [done..|]. by apply run_zero_capacity.
Qed.

(** C5. The one-argument [get] of a key that is not in the index returns
    the value-initialised [Value]. *)
Theorem lru_get1_absent (s : LruCache Key Value) (k : Key) :
  nodeMap_ s !! k = None → get1 Value0 k s = Some (s, Value0).
Proof. intros Hk. unfold get1, get. by rewrite Hk. Qed.

(** C6. [get] of a key that is not in the index reports not-found, leaves
    the reference argument alone and returns the cache state it was given:
    same index, same heap, same list. *)
Theorem lru_get_absent_unchanged (s : LruCache Key Value) (k : Key) (v : Value) :
  nodeMap_ s !! k = None → get k v s = Some (s, (false, v)).
Proof. intros Hk. unfold get. by rewrite Hk. Qed.

(** C9. On a reachable cache with capacity at least 1: a [put] of a new
    key into a full index erases exactly the key of the node next to the
    head sentinel, which is the oldest entry of the recency list, and links
    the new entry last; a [get] hit and a [put] on a resident key relink the
    node of that key immediately before the tail sentinel, behind every
    other entry. *)
Theorem lru_evicts_least_recent (c : Z) (ops : list (Op Key Value))
    (s : LruCache Key Value) (rs : list (Ret Value)) :
  (1 ≤ c ≤ INT_MAX)%Z →
  exec Key0 Value0 c ops = Some (s, rs) →
  contents s = (model_run Value0 c ops []).1 ∧
  (∀ k v, nodeMap_ s !! k = None →
     (capacity_ s ≤ Z.of_nat (size (nodeMap_ s)))%Z →
     ∃ s' e ve rest, put k v s = Some s' ∧
       leastRecentKey s = Some e ∧ contents s = (e, ve) :: rest ∧
       contents s' = rest ++ [(k, v)] ∧
       nodeMap_ s' !! e = None ∧
       (∀ k', k' ≠ e → k' ≠ k → nodeMap_ s' !! k' = nodeMap_ s !! k')) ∧
  (∀ k node v0, nodeMap_ s !! k = Some node →
     ∃ s' v, get k v0 s = Some (s', (true, v)) ∧
       nodeMap_ s' = nodeMap_ s ∧ beforeTail s' node ∧
       contents s' = drop_key k (contents s) ++ [(k, v)]) ∧
  (∀ k node v, nodeMap_ s !! k = Some node →
     ∃ s', put k v s = Some s' ∧
       nodeMap_ s' = nodeMap_ s ∧ beforeTail s' node ∧
       contents s' = drop_key k (contents s) ++ [(k, v)]).
Proof.
  intros Hc He. destruct (exec_rep _ _ _ _ He) as (l & Hr & Hcap & Hlen).
  rewrite stored_capacity_int in * by (unfold INT_MAX in *; lia).
  split_and!.
  - destruct (exec_refines c ops) as (s' & l' & He' & Hr' & _ & Hl').
    rewrite He in He'. injection He' as <- _.
    rewrite stored_capacity_int in Hl' by (unfold INT_MAX in *; lia).
    by rewrite (contents_rep _ _ (rep_list _ _ Hr')).
  - intros k v Hk Hfull. rewrite (rep_size _ _ Hr) in Hfull.
    apply (rep_lookup_None _ _ _ Hr) in Hk.
    destruct (put_evicts s l k v Hr) as (e & l' & s' & p & -> & Hs' & _ & Hr');
      [lia|done|lia|].
    exists s', (ekey e), (evalue e), (ekv <$> l'). split_and!; [done| | | | |].
    + by rewrite (leastRecentKey_rep _ _ Hr).
    + by rewrite (contents_rep _ _ (rep_list _ _ Hr)).
    + by rewrite (contents_rep _ _ (rep_list _ _ Hr')), fmap_app.
    + apply (rep_lookup_None _ _ _ Hr'). destruct Hr as [_ _ Hnd].
      rewrite fmap_cons in Hnd, Hk. apply NoDup_cons in Hnd as [Hnd _].
      rewrite fmap_app. simpl. set_solver.
    + intros k' Hk'e Hk'k. apply option_eq. intros q.
      rewrite (rep_lookup_iff _ _ _ _ Hr), (rep_lookup_iff _ _ _ _ Hr').
      split; intros (x & Hx & Hxk & Hxp); exists x; (split; [|done]).
      * apply elem_of_cons. right. apply elem_of_app in Hx as [Hx|Hx]; [done|].
        apply list_elem_of_singleton in Hx. subst x. simpl in *. congruence.
      * apply elem_of_cons in Hx as [->|Hx]; [congruence|]. set_solver.
  - intros k node v0 Hk.
    destruct (rep_lookup_Some _ _ _ _ Hr Hk) as (l1 & e & l2 & -> & <- & <-).
    destruct (get_hit _ _ _ _ v0 Hr) as (s' & Hs' & Hf & Hr').
    exists s', (evalue e). split_and!; [done|apply Hf| |].
    + rewrite app_assoc in Hr'. by apply rep_before_tail in Hr'.
    + rewrite (contents_rep _ _ (rep_list _ _ Hr)),
        (contents_rep _ _ (rep_list _ _ Hr')).
      rewrite drop_key_ekv by apply Hr. by rewrite app_assoc, fmap_app.
  - intros k node v Hk.
    destruct (rep_lookup_Some _ _ _ _ Hr Hk) as (l1 & e & l2 & -> & <- & <-).
    destruct (put_hit _ _ _ _ v Hr) as (s' & Hs' & Hf & Hr'); [lia|].
    exists s'. split_and!; [done|apply Hf| |].
    + rewrite app_assoc in Hr'. by apply rep_before_tail in Hr'.
    + rewrite (contents_rep _ _ (rep_list _ _ Hr)),
        (contents_rep _ _ (rep_list _ _ Hr')).
      rewrite drop_key_ekv by apply Hr. by rewrite app_assoc, fmap_app.
Qed.


(** ** What a client of a well-formed cache observes *)

Lemma drop_key_elem m k e : e ∈ drop_key k m → e ∈ m.
Proof. unfold drop_key. by intros [_ ?]%list_elem_of_filter. Qed.

Lemma tail_elem m e : e ∈ tail m → e ∈ m.
Proof. destruct m; set_solver. Qed.

Lemma get_wf s k v0 :
  wf s →
  ∃ s' b v, get k v0 s = Some (s', (b, v)) ∧ wf s' ∧
    nodeMap_ s' = nodeMap_ s ∧ capacity_ s' = capacity_ s ∧
    (b = true ↔ is_Some (nodeMap_ s !! k)) ∧
    (if b then (k, v) ∈ contents s else v = v0) ∧
    (∀ e, e ∈ contents s' → e ∈ contents s).
Proof.
  intros [l Hr]. destruct (nodeMap_ s !! k) as [p|] eqn:Hk.
  - destruct (rep_lookup_Some _ _ _ _ Hr Hk) as (l1 & e & l2 & -> & <- & <-).
    destruct (get_hit _ _ _ _ v0 Hr) as (s' & Hs' & Hf & Hr').
    exists s', true, (evalue e). split_and!; [done|by eexists|apply Hf..| | |].
    + split; [eauto|done].
    + rewrite (contents_rep _ _ (rep_list _ _ Hr)). rewrite fmap_app, fmap_cons.
      set_solver.
    + intros x. rewrite (contents_rep _ _ (rep_list _ _ Hr)),
        (contents_rep _ _ (rep_list _ _ Hr')).
      rewrite !fmap_app, fmap_cons. set_solver.
  - exists s, false, v0. unfold get. rewrite Hk.
    split_and!; [done|by exists l|done..| |done|done].
    split; [done|]. by intros [??].
Qed.

Lemma get1_wf s k :
  wf s →
  ∃ s' v, get1 Value0 k s = Some (s', v) ∧ wf s' ∧
    nodeMap_ s' = nodeMap_ s ∧ capacity_ s' = capacity_ s ∧
    ((k, v) ∈ contents s ∨ v = Value0) ∧
    (∀ e, e ∈ contents s' → e ∈ contents s).
Proof.
  intros Hwf. destruct (get_wf s k Value0 Hwf)
    as (s' & b & v & Hg & ? & ? & ? & ? & Hv & ?).
  exists s', v. unfold get1. rewrite Hg. simpl. split_and!; try done.
  destruct b; eauto.
Qed.

Lemma put_wf s k v :
  wf s →
  ∃ s', put k v s = Some s' ∧ wf s' ∧ capacity_ s' = capacity_ s ∧
    (∀ x, x ≠ k → is_Some (nodeMap_ s' !! x) → is_Some (nodeMap_ s !! x)) ∧
    (∀ e, e ∈ contents s' → e = (k, v) ∨ e ∈ contents s).
Proof.
  intros [l Hr].
  destruct (put_refines _ _ k v Hr) as (s' & l' & Hs' & Hr' & Hc & Hl).
  exists s'. split_and!; [done|by exists l'|done| |].
  - intros x Hx Hin. rewrite <-not_eq_None_Some in *.
    rewrite (rep_resident _ _ _ Hr). rewrite (rep_resident _ _ _ Hr') in Hin.
    intros Hnone. apply Hin. rewrite Hl. unfold model_put.
    destruct (capacity_ s =? 0)%Z; [done|].
    destruct (assoc k (ekv <$> l)); rewrite assoc_app.
    + rewrite assoc_drop_key_ne, Hnone by done. simpl. by rewrite decide_False.
    + assert (assoc x (if (capacity_ s <=? Z.of_nat (length (ekv <$> l)))%Z
                       then tail (ekv <$> l) else ekv <$> l) = None) as ->.
      { case_match; [by apply assoc_tail|done]. }
      simpl. by rewrite decide_False.
  - intros e. rewrite (contents_rep _ _ (rep_list _ _ Hr)),
      (contents_rep _ _ (rep_list _ _ Hr')), Hl. unfold model_put.
    destruct (capacity_ s =? 0)%Z; [by right|].
    destruct (assoc k (ekv <$> l)).
    + intros [He|He]%elem_of_app; [right; by eapply drop_key_elem|].
      left. by apply list_elem_of_singleton in He.
    + intros [He|He]%elem_of_app.
      * right. case_match; [by apply tail_elem|done].
      * left. by apply list_elem_of_singleton in He.
Qed.

Lemma remove_wf s k :
  wf s →
  ∃ s', remove k s = Some s' ∧ wf s' ∧ capacity_ s' = capacity_ s ∧
    (∀ x, is_Some (nodeMap_ s' !! x) → is_Some (nodeMap_ s !! x)) ∧
    (∀ e, e ∈ contents s' → e ∈ contents s).
Proof.
  intros [l Hr].
  destruct (remove_refines _ _ k Hr) as (s' & l' & Hs' & Hr' & Hc & Hl).
  exists s'. split_and!; [done|by exists l'|done| |].
  - intros x Hin. rewrite <-not_eq_None_Some in *.
    rewrite (rep_resident _ _ _ Hr). rewrite (rep_resident _ _ _ Hr') in Hin.
    intros Hnone. apply Hin. rewrite Hl. unfold model_remove.
    apply assoc_None. apply assoc_None in Hnone.
    intros ([k' v'] & -> & Hx)%list_elem_of_fmap. apply Hnone.
    apply drop_key_elem in Hx. apply list_elem_of_fmap. by exists (k', v').
  - intros e. rewrite (contents_rep _ _ (rep_list _ _ Hr)),
      (contents_rep _ _ (rep_list _ _ Hr')), Hl. apply drop_key_elem.
Qed.

End LruFacts.

(** ** [LruKCache] *)

Section LruKFacts.
Import LruK.
Context {Key Value : Type} `{Countable Key}.
Context (Key0 : Key) (Value0 : Value).
Implicit Types (s : LruKCache Key Value) (x y : Key) (v : Value)
  (h : Lru.LruCache Key Z) (b : Lru.LruCache Key Value)
  (op : Op Key Value) (ops : list (Op Key Value)).

Lemma to_size_t_le (z : Z) : (0 ≤ z → 0 ≤ to_size_t z ≤ z)%Z.
Proof.
  intros Hz. unfold to_size_t. split.
  - apply Z.mod_pos_bound. done.
  - apply Z.mod_le; [done|done].
Qed.

Lemma to_size_t_int (k : Z) : (k ≤ INT_MAX → k ≤ to_size_t k)%Z.
Proof.
  unfold to_size_t, INT_MAX. intros Hk. destruct (decide (0 ≤ k)%Z).
  - rewrite Z.mod_small; lia.
  - pose proof (Z.mod_pos_bound k (2 ^ 64)). lia.
Qed.

(** The history bump shared by [get] and [put]: read the count, add one,
    write it back. *)
Lemma bump_spec h x :
  Lru.wf h →
  ∃ h1 c h2, Lru.get1 0%Z x h = Some (h1, c) ∧
    Lru.put x (to_size_t (c + 1)) h1 = Some h2 ∧ Lru.wf h2 ∧
    ((x, c) ∈ Lru.contents h ∨ c = 0%Z) ∧
    (∀ e, e ∈ Lru.contents h2 →
       e = (x, to_size_t (c + 1)) ∨ e ∈ Lru.contents h).
Proof.
  intros Hwf.
  destruct (get1_wf 0%Z h x Hwf) as (h1 & c & Hg & Hwf1 & _ & _ & Hc & Hsub1).
  destruct (put_wf h1 x (to_size_t (c + 1)) Hwf1)
    as (h2 & Hp & Hwf2 & _ & _ & Hsub2).
  exists h1, c, h2. split_and!; [done..|].
  intros e He. destruct (Hsub2 e He) as [->|He']; [by left|right; auto].
Qed.

Lemma historyCount_bump h1 c s x :
  Lru.get1 0%Z x (historyList_ s) = Some (h1, c) →
  historyCount x s = to_size_t (c + 1).
Proof. intros Hg. unfold historyCount. by rewrite Hg. Qed.

Lemma resident_true x s :
  resident x s = true ↔ is_Some (Lru.nodeMap_ (base s) !! x).
Proof. unfold resident. apply bool_decide_eq_true. Qed.

(** What one [put] does to residency, to the history and to the value
    map. *)
Lemma lruk_put_spec s x v :
  wf s →
  ∃ s', put Value0 x v s = Some s' ∧ wf s' ∧ k_ s' = k_ s ∧
    (∀ y, resident y s' = true →
       resident y s = true ∨
       (y = x ∧ reached (historyCount x s) (k_ s) = true)) ∧
    (resident x s = false → reached (historyCount x s) (k_ s) = false →
       Lru.nodeMap_ (base s') = Lru.nodeMap_ (base s) ∧
       historyValueMap_ s' !! x = Some v) ∧
    (∀ e, e ∈ Lru.contents (historyList_ s') →
       e ∈ Lru.contents (historyList_ s) ∨
       ∃ c, e = (x, to_size_t (c + 1)) ∧
            ((x, c) ∈ Lru.contents (historyList_ s) ∨ c = 0%Z)).
Proof.
  intros [Hb Hh]. unfold put.
  destruct (get_wf (base s) x Value0 Hb)
    as (b1 & inMain & ev & -> & Hb1 & Hm1 & _ & Hin & _ & _).
  simpl. destruct inMain.
  - destruct (put_wf b1 x v Hb1) as (b2 & -> & Hb2 & _ & Hres & _). simpl.
    eexists. split; [done|]. split_and!; simpl; try done.
    + intros y Hy. left. apply resident_true. apply resident_true in Hy.
      simpl in Hy. destruct (decide (y = x)) as [->|Hne].
      * by apply Hin.
      * rewrite <-Hm1. by apply Hres.
    + intros Hx. apply not_true_iff_false in Hx. exfalso. apply Hx.
      apply resident_true. by apply Hin.
    + by left.
  - destruct (bump_spec _ x Hh) as (h1 & c & h2 & Hg & Hp & Hh2 & Hc & Hsub).
    rewrite Hg. simpl. rewrite Hp. simpl.
    rewrite (historyCount_bump _ _ _ _ Hg).
    assert (∀ e, e ∈ Lru.contents h2 →
       e ∈ Lru.contents (historyList_ s) ∨
       ∃ c, e = (x, to_size_t (c + 1)) ∧
            ((x, c) ∈ Lru.contents (historyList_ s) ∨ c = 0%Z)) as Hhist.
    { intros e He. destruct (Hsub e He) as [->|?]; [right; eauto|by left]. }
    destruct (reached (to_size_t (c + 1)) (k_ s)) eqn:Hreach.
    + destruct (remove_wf h2 x Hh2) as (h3 & -> & Hh3 & _ & _ & Hsub3). simpl.
      destruct (put_wf b1 x v Hb1) as (b2 & -> & Hb2 & _ & Hres & _). simpl.
      eexists. split; [done|]. split_and!; simpl; try done.
      * intros y Hy. apply resident_true in Hy. simpl in Hy.
        destruct (decide (y = x)) as [->|Hne]; [by right|].
        left. apply resident_true. rewrite <-Hm1. by apply Hres.
      * intros e He. apply Hhist. by apply Hsub3.
    + eexists. split; [done|]. split_and!; simpl; try done.
      * intros y Hy. left. apply resident_true. apply resident_true in Hy.
        simpl in Hy. by rewrite <-Hm1.
      * intros _ _. split; [done|]. by rewrite lookup_insert_eq.
Qed.

(** What one one-argument [get] does to residency and to the history. *)
Lemma lruk_get_spec s x :
  wf s →
  ∃ s' v, get Value0 x s = Some (s', v) ∧ wf s' ∧ k_ s' = k_ s ∧
    (∀ y, resident y s' = true →
       resident y s = true ∨
       (y = x ∧ reached (historyCount x s) (k_ s) = true)) ∧
    (resident x s = false → reached (historyCount x s) (k_ s) = false →
       Lru.nodeMap_ (base s') = Lru.nodeMap_ (base s)) ∧
    (∀ e, e ∈ Lru.contents (historyList_ s') →
       e ∈ Lru.contents (historyList_ s) ∨
       ∃ c, e = (x, to_size_t (c + 1)) ∧
            ((x, c) ∈ Lru.contents (historyList_ s) ∨ c = 0%Z)).
Proof.
  intros [Hb Hh]. unfold get.
  destruct (get_wf (base s) x Value0 Hb)
    as (b1 & inMain & ev & -> & Hb1 & Hm1 & _ & Hin & _ & _).
  simpl.
  destruct (bump_spec _ x Hh) as (h1 & c & h2 & Hg & Hp & Hh2 & Hc & Hsub).
  rewrite Hg. simpl. rewrite Hp. simpl.
  rewrite (historyCount_bump _ _ _ _ Hg).
  assert (∀ e, e ∈ Lru.contents h2 →
     e ∈ Lru.contents (historyList_ s) ∨
     ∃ c, e = (x, to_size_t (c + 1)) ∧
          ((x, c) ∈ Lru.contents (historyList_ s) ∨ c = 0%Z)) as Hhist.
  { intros e He. destruct (Hsub e He) as [->|?]; [right; eauto|by left]. }
  assert (∀ y, is_Some (Lru.nodeMap_ b1 !! y) → resident y s = true) as Hold.
  { intros y Hy. apply resident_true. by rewrite <-Hm1. }
  destruct inMain.
  { eexists _, _. split; [done|]. split_and!; simpl; try done.
    intros y Hy. left. apply Hold. by apply resident_true in Hy. }
  destruct (reached (to_size_t (c + 1)) (k_ s)) eqn:Hreach.
  - destruct (historyValueMap_ s !! x) as [stored|] eqn:Hst.
    + destruct (remove_wf h2 x Hh2) as (h3 & -> & Hh3 & _ & _ & Hsub3). simpl.
      destruct (put_wf b1 x stored Hb1) as (b2 & -> & Hb2 & _ & Hres & _).
      simpl. eexists _, _. split; [done|]. split_and!; simpl; try done.
      * intros y Hy. apply resident_true in Hy. simpl in Hy.
        destruct (decide (y = x)) as [->|Hne]; [by right|].
        left. apply Hold. by apply Hres.
      * intros e He. apply Hhist. by apply Hsub3.
    + eexists _, _. split; [done|]. split_and!; simpl; try done.
      intros y Hy. left. apply Hold. by apply resident_true in Hy.
  - eexists _, _. split; [done|]. split_and!; simpl; try done.
    intros y Hy. left. apply Hold. by apply resident_true in Hy.
Qed.

Lemma lruk_get2_spec s x v :
  wf s →
  ∃ s' r, get2 x v s = Some (s', r) ∧ wf s' ∧ k_ s' = k_ s ∧
    historyList_ s' = historyList_ s ∧
    Lru.nodeMap_ (base s') = Lru.nodeMap_ (base s).
Proof.
  intros [Hb Hh]. unfold get2.
  destruct (get_wf (base s) x v Hb)
    as (b1 & inMain & ev & -> & Hb1 & Hm1 & _ & Hin & _ & _).
  simpl. eexists _, _. split; [done|]. by split_and!.
Qed.

Lemma lruk_remove_spec s x :
  wf s →
  ∃ s', remove x s = Some s' ∧ wf s' ∧ k_ s' = k_ s ∧
    historyList_ s' = historyList_ s ∧
    (∀ y, resident y s' = true → resident y s = true).
Proof.
  intros [Hb Hh]. unfold remove.
  destruct (remove_wf (base s) x Hb) as (b1 & -> & Hb1 & _ & Hres & _).
  simpl. eexists. split; [done|]. split_and!; try done.
  intros y Hy. apply resident_true. apply resident_true in Hy. by apply Hres.
Qed.


Lemma lruk_step_spec s op x :
  wf s → resident x s = false →
  ∃ s', step Value0 op s = Some s' ∧ wf s' ∧ k_ s' = k_ s ∧
    (resident x s' = true →
       access_key op = Some x ∧ reached (historyCount x s) (k_ s) = true).
Proof.
  intros Hwf Hx. apply not_true_iff_false in Hx.
  destruct op as [y v|y|y v|y]; simpl.
  - destruct (lruk_put_spec s y v Hwf) as (s' & -> & Hwf' & Hk & Hres & _).
    exists s'. split_and!; [done..|]. intros Hx'.
    destruct (Hres x Hx') as [?|[-> ?]]; done.
  - destruct (lruk_get_spec s y Hwf) as (s' & v & -> & Hwf' & Hk & Hres & _).
    exists s'. split_and!; [done..|]. intros Hx'.
    destruct (Hres x Hx') as [?|[-> ?]]; done.
  - destruct (lruk_get2_spec s y v Hwf) as (s' & r & -> & Hwf' & Hk & _ & Hm).
    exists s'. split_and!; [done..|]. intros Hx'. exfalso. apply Hx.
    apply resident_true. apply resident_true in Hx'. by rewrite <-Hm.
  - destruct (lruk_remove_spec s y Hwf) as (s' & -> & Hwf' & Hk & _ & Hres).
    exists s'. split_and!; [done..|]. intros Hx'. exfalso. by apply Hx, Hres.
Qed.

Lemma accesses_snoc ops op y :
  accesses y (ops ++ [op]) =
  (accesses y ops + if decide (access_key op = Some y) then 1 else 0)%nat.
Proof.
  unfold accesses. rewrite filter_app, length_app. f_equal.
  case_decide.
  - by rewrite filter_cons_True.
  - by rewrite filter_cons_False.
Qed.

Lemma historyCount_bound s ops x :
  wf s → counted ops s →
  (0 ≤ historyCount x s ≤ Z.of_nat (accesses x ops) + 1)%Z.
Proof.
  intros [_ Hh] [Hcnt _]. unfold historyCount.
  destruct (get1_wf 0%Z _ x Hh) as (h1 & c & -> & _ & _ & _ & Hc & _).
  assert (0 ≤ c ≤ Z.of_nat (accesses x ops))%Z as Hb.
  { destruct Hc as [Hc| ->]; [by apply Hcnt|lia]. }
  pose proof (to_size_t_le (c + 1)). lia.
Qed.

Lemma reached_le hc k : reached hc k = true → (k ≤ INT_MAX)%Z → (k ≤ hc)%Z.
Proof.
  unfold reached. intros Hr%Z.leb_le Hk. pose proof (to_size_t_int k Hk). lia.
Qed.

Lemma step_counted s pre op :
  wf s → counted pre s → (k_ s ≤ INT_MAX)%Z →
  ∃ s', step Value0 op s = Some s' ∧ wf s' ∧ k_ s' = k_ s ∧
    counted (pre ++ [op]) s'.
Proof.
  intros Hwf Hcnt Hk. pose proof Hcnt as [Hc1 Hc2].
  assert (∀ y, (Z.of_nat (accesses y pre) ≤ Z.of_nat (accesses y (pre ++ [op])))%Z)
    as Hmono.
  { intros y. rewrite accesses_snoc. lia. }
  assert (∀ x s', access_key op = Some x → k_ s' = k_ s →
    (∀ y, resident y s' = true →
       resident y s = true ∨
       (y = x ∧ reached (historyCount x s) (k_ s) = true)) →
    (∀ e, e ∈ Lru.contents (historyList_ s') →
       e ∈ Lru.contents (historyList_ s) ∨
       ∃ c, e = (x, to_size_t (c + 1)) ∧
            ((x, c) ∈ Lru.contents (historyList_ s) ∨ c = 0%Z)) →
    counted (pre ++ [op]) s') as Hmain.
  { intros x s' Hop Hk' Hres Hhist. split.
    - intros y c Hy. destruct (Hhist _ Hy) as [Hold|(c0 & [= -> ->] & Hc0)].
      + specialize (Hc1 y c Hold). specialize (Hmono y). lia.
      + rewrite accesses_snoc, decide_True by done.
        assert (0 ≤ c0 ≤ Z.of_nat (accesses x pre))%Z.
        { destruct Hc0 as [Hc0| ->]; [by apply Hc1|lia]. }
        pose proof (to_size_t_le (c0 + 1)). lia.
    - intros y Hy. rewrite Hk'. destruct (Hres y Hy) as [Hold|[-> Hr]].
      + specialize (Hc2 y Hold). specialize (Hmono y). lia.
      + apply reached_le in Hr; [|done].
        pose proof (historyCount_bound s pre x Hwf Hcnt).
        rewrite accesses_snoc, decide_True by done. lia. }
  destruct op as [y v|y|y v|y]; simpl.
  - destruct (lruk_put_spec s y v Hwf) as (s' & -> & Hwf' & Hk' & Hres & _ & Hhist).
    exists s'. split_and!; [done..|]. by apply (Hmain y).
  - destruct (lruk_get_spec s y Hwf) as (s' & v & -> & Hwf' & Hk' & Hres & _ & Hhist).
    exists s'. split_and!; [done..|]. by apply (Hmain y).
  - destruct (lruk_get2_spec s y v Hwf) as (s' & r & -> & Hwf' & Hk' & Hh & Hm).
    exists s'. split_and!; [done..|]. split.
    + intros z c Hz. rewrite Hh in Hz. specialize (Hc1 z c Hz).
      specialize (Hmono z). lia.
    + intros z Hz. rewrite Hk'. apply resident_true in Hz. rewrite Hm in Hz.
      apply resident_true in Hz. specialize (Hc2 z Hz). specialize (Hmono z). lia.
  - destruct (lruk_remove_spec s y Hwf) as (s' & -> & Hwf' & Hk' & Hh & Hres).
    exists s'. split_and!; [done..|]. split.
    + intros z c Hz. rewrite Hh in Hz. specialize (Hc1 z c Hz).
      specialize (Hmono z). lia.
    + intros z Hz. rewrite Hk'. specialize (Hc2 z (Hres z Hz)).
      specialize (Hmono z). lia.
Qed.

Lemma lruk_step_wf s op :
  wf s → ∃ s', step Value0 op s = Some s' ∧ wf s' ∧ k_ s' = k_ s.
Proof.
  intros Hwf. destruct op as [y v|y|y v|y]; simpl.
  - destruct (lruk_put_spec s y v Hwf) as (s' & -> & ? & ? & _). by exists s'.
  - destruct (lruk_get_spec s y Hwf) as (s' & v & -> & ? & ? & _). by exists s'.
  - destruct (lruk_get2_spec s y v Hwf) as (s' & r & -> & ? & ? & _). by exists s'.
  - destruct (lruk_remove_spec s y Hwf) as (s' & -> & ? & ? & _). by exists s'.
Qed.

Lemma lruk_run_wf ops : ∀ s,
  wf s → ∃ s', run Value0 ops s = Some s' ∧ wf s' ∧ k_ s' = k_ s.
Proof.
  induction ops as [|op ops IH]; intros s Hwf; simpl.
  - by exists s.
  - destruct (lruk_step_wf s op Hwf) as (s1 & -> & Hwf1 & Hk1). simpl.
    destruct (IH s1 Hwf1) as (s2 & -> & Hwf2 & Hk2). exists s2.
    split_and!; [done..|congruence].
Qed.

Lemma run_counted ops : ∀ pre s,
  wf s → counted pre s → (k_ s ≤ INT_MAX)%Z →
  ∃ s', run Value0 ops s = Some s' ∧ counted (pre ++ ops) s'.
Proof.
  induction ops as [|op ops IH]; intros pre s Hwf Hcnt Hk; simpl.
  - exists s. by rewrite app_nil_r.
  - destruct (step_counted s pre op Hwf Hcnt Hk) as (s1 & -> & Hwf1 & Hk1 & Hc1).
    simpl. destruct (IH (pre ++ [op]) s1 Hwf1 Hc1) as (s2 & -> & Hc2); [lia|].
    exists s2. split; [done|]. by rewrite <-app_assoc in Hc2.
Qed.

Lemma lruk_new_spec c hc k :
  ∃ s, new Key0 Value0 c hc k = Some s ∧ wf s ∧ k_ s = k ∧ counted [] s.
Proof.
  unfold new.
  destruct (lru_new_spec Key0 Value0 c) as (b & -> & Hb & _).
  destruct (lru_new_spec Key0 0%Z hc) as (h & -> & Hh & _). simpl.
  eexists. split; [done|]. split_and!; simpl.
  - split; simpl; by eexists.
  - done.
  - split; simpl.
    + intros y c0. rewrite (contents_rep _ _ (Lru.rep_list _ _ Hh)). set_solver.
    + intros y Hy. apply resident_true in Hy. simpl in Hy.
      destruct Hb as [_ Hm _]. rewrite Hm in Hy. simpl in Hy.
      rewrite lookup_empty in Hy. by destruct Hy.
Qed.

(** C10. Admission to the main cache of an LRU-K cache.  In every state a
    run of operations reaches, for a key [x] outside the main cache: each
    operation returns, and if it leaves [x] in the main cache it is a [put]
    or a one-argument [get] of [x] whose history count reached [k]; a [put]
    of [x] whose count has not reached [k] leaves the main cache as it was
    and stores the value in the history value map; and every key found in
    the main cache has been accessed at least [k] times. *)
Theorem lruk_admission (c hc k : Z) ops s x :
  (k ≤ INT_MAX)%Z →
  exec Key0 Value0 c hc k ops = Some s →
  (∀ y, resident y s = true → (k ≤ Z.of_nat (accesses y ops))%Z) ∧
  (resident x s = false →
   (∀ op, ∃ s', step Value0 op s = Some s' ∧
      (resident x s' = true →
         access_key op = Some x ∧
         reached (historyCount x s) k = true ∧ (k ≤ historyCount x s)%Z)) ∧
   (∀ v, reached (historyCount x s) k = false →
      ∃ s', put Value0 x v s = Some s' ∧ resident x s' = false ∧
        Lru.nodeMap_ (base s') = Lru.nodeMap_ (base s) ∧
        historyValueMap_ s' !! x = Some v)).
Proof.
  intros Hk He. unfold exec in He.
  destruct (lruk_new_spec c hc k) as (s0 & Hs0 & Hwf0 & Hk0 & Hc0).
  rewrite Hs0 in He. simpl in He.
  destruct (lruk_run_wf ops s0 Hwf0) as (s1 & Hs1 & Hwf & Hks).
  destruct (run_counted ops [] s0 Hwf0 Hc0) as (s2 & Hs2 & Hcnt); [lia|].
  rewrite He in Hs1, Hs2. injection Hs1 as <-. injection Hs2 as <-.
  simpl in Hcnt. rewrite Hk0 in Hks. split.
  - intros y Hy. destruct Hcnt as [_ Hc2]. rewrite <-Hks. by apply Hc2.
  - intros Hx. split.
    + intros op. destruct (lruk_step_spec s op x Hwf Hx) as (s' & Hs' & _ & _ & Hres).
      exists s'. split; [done|]. intros Hx'. destruct (Hres Hx') as [Hop Hr].
      rewrite Hks in Hr. split_and!; [done..|]. by apply reached_le.
    + intros v Hr. destruct (lruk_put_spec s x v Hwf)
        as (s' & Hs' & _ & _ & Hres & Hkeep & _).
      rewrite Hks in *. destruct (Hkeep Hx Hr) as [Hm Hv].
      exists s'. split_and!; [done| |done..].
      apply not_true_iff_false. intros Hx'.
      destruct (Hres x Hx') as [?|[_ ?]]; congruence.
Qed.

End LruKFacts.

(** ** Binary64 slice size *)

Section DoubleFacts.
Local Open Scope Z_scope.

Lemma round_half_even_near n d :
  0 ≤ n → 0 < d →
  2 * (round_half_even n d * d - n) ≤ d ∧ 2 * (n - round_half_even n d * d) ≤ d.
Proof.
  intros Hn Hd. unfold round_half_even.
  pose proof (Z.div_mod n d ltac:(lia)) as Hdm.
  pose proof (Z.mod_pos_bound n d Hd) as Hr.
  set (q := n / d) in *. set (r := n mod d) in *.
  destruct (Z.ltb_spec (2 * r) d); [nia|].
  destruct (Z.ltb_spec d (2 * r)); [nia|].
  destruct (Z.even q); nia.
Qed.

(** The exponent that [round53] settles on puts the scaled quotient in
    [[2^52, 2^53)]. *)
Lemma round53_pos num den :
  0 < num → 0 < den →
  ∃ m e, round53 num den = mkDouble m e ∧
    let N := (scaled num den e).1 in
    let D := (scaled num den e).2 in
    0 < D ∧ 2 ^ 52 * D ≤ N ∧ N < 2 ^ 53 * D ∧
    2 * (m * D - N) ≤ D ∧ 2 * (N - m * D) ≤ D.
Proof.
  intros Hnum Hden. unfold round53.
  destruct (Z.eqb_spec num 0) as [|_]; [lia|].
  rewrite (Z.abs_eq num), (Z.sgn_pos num) by lia.
  pose proof (Z.log2_spec num Hnum) as [Hla1 Hla2].
  pose proof (Z.log2_spec den Hden) as [Hld1 Hld2].
  pose proof (Z.log2_nonneg num) as Hla0.
  pose proof (Z.log2_nonneg den) as Hld0.
  set (la := Z.log2 num) in *. set (ld := Z.log2 den) in *.
  set (E := la - ld - 52).
  rewrite Z.pow_succ_r in Hla2, Hld2 by done.
  (* the scaled quotient at E lies strictly between 2^51 and 2^53 *)
  assert (0 < (scaled num den E).2 ∧
          2 ^ 51 * (scaled num den E).2 < (scaled num den E).1 ∧
          (scaled num den E).1 < 2 ^ 53 * (scaled num den E).2) as HE.
  { unfold scaled. simpl. destruct (decide (0 ≤ E)) as [HE|HE].
    - rewrite (Z.max_l 0 (- E)), (Z.max_r 0 E) by lia.
      assert (2 ^ la = 2 ^ E * 2 ^ ld * 2 ^ 52) as Hpow.
      { rewrite <-!Z.pow_add_r by lia. f_equal. lia. }
      assert (0 < 2 ^ E) by (apply Z.pow_pos_nonneg; lia).
      assert (0 < 2 ^ ld) by (apply Z.pow_pos_nonneg; lia).
      change (2 ^ 0) with 1. nia.
    - rewrite (Z.max_r 0 (- E)), (Z.max_l 0 E) by lia.
      assert (2 ^ la * 2 ^ (- E) = 2 ^ ld * 2 ^ 52) as Hpow.
      { rewrite <-!Z.pow_add_r by lia. f_equal. lia. }
      assert (0 < 2 ^ (- E)) by (apply Z.pow_pos_nonneg; lia).
      assert (0 < 2 ^ ld) by (apply Z.pow_pos_nonneg; lia).
      change (2 ^ 0) with 1. nia. }
  destruct HE as (HD & Hlo & Hhi).
  set (e := if (scaled num den E).1 <? 2 ^ 52 * (scaled num den E).2
            then E - 1 else E).
  assert (0 < (scaled num den e).2 ∧
          2 ^ 52 * (scaled num den e).2 ≤ (scaled num den e).1 ∧
          (scaled num den e).1 < 2 ^ 53 * (scaled num den e).2) as He.
  { unfold e. destruct (Z.ltb_spec (scaled num den E).1
                          (2 ^ 52 * (scaled num den E).2)) as [Hlt|Hge];
      [|by split_and!].
    unfold scaled in *. simpl in *. destruct (decide (1 ≤ E)) as [HE|HE].
    - rewrite (Z.max_l 0 (- E)), (Z.max_r 0 E) in * by lia.
      rewrite (Z.max_l 0 (- (E - 1))), (Z.max_r 0 (E - 1)) by lia.
      assert (2 ^ E = 2 * 2 ^ (E - 1)) as Hpow.
      { rewrite <-Z.pow_succ_r by lia. f_equal. lia. }
      assert (0 < 2 ^ (E - 1)) by (apply Z.pow_pos_nonneg; lia).
      change (2 ^ 0) with 1 in *. nia.
    - assert (Z.max 0 E = 0) as HmE by lia.
      rewrite (Z.max_r 0 (- (E - 1))), (Z.max_l 0 (E - 1)) by lia.
      rewrite HmE in *.
      assert (2 ^ (- (E - 1)) = 2 * 2 ^ Z.max 0 (- E)) as Hpow.
      { rewrite (Z.max_r 0 (- E)) by lia.
        rewrite <-Z.pow_succ_r by lia. f_equal. lia. }
      assert (0 < 2 ^ Z.max 0 (- E)) by (apply Z.pow_pos_nonneg; lia).
      change (2 ^ 0) with 1 in *. nia. }
  destruct He as (HD' & Hlo' & Hhi').
  eexists _, e. split; [reflexivity|]. simpl. split_and!; [done..| |].
  - rewrite Z.mul_1_l. apply round_half_even_near; lia.
  - rewrite Z.mul_1_l. apply round_half_even_near; lia.
Qed.


(** An integer below [2^53] converts to [double] exactly. *)
Lemma double_of_Z_exact z :
  0 < z < 2 ^ 53 →
  ∃ m e, double_of_Z z = mkDouble m e ∧ e ≤ 0 ∧ m = z * 2 ^ (- e).
Proof.
  intros Hz. unfold double_of_Z.
  destruct (round53_pos z 1) as (m & e & -> & HD & Hlo & Hhi & Hup & Hdn);
    [lia..|].
  exists m, e. split; [done|]. unfold scaled in *. simpl in *.
  destruct (decide (e ≤ 0)) as [He|He].
  - split; [done|]. rewrite (Z.max_l 0 e), (Z.max_r 0 (- e)) in * by lia.
    change (2 ^ 0) with 1 in *. lia.
  - exfalso. rewrite (Z.max_r 0 e), (Z.max_l 0 (- e)) in * by lia.
    assert (2 ^ 1 ≤ 2 ^ e) by (apply Z.pow_le_mono_r; lia).
    change (2 ^ 0) with 1 in *. change (2 ^ 1) with 2 in *. lia.
Qed.

Lemma ceil_div_spec c s :
  0 ≤ c → 0 < s → (ceil_div c s - 1) * s < c + (if decide (c = 0) then 1 else 0)
                   ∧ c ≤ ceil_div c s * s ∧ 0 ≤ ceil_div c s ≤ c.
Proof.
  intros Hc Hs. unfold ceil_div.
  pose proof (Z.div_mod (c + s - 1) s ltac:(lia)) as Hdm.
  pose proof (Z.mod_pos_bound (c + s - 1) s Hs) as Hr.
  set (t := (c + s - 1) / s) in *. case_decide; nia.
Qed.

Lemma ceil_of_quotient m p t :
  0 < p → (t - 1) * p < m → m ≤ t * p → - (- m / p) = t.
Proof.
  intros Hp Hlo Hhi. assert (- m / p = - t); [|lia].
  symmetry. apply (Z.div_unique _ _ _ (t * p - m)); lia.
Qed.

(** Below [2^53] the slice size computed in [double] is the exact
    quotient rounded up. *)
Lemma slice_size_exact c s :
  0 ≤ c < 2 ^ 53 → 1 ≤ s ≤ INT_MAX →
  slice_size c s = Some (ceil_div c s).
Proof.
  intros Hc Hs. unfold INT_MAX in Hs. unfold slice_size.
  destruct (double_of_Z_exact s) as (ms & es & -> & Hes & Hms); [lia|].
  assert (0 < 2 ^ (- es)) as Hps by (apply Z.pow_pos_nonneg; lia).
  unfold double_div. simpl.
  destruct (Z.eqb_spec ms 0) as [|_]; [nia|].
  destruct (ceil_div_spec c s) as (Ht1 & Ht2 & Ht3); [lia..|].
  set (t := ceil_div c s) in *.
  assert (double_to_size_t t = Some t) as Hconv.
  { unfold double_to_size_t, SIZE_MAX.
    destruct (Z.leb_spec 0 t); [|lia]. destruct (Z.leb_spec t (2 ^ 64 - 1)); [done|lia]. }
  destruct (decide (c = 0)) as [->|Hc0].
  { change (double_of_Z 0) with (mkDouble 0 0). simpl.
    rewrite Z.mul_0_r. assert (t = 0) as -> by lia. done. }
  destruct (double_of_Z_exact c) as (mc & ec & -> & Hec & Hmc); [lia|].
  assert (0 < 2 ^ (- ec)) as Hpc by (apply Z.pow_pos_nonneg; lia).
  simpl.
  set (num := mc * 2 ^ Z.max 0 (ec - es)).
  set (den := ms * 2 ^ Z.max 0 (es - ec)).
  assert (0 < 2 ^ Z.max 0 (ec - es)) by (apply Z.pow_pos_nonneg; lia).
  assert (0 < 2 ^ Z.max 0 (es - ec)) by (apply Z.pow_pos_nonneg; lia).
  assert (0 < den) as Hden by (unfold den; nia).
  assert (0 < num) as Hnum by (unfold num; nia).
  assert (num * s = c * den) as Hratio.
  { unfold num, den. subst mc ms.
    assert (2 ^ (- ec) * 2 ^ Z.max 0 (ec - es)
            = 2 ^ (- es) * 2 ^ Z.max 0 (es - ec)) as Hpow.
    { rewrite <-!Z.pow_add_r by lia. f_equal. lia. }
    nia. }
  rewrite (Z.sgn_pos den), (Z.abs_eq den), Z.mul_1_l by lia.
  destruct (round53_pos num den Hnum Hden)
    as (m & e & -> & HD & Hlo & Hhi & Hup & Hdn).
  simpl. rewrite <-Hconv. f_equal. unfold double_ceil. simpl.
  unfold scaled in *. simpl in *.
  destruct (Z.leb_spec 0 e) as [He|He].
  - rewrite (Z.max_r 0 e), (Z.max_l 0 (- e)) in * by lia.
    change (2 ^ 0) with 1 in *. rewrite Z.mul_1_r in *.
    assert (0 < 2 ^ e) as Hpe by (apply Z.pow_pos_nonneg; lia).
    set (P := 2 ^ e) in *.
    assert (2 ^ 52 * P * s * den ≤ c * den) as Hb by nia.
    assert (2 ^ 52 * (P * s) ≤ c) as Hb'.
    { apply (Z.mul_le_mono_pos_r _ _ den); [done|]. lia. }
    assert (P * s = 1) as Hone by nia.
    assert (P = 1 ∧ s = 1) as [HP ->] by nia.
    rewrite HP in *. assert (t = c) as -> by lia.
    assert (2 * (m - c) * den ≤ den ∧ 2 * (c - m) * den ≤ den) as [H1 H2] by nia.
    assert (2 * (m - c) ≤ 1).
    { apply (Z.mul_le_mono_pos_r _ _ den); [done|]. lia. }
    assert (2 * (c - m) ≤ 1).
    { apply (Z.mul_le_mono_pos_r _ _ den); [done|]. lia. }
    lia.
  - rewrite (Z.max_l 0 e), (Z.max_r 0 (- e)) in * by lia.
    change (2 ^ 0) with 1 in *. rewrite Z.mul_1_r in *.
    assert (0 < 2 ^ (- e)) as Hpe by (apply Z.pow_pos_nonneg; lia).
    set (P := 2 ^ (- e)) in *.
    (* everything is scaled by [den]: cancel it *)
    assert (2 ^ 52 * s ≤ c * P) as Hnorm.
    { apply (Z.mul_le_mono_pos_r _ _ den); [done|]. nia. }
    assert (2 * m * s ≤ 2 * c * P + s) as Hupper.
    { apply (Z.mul_le_mono_pos_r _ _ den); [done|]. nia. }
    assert (2 * c * P ≤ 2 * m * s + s) as Hlower.
    { apply (Z.mul_le_mono_pos_r _ _ den); [done|]. nia. }
    assert (s < 2 * P) as HsP by nia.
    apply ceil_of_quotient; [done| |].
    + assert (2 * ((t - 1) * P) * s < 2 * m * s); [|nia].
      assert ((t - 1) * s + 1 ≤ c) by lia. nia.
    + assert (2 * m * s ≤ 2 * (t * P) * s + s) by nia.
      assert (2 * (m - t * P) * s ≤ s) by lia.
      assert (2 * (m - t * P) ≤ 1); [|lia].
      apply (Z.mul_le_mono_pos_r _ _ s); lia.
Qed.

End DoubleFacts.

(** Of three keys, two are routed to the same of two slices. *)
Lemma two_of_three_collide (f : Z → Z) :
  (∀ x, 0 ≤ f x < 2)%Z →
  ∃ a b, a ≠ b ∧ a ∈ [0; 1; 2]%Z ∧ b ∈ [0; 1; 2]%Z ∧ f a = f b.
Proof.
  intros Hf. pose proof (Hf 0%Z). pose proof (Hf 1%Z). pose proof (Hf 2%Z).
  destruct (decide (f 0 = f 1)%Z); [exists 0%Z, 1%Z; set_solver|].
  destruct (decide (f 0 = f 2)%Z); [exists 0%Z, 2%Z; set_solver|].
  exists 1%Z, 2%Z. split_and!; [done|set_solver..|lia].
Qed.

(** ** [KHashLruCaches] *)

Section KHashFacts.
Import KHash.
Context {Key Value : Type} `{Countable Key}.
Context (Key0 : Key) (Value0 : Value).
Context (Hash : Key → Z) (hardware_concurrency : Z).
Implicit Types (h : KHashLruCaches Key Value) (k : Key) (v : Value)
  (kvs : list (Key * Value)) (c : Lru.LruCache Key Value)
  (cs : list (Lru.LruCache Key Value)) (m : list (Key * Value)).

Lemma to_int_small z : (0 ≤ z ≤ INT_MAX)%Z → to_int z = z.
Proof.
  unfold to_int, INT_MAX. intros Hz. rewrite Z.mod_small by lia.
  destruct (Z.leb_spec (2 ^ 31) z); lia.
Qed.

Lemma to_size_t_small z : (0 ≤ z ≤ INT_MAX)%Z → to_size_t z = z.
Proof. unfold to_size_t, INT_MAX. intros Hz. apply Z.mod_small. lia. Qed.

Lemma make_slices_spec n sz :
  ∃ cs, make_slices Key0 Value0 n (Some sz) = Some cs ∧ length cs = n ∧
    Forall (λ c, Lru.rep c [] ∧
                 Lru.capacity_ c = Lru.stored_capacity (to_int sz)) cs.
Proof.
  induction n as [|n (cs & IH & Hlen & Hcs)]; [by exists []|].
  cbn [make_slices]. cbn [mbind option_bind].
  destruct (lru_new_spec Key0 Value0 (to_int sz)) as (c & -> & Hr & Hc).
  cbn [mbind option_bind]. rewrite IH. cbn [mbind option_bind].
  exists (c :: cs). split_and!; [done|simpl; lia|]. by apply Forall_cons.
Qed.

Lemma khash_new_spec (C S : Z) :
  (0 ≤ C < 2 ^ 53)%Z → (1 ≤ S ≤ INT_MAX)%Z → (ceil_div C S ≤ INT_MAX)%Z →
  ∃ h, new Key0 Value0 hardware_concurrency C S = Some h ∧
    capacity_ h = C ∧ sliceNum_ h = S ∧
    length (lruSliceCaches_ h) = Z.to_nat S ∧
    Forall (λ c, Lru.rep c [] ∧ Lru.capacity_ c = ceil_div C S)
           (lruSliceCaches_ h).
Proof.
  intros HC HS Ht. unfold new.
  destruct (Z.ltb_spec 0 S) as [_|]; [|lia].
  rewrite (to_int_small S) by lia. rewrite slice_size_exact by done. simpl.
  destruct (make_slices_spec (Z.to_nat S) (ceil_div C S)) as (cs & -> & Hlen & Hcs).
  simpl. eexists. split; [done|]. simpl. split_and!; [done..|].
  eapply Forall_impl; [exact Hcs|]. intros c [Hr Hc]. split; [done|].
  destruct (ceil_div_spec C S) as (_ & _ & Hnn); [lia..|].
  rewrite to_int_small in Hc by lia. by rewrite stored_capacity_int in Hc by lia.
Qed.


Lemma slice_of_bound (S : Z) k : (0 < S)%Z → (0 ≤ slice_of Hash S k < S)%Z.
Proof. intros HS. unfold slice_of. by apply Z.mod_pos_bound. Qed.

Lemma sliceIndex_spec h k (S : Z) :
  sliceNum_ h = S → (1 ≤ S ≤ INT_MAX)%Z →
  sliceIndex Hash k h = Some (Z.to_nat (slice_of Hash S k)).
Proof.
  intros Hn HS. unfold sliceIndex, slice_of. rewrite Hn.
  rewrite (to_size_t_small S) by lia.
  destruct (Z.eqb_spec S 0); [lia|done].
Qed.

Lemma slice_lookup h k (S : Z) :
  sliceNum_ h = S → (1 ≤ S ≤ INT_MAX)%Z →
  length (lruSliceCaches_ h) = Z.to_nat S →
  is_Some (lruSliceCaches_ h !! Z.to_nat (slice_of Hash S k)).
Proof.
  intros HS Hr Hlen. apply lookup_lt_is_Some. rewrite Hlen.
  pose proof (slice_of_bound S k). lia.
Qed.

Lemma model_put_append cap m k v :
  Lru.assoc k m = None → (Z.of_nat (length m) < cap)%Z →
  Lru.model_put cap k v m = m ++ [(k, v)].
Proof.
  intros Hk Hlen. unfold Lru.model_put.
  destruct (Z.eqb_spec cap 0); [lia|]. rewrite Hk.
  destruct (Z.leb_spec cap (Z.of_nat (length m))); [lia|done].
Qed.

(** Inserting distinct keys that overload no slice keeps all of them. *)
Lemma put_all_spec (S cap : Z) rest : ∀ done_ h,
  (1 ≤ S ≤ INT_MAX)%Z →
  slices_hold Hash S cap done_ h →
  NoDup (done_ ++ rest).*1 →
  (∀ i, (Z.of_nat (load Hash S i (done_ ++ rest)) ≤ cap)%Z) →
  ∃ h', put_all Hash rest h = Some h' ∧
    slices_hold Hash S cap (done_ ++ rest) h'.
Proof.
  induction rest as [|[k v] rest IH]; intros done_ h HS Hh Hnd Hload.
  { exists h. by rewrite app_nil_r. }
  cbn [put_all]. destruct Hh as (Hn & Hlen & Hsl).
  unfold put. rewrite (sliceIndex_spec h k S) by done. cbn [mbind option_bind].
  set (j := Z.to_nat (slice_of Hash S k)).
  destruct (slice_lookup h k S Hn HS Hlen) as [c Hc]. fold j in Hc.
  rewrite Hc. cbn [mbind option_bind].
  destruct (Hsl j c Hc) as (Hcap & l & Hr & Hl).
  pose proof (slice_of_bound S k ltac:(lia)) as Hjb.
  assert (Z.of_nat j = slice_of Hash S k) as Hj by (unfold j; lia).
  set (mine := filter (λ kv : Key * Value, slice_of Hash S kv.1 = Z.of_nat j) done_) in *.
  assert (Lru.assoc k mine = None) as Hfresh.
  { apply assoc_None. rewrite fmap_app, fmap_cons in Hnd.
    apply NoDup_app in Hnd as (_ & Hnd & _).
    intros ([k' v'] & -> & Hin)%list_elem_of_fmap.
    apply list_elem_of_filter in Hin as [_ Hin]. apply (Hnd k').
    - apply list_elem_of_fmap. by exists (k', v').
    - set_solver. }
  assert (Z.of_nat (length mine) < cap)%Z as Hroom.
  { specialize (Hload (Z.of_nat j)). unfold load in Hload.
    rewrite filter_app, length_app, filter_cons_True in Hload by (simpl; lia).
    fold mine in Hload. simpl in Hload. lia. }
  destruct (put_refines c l k v Hr) as (c' & l' & -> & Hr' & Hcap' & Hl').
  cbn [mbind option_bind].
  rewrite Hl, Hcap, model_put_append in Hl' by done.
  replace (done_ ++ (k, v) :: rest) with ((done_ ++ [(k, v)]) ++ rest) in *
    by (by rewrite <-app_assoc).
  apply IH; [done| |done|done].
  split_and!; simpl; [done|by rewrite length_insert|].
  intros i ci Hi. destruct (decide (i = j)) as [->|Hne].
  - rewrite list_lookup_insert_eq in Hi by (by eapply lookup_lt_Some).
    injection Hi as <-. split; [congruence|]. exists l'. split; [done|].
    rewrite Hl', filter_app, filter_cons_True by (simpl; lia). done.
  - rewrite list_lookup_insert_ne in Hi by done.
    destruct (Hsl i ci Hi) as (Hci & li & Hri & Hli). split; [done|].
    exists li. split; [done|]. rewrite Hli, filter_app.
    rewrite filter_cons_False by (simpl; lia). by rewrite app_nil_r.
Qed.

Lemma assoc_nodup m k v : NoDup m.*1 → (k, v) ∈ m → Lru.assoc k m = Some v.
Proof.
  induction m as [|[k' v'] m IH]; [set_solver|]. rewrite fmap_cons. simpl.
  intros [Hk' Hnd]%NoDup_cons [Heq|Hin]%elem_of_cons.
  - injection Heq as <- <-. by rewrite decide_True.
  - rewrite decide_False; [by apply IH|]. intros ->. apply Hk'.
    apply list_elem_of_fmap. by exists (k', v).
Qed.

Lemma nodup_keys_filter (P : Key * Value → Prop) `{∀ x, Decision (P x)} m :
  NoDup m.*1 → NoDup (filter P m).*1.
Proof.
  induction m as [|[k v] m IH]; [done|]. rewrite fmap_cons. simpl.
  intros [Hk Hnd]%NoDup_cons. destruct (decide (P (k, v))).
  - rewrite filter_cons_True by done. rewrite fmap_cons. simpl.
    apply NoDup_cons. split; [|by apply IH].
    intros ([k' v'] & Heq & Hin)%list_elem_of_fmap. simpl in Heq. subst k'.
    apply Hk. apply list_elem_of_fmap. exists (k, v'). split; [done|].
    by apply list_elem_of_filter in Hin as [_ ?].
  - rewrite filter_cons_False by done. by apply IH.
Qed.

Lemma slices_hold_keep (S cap : Z) kvs h :
  NoDup kvs.*1 → slices_hold Hash S cap kvs h → slices_keep Hash S kvs h.
Proof.
  intros Hnd (Hn & Hlen & Hsl). split_and!; [done..|].
  intros i c Hi. destruct (Hsl i c Hi) as (_ & l & Hr & Hl).
  exists l. split; [done|]. intros k v Hin Hk. rewrite Hl.
  apply assoc_nodup.
  - by apply nodup_keys_filter.
  - by apply list_elem_of_filter.
Qed.


Lemma assoc_model_get m k k' v0 :
  Lru.assoc k (Lru.model_get k' v0 m).1 = Lru.assoc k m.
Proof.
  unfold Lru.model_get. destruct (Lru.assoc k' m) as [v'|] eqn:Hk'; [|done].
  simpl. rewrite assoc_app. destruct (decide (k = k')) as [->|Hne].
  - rewrite assoc_drop_key. simpl. by rewrite decide_True.
  - rewrite assoc_drop_key_ne by done. destruct (Lru.assoc k m); [done|].
    simpl. by rewrite decide_False.
Qed.

(** A query of any key keeps every inserted pair where it is, and finds
    an inserted key with its value. *)
Lemma get_keeps (S : Z) kvs h k v0 :
  (1 ≤ S ≤ INT_MAX)%Z → slices_keep Hash S kvs h →
  ∃ h' r, get Hash k v0 h = Some (h', r) ∧ slices_keep Hash S kvs h' ∧
    ∀ v, (k, v) ∈ kvs → r = (true, v).
Proof.
  intros HS (Hn & Hlen & Hsl). unfold get.
  rewrite (sliceIndex_spec h k S) by done. cbn [mbind option_bind].
  set (j := Z.to_nat (slice_of Hash S k)).
  destruct (slice_lookup h k S Hn HS Hlen) as [c Hc]. fold j in Hc.
  rewrite Hc. cbn [mbind option_bind].
  destruct (Hsl j c Hc) as (l & Hr & Hl).
  pose proof (slice_of_bound S k ltac:(lia)) as Hjb.
  assert (slice_of Hash S k = Z.of_nat j) as Hj by (unfold j; lia).
  destruct (get_refines c l k v0 Hr) as (c' & l' & -> & Hr' & _ & Hl').
  cbn [mbind option_bind]. eexists _, _. split; [done|]. split.
  - split_and!; simpl; [done|by rewrite length_insert|].
    intros i ci Hi. destruct (decide (i = j)) as [->|Hne].
    + rewrite list_lookup_insert_eq in Hi by (by eapply lookup_lt_Some).
      injection Hi as <-. exists l'. split; [done|]. intros k1 v1 Hin Hk1.
      rewrite Hl', assoc_model_get. by apply Hl.
    + rewrite list_lookup_insert_ne in Hi by done. by apply Hsl.
  - intros v Hin. unfold Lru.model_get. by rewrite (Hl k v Hin Hj).
Qed.

Lemma get_all_keeps (S : Z) kvs ks v0 : ∀ h,
  (1 ≤ S ≤ INT_MAX)%Z → slices_keep Hash S kvs h →
  ∃ h', get_all Hash ks v0 h = Some h' ∧ slices_keep Hash S kvs h'.
Proof.
  induction ks as [|k ks IH]; intros h HS Hh; cbn [get_all].
  - by exists h.
  - destruct (get_keeps S kvs h k v0 HS Hh) as (h1 & r & -> & Hh1 & _).
    cbn [mbind option_bind]. by apply IH.
Qed.

Lemma new_holds (C S : Z) :
  (0 ≤ C < 2 ^ 53)%Z → (1 ≤ S ≤ INT_MAX)%Z → (ceil_div C S ≤ INT_MAX)%Z →
  ∃ h, new Key0 Value0 hardware_concurrency C S = Some h ∧
    slices_hold Hash S (ceil_div C S) [] h.
Proof.
  intros HC HS Ht.
  destruct (khash_new_spec C S HC HS Ht) as (h & Hh & _ & Hn & Hlen & Hcs).
  exists h. split; [done|]. split_and!; [done..|].
  intros i c Hi. rewrite Forall_forall in Hcs.
  destruct (Hcs c) as [Hr Hcap]; [by eapply list_elem_of_lookup_2|].
  split; [done|]. by exists [].
Qed.


Lemma load_outside (S i : Z) kvs :
  (0 < S)%Z → ¬ (0 ≤ i < S)%Z → load Hash S i kvs = 0.
Proof.
  intros HS Hi. unfold load. induction kvs as [|[k v] kvs IH]; [done|].
  rewrite filter_cons_False; [done|]. simpl.
  pose proof (slice_of_bound S k HS). lia.
Qed.

Lemma balanced_all (S cap : Z) kvs :
  (0 < S)%Z → (0 ≤ cap)%Z →
  Forall (λ i, (Z.of_nat (load Hash S i kvs) ≤ cap)%Z) (seqZ 0 S) →
  ∀ i, (Z.of_nat (load Hash S i kvs) ≤ cap)%Z.
Proof.
  intros HS Hcap Hall i. destruct (decide (0 ≤ i < S)%Z) as [Hi|Hi].
  - rewrite Forall_forall in Hall. apply Hall. apply elem_of_seqZ. lia.
  - rewrite load_outside by done. lia.
Qed.

(** Whatever the hash function, two distinct keys that it routes to the
    same of two slices of capacity 1 do not both survive: the second
    insertion evicts the first key. *)
Lemma collision_evicts k1 k2 v1 v2 v0 :
  k1 ≠ k2 → slice_of Hash 2 k1 = slice_of Hash 2 k2 →
  ∃ h0 h1 h2,
    new Key0 Value0 hardware_concurrency 2 2 = Some h0 ∧
    put_all Hash [(k1, v1); (k2, v2)] h0 = Some h1 ∧
    get Hash k1 v0 h1 = Some (h2, (false, v0)).
Proof.
  intros Hne Hsame.
  assert (1 ≤ 2 ≤ INT_MAX)%Z as HS by (unfold INT_MAX; lia).
  destruct (new_holds 2 2) as (h0 & Hh0 & Hhold0);
    [lia|done|by vm_compute|].
  change (ceil_div 2 2) with 1%Z in Hhold0.
  destruct (put_all_spec 2 1 [(k1, v1)] [] h0 HS Hhold0) as (ha & Hha & Hholda).
  { simpl. apply NoDup_singleton. }
  { intros i. unfold load. simpl.
    pose proof (length_filter (λ kv : Key * Value, slice_of Hash 2 kv.1 = i)
                  [(k1, v1)]) as Hlen. simpl in Hlen. lia. }
  cbn [put_all] in Hha.
  destruct (put Hash k1 v1 h0) as [hb|] eqn:Hhb; [|done].
  cbn [mbind option_bind] in Hha. injection Hha as ->. simpl in Hholda.
  destruct Hholda as (Hn & Hlen & Hsl).
  set (j := Z.to_nat (slice_of Hash 2 k2)).
  destruct (slice_lookup ha k2 2 Hn HS Hlen) as [c Hc]. fold j in Hc.
  pose proof (slice_of_bound 2 k2 ltac:(lia)) as Hjb.
  assert (Z.of_nat j = slice_of Hash 2 k2) as Hj by (unfold j; lia).
  destruct (Hsl j c Hc) as (Hcap & l & Hr & Hl).
  rewrite filter_cons_True in Hl by (simpl; lia). rewrite filter_nil in Hl.
  destruct (put_refines c l k2 v2 Hr) as (c' & l' & Hc' & Hr' & _ & Hl').
  rewrite Hl, Hcap in Hl'. unfold Lru.model_put in Hl'. simpl in Hl'.
  rewrite decide_False in Hl' by done. simpl in Hl'.
  destruct (get_refines c' l' k1 v0 Hr') as (c'' & l'' & Hc'' & _).
  rewrite Hl' in Hc''. unfold Lru.model_get in Hc''. simpl in Hc''.
  rewrite decide_False in Hc'' by done. simpl in Hc''.
  eexists h0, _, _. split; [done|]. split.
  - cbn [put_all]. rewrite Hhb. cbn [mbind option_bind]. unfold put.
    rewrite (sliceIndex_spec ha k2 2) by done. cbn [mbind option_bind].
    fold j. rewrite Hc. cbn [mbind option_bind]. rewrite Hc'. done.
  - unfold get. unfold sliceIndex. simpl. rewrite Hn.
    change (to_size_t 2 =? 0)%Z with false. cbn [mbind option_bind].
    change (to_size_t 2) with 2%Z. fold (slice_of Hash 2 k1).
    rewrite Hsame. fold j.
    rewrite list_lookup_insert_eq by (by eapply lookup_lt_Some).
    cbn [mbind option_bind]. rewrite Hc''. done.
Qed.

(** Where the conversions lose nothing the constructor does build what
    it computes: with a slice count [S] in the range of [int], a total
    capacity [C] below [2^53] and a quotient that fits an [int], it
    returns a cache of exactly [S] slices, each of capacity [ceil(C / S)],
    the least integer [t] with [C <= t * S]. *)
Lemma khash_slice_capacity_in_range (C S : Z) :
  (0 ≤ C < 2 ^ 53)%Z → (1 ≤ S ≤ INT_MAX)%Z → (ceil_div C S ≤ INT_MAX)%Z →
  ∃ h, new Key0 Value0 hardware_concurrency C S = Some h ∧
    capacity_ h = C ∧ sliceNum_ h = S ∧
    Z.of_nat (length (lruSliceCaches_ h)) = S ∧
    Forall (λ c, Lru.capacity_ c = ceil_div C S) (lruSliceCaches_ h) ∧
    (C ≤ ceil_div C S * S)%Z ∧
    (∀ t, (C ≤ t * S)%Z → (ceil_div C S ≤ t)%Z).
Proof.
  intros HC HS Ht.
  destruct (khash_new_spec C S HC HS Ht) as (h & Hh & Hcap & Hn & Hlen & Hcs).
  destruct (ceil_div_spec C S) as (Hlo & Hhi & Hnn); [lia..|].
  exists h. split_and!; [done|done|done| | |done|].
  - rewrite Hlen. lia.
  - eapply Forall_impl; [exact Hcs|]. by intros c [_ ?].
  - intros t Hle. destruct (decide (ceil_div C S ≤ t)%Z) as [|Hgt]; [done|].
    exfalso. assert (t * S ≤ (ceil_div C S - 1) * S)%Z as Hmul.
    { apply Z.mul_le_mono_nonneg_r; lia. }
    destruct (decide (C = 0%Z)) as [HC0|HC0].
    + assert (ceil_div C S = 0%Z) as Hz by lia. rewrite Hz in Hmul. lia.
    + lia.
Qed.

(** C3. Sharded read-back: when [S] slices of capacity [ceil(C / S)] are
    built and distinct keys are inserted of which no slice is routed more
    than its capacity, then after any further queries a [get] of each
    inserted key finds it and returns the value inserted with it. *)
Theorem khash_balanced_readback (C S : Z) kvs (ks : list Key) v0 :
  (0 ≤ C < 2 ^ 53)%Z → (1 ≤ S ≤ INT_MAX)%Z → (ceil_div C S ≤ INT_MAX)%Z →
  NoDup kvs.*1 →
  Forall (λ i, (Z.of_nat (load Hash S i kvs) ≤ ceil_div C S)%Z) (seqZ 0 S) →
  ∃ h0 h1 h2,
    new Key0 Value0 hardware_concurrency C S = Some h0 ∧
    put_all Hash kvs h0 = Some h1 ∧
    get_all Hash ks v0 h1 = Some h2 ∧
    ∀ k v, (k, v) ∈ kvs → ∃ h3, get Hash k v0 h2 = Some (h3, (true, v)).
Proof.
  intros HC HS Ht Hnd Hbal.
  destruct (new_holds C S HC HS Ht) as (h0 & Hh0 & Hhold0).
  destruct (ceil_div_spec C S) as (_ & _ & Hnn); [lia..|].
  pose proof (balanced_all S (ceil_div C S) kvs ltac:(lia) ltac:(lia) Hbal)
    as Hall.
  destruct (put_all_spec S _ kvs [] h0 HS Hhold0 Hnd Hall) as (h1 & Hh1 & Hhold1).
  simpl in Hhold1. apply slices_hold_keep in Hhold1; [|done].
  destruct (get_all_keeps S kvs ks v0 h1 HS Hhold1) as (h2 & Hh2 & Hkeep2).
  exists h0, h1, h2. split_and!; [done..|]. intros k v Hin.
  destruct (get_keeps S kvs h2 k v0 HS Hkeep2) as (h3 & r & Hg & _ & Hr).
  exists h3. by rewrite Hg, (Hr v Hin).
Qed.

End KHashFacts.

(** ** The LFU model *)

Section LfuFacts.
Import Lfu.
Context {Key Value : Type} `{Countable Key}.
Implicit Types (s : LfuCore Key Value) (k : Key) (v : Value)
  (op : Op Key Value) (ops : list (Op Key Value)).

Lemma check_aging_quiet s : aging_due s = false → check_aging s = s.
Proof. intros Hq. unfold check_aging. by rewrite Hq. Qed.

Lemma promote_steps_index s k k' :
  index (promote_steps k' s) !! k =
  match index s !! k' with
  | Some n => if decide (k = k') then Some (mkNode (value n) (frequency n + 1))
              else index s !! k
  | None => index s !! k
  end.
Proof.
  unfold promote_steps. destruct (index s !! k') as [n|] eqn:Hk'; [|done].
  simpl. rewrite lookup_insert. case_decide; case_decide; congruence.
Qed.

Lemma evict_index s k :
  is_Some (index (evict s) !! k) → index (evict s) !! k = index s !! k.
Proof.
  unfold evict. destruct (firstNode _ _) as [e|]; [|done]. simpl.
  rewrite lookup_delete. case_decide; [by intros [??]|done].
Qed.

(** A new key enters at frequency 1. *)
Lemma put_new_freq s k v :
  index s !! k = None → capacity s ≠ 0%Z → sweeps (OPut k v) s = false →
  freq k (put k v s) = Some 1%Z.
Proof.
  intros Hk Hc Hq. unfold sweeps in Hq. unfold put.
  destruct (Z.eqb_spec (capacity s) 0) as [|_]; [done|]. simpl in Hq.
  rewrite check_aging_quiet by done. unfold freq, put_steps. rewrite Hk. simpl.
  by rewrite lookup_insert_eq.
Qed.

(** One operation without a sweep, with [k] resident before and after:
    the frequency of [k] grows by one on a hit and stays otherwise. *)
Lemma step_freq s k op f :
  freq k s = Some f → sweeps op s = false →
  is_Some (index (step op s) !! k) →
  freq k (step op s) = Some (f + if hits k op s then 1 else 0)%Z.
Proof.
  unfold freq. intros Hf Hq Hres.
  destruct (index s !! k) as [n|] eqn:Hk; [|done]. simpl in Hf.
  injection Hf as <-.
  destruct op as [k' v'|k'| k'|]; simpl in *.
  - unfold put in *. destruct (Z.eqb_spec (capacity s) 0) as [Hc|Hc]; simpl in *.
    { rewrite Hk, andb_false_r. simpl. by rewrite Z.add_0_r. }
    rewrite check_aging_quiet in * by done. rewrite andb_true_r.
    unfold put_steps in *. destruct (index s !! k') as [n'|] eqn:Hk'.
    + rewrite promote_steps_index. simpl. rewrite lookup_insert_eq.
      destruct (decide (k = k')) as [->|Hne].
      * rewrite bool_decide_eq_true_2 by (split; [done|eauto]). simpl.
        by simplify_eq.
      * rewrite lookup_insert_ne by done. rewrite Hk.
        rewrite bool_decide_eq_false_2 by (intros [??]; done).
        simpl. by rewrite Z.add_0_r.
    + assert (k ≠ k') as Hne by congruence. simpl in *.
      rewrite lookup_insert_ne in * by done.
      rewrite bool_decide_eq_false_2 by (intros [??]; done).
      rewrite Z.add_0_r.
      destruct (capacity s <=? Z.of_nat (size (index s)))%Z.
      * rewrite evict_index by done. by rewrite Hk.
      * by rewrite Hk.
  - unfold get in *. destruct (index s !! k') as [n'|] eqn:Hk'; simpl in *.
    + unfold promote in *. rewrite check_aging_quiet in * by done.
      rewrite promote_steps_index, Hk'.
      destruct (decide (k = k')) as [->|Hne].
      * rewrite bool_decide_eq_true_2 by (split; [done|eauto]). simpl.
        by simplify_eq.
      * rewrite Hk. rewrite bool_decide_eq_false_2 by (intros [??]; done).
        simpl. by rewrite Z.add_0_r.
    + rewrite Hk. assert (k' ≠ k) as Hne by congruence.
      rewrite bool_decide_eq_false_2 by (intros [??]; done).
      simpl. by rewrite Z.add_0_r.
  - rewrite Z.add_0_r. unfold remove in *.
    destruct (index s !! k') as [n'|] eqn:Hk'; simpl in *; [|by rewrite Hk].
    rewrite lookup_delete in *. case_decide; [by destruct Hres|by rewrite Hk].
  - rewrite lookup_empty in Hres. by destruct Hres.
Qed.

Lemma quiet_hits_freq k ops : ∀ s f n,
  freq k s = Some f → quiet_hits k ops s = Some n →
  freq k (run ops s) = Some (f + Z.of_nat n)%Z.
Proof.
  induction ops as [|op ops IH]; intros s f n Hf Hq; simpl in *.
  - injection Hq as <-. by rewrite Z.add_0_r.
  - destruct (sweeps op s) eqn:Hsw; [done|].
    case_bool_decide as Hres; [|done].
    destruct (quiet_hits k ops (step op s)) as [m|] eqn:Hm; [|done].
    simpl in Hq. injection Hq as <-.
    pose proof (step_freq s k op f Hf Hsw Hres) as Hstep.
    rewrite (IH _ _ _ Hstep Hm). f_equal. destruct (hits k op s); lia.
Qed.

(** C8. Promotion count (LFU, modelled from the spec): a key created by a
    [put] enters at frequency 1; after [n] further successful [get]s or
    [put]s on it, interleaved with any operations on other keys, and as
    long as the key stays resident and no aging sweep fires, its frequency
    is [1 + n]. *)
Theorem lfu_promotion_count s k v ops (n : nat) :
  index s !! k = None → capacity s ≠ 0%Z →
  sweeps (OPut k v) s = false →
  quiet_hits k ops (put k v s) = Some n →
  freq k (put k v s) = Some 1%Z ∧
  freq k (run ops (put k v s)) = Some (1 + Z.of_nat n)%Z.
Proof.
  intros Hk Hc Hsw Hq. pose proof (put_new_freq s k v Hk Hc Hsw) as H1.
  split; [done|]. by apply (quiet_hits_freq k ops _ 1%Z n).
Qed.











End LfuFacts.

(** ** Overwrite, and the theorems at concrete caches *)

Section Overwrite.
Context {Key Value : Type} `{Countable Key}.
Context (Key0 : Key) (Value0 : Value).


End Overwrite.

Section Instances.
Local Open Scope Z_scope.
Import Lru.


(** Counterexample to C3 as stated: two slices, total capacity 2, and the
    two distinct keys 0 and 2, which the identity hash (that of
    [std::hash<int>] in libstdc++ and libc++) routes to the same slice of
    capacity 1: the first key is gone. *)
Lemma khash_readback_counterexample :
  ∃ h0 h1,
    KHash.new (Key := Z) (Value := Z) 0 0 8 2 2 = Some h0 ∧
    KHash.put_all (λ k, k) [(0, 10); (2, 20)] h0 = Some h1 ∧
    KHash.get (λ k, k) 0 7 h1 = Some (h1, (false, 7)).
Proof.
  eexists _, _. split; [vm_compute; reflexivity|].
  split; [vm_compute; reflexivity|]. vm_compute. reflexivity.
Qed.

(** The same loss under every hash function: of the keys 0, 1 and 2 two
    are routed to the same of two slices, and inserting those two loses the
    first. *)
Lemma khash_collision_for_every_hash :
  ∀ (Hash : Z → Z) (hardware_concurrency : Z),
  ∃ k1 k2, k1 ≠ k2 ∧
    ∃ h0 h1 h2,
      KHash.new (Key := Z) (Value := Z) 0 0 hardware_concurrency 2 2 = Some h0 ∧
      KHash.put_all Hash [(k1, 10); (k2, 20)] h0 = Some h1 ∧
      KHash.get Hash k1 7 h1 = Some (h2, (false, 7)).
Proof.
  intros Hash hc.
  destruct (two_of_three_collide (KHash.slice_of Hash 2%Z))
    as (k1 & k2 & Hne & _ & _ & Hsame).
  { intros x. by apply slice_of_bound. }
  exists k1, k2. split; [done|]. by apply collision_evicts.
Qed.

(** C7. The constructor computes [ceil(C / S)] and then loses it.  For
    the total capacity [C = 2^31] and one slice, [sliceSize] is [2^31],
    the per-slice capacity the claim states; passed to [LruCache(int)] it
    is converted to [-2^31], which the constructor of [LruCache] stores as
    capacity 0: the one slice accepts nothing, and a key just put is not
    found.  Above [2^53] the quotient formed in [double] can itself fall
    short of the exact one by 1. *)
Theorem khash_slice_capacity_narrowed :
  slice_size (2 ^ 31) 1 = Some (2 ^ 31) ∧
  ceil_div (2 ^ 31) 1 = 2 ^ 31 ∧
  to_int (2 ^ 31) = - 2 ^ 31 ∧
  (∃ h, KHash.new (Key := Z) (Value := Z) 0 0 8 (2 ^ 31) 1 = Some h ∧
        KHash.sliceNum_ h = 1 ∧
        capacity_ <$> KHash.lruSliceCaches_ h = [0]) ∧
  snd <$> KHash.exec (Key := Z) (Value := Z) 0 0 (λ k, k) 8 (2 ^ 31) 1
            [KHash.OPut 1 10; KHash.OGet 1 0]
  = Some [RUnit; RFound false 0] ∧
  slice_size (2 ^ 53 + 2 ^ 30 + 1) (2 ^ 23 + 1) = Some (2 ^ 30) ∧
  ceil_div (2 ^ 53 + 2 ^ 30 + 1) (2 ^ 23 + 1) = 2 ^ 30 + 1.
Proof.
  split; [vm_compute; reflexivity|]. split; [vm_compute; reflexivity|].
  split; [vm_compute; reflexivity|].
  split; [eexists; split; [vm_compute; reflexivity|];
          split; vm_compute; reflexivity|].
  split; [vm_compute; reflexivity|].
  split; vm_compute; reflexivity.
Qed.


(** *** The theorems at concrete caches (keys and values in [Z]) *)

Lemma lru_capacity_bound_witness :
  (0 ≤ 2 ≤ INT_MAX) ∧
  ∃ s rs, exec (Key := Z) (Value := Z) 0 0 2
            [OPut 1 10; OPut 2 20; OGet 1 0; OPut 3 30] = Some (s, rs) ∧
    capacity_ s = 2 ∧
    (Z.of_nat (size (nodeMap_ s)) ≤ 2) ∧
    ∀ k v, nodeMap_ s !! k = None → Z.of_nat (size (nodeMap_ s)) = 2 →
      (1 ≤ 2) →
      ∃ s' e, put k v s = Some s' ∧
        leastRecentKey s = Some e ∧ nodeMap_ s' !! e = None ∧
        is_Some (nodeMap_ s' !! k) ∧
        size (nodeMap_ s') = size (nodeMap_ s).
Proof.
  split; [unfold INT_MAX; lia|].
  apply (lru_capacity_bound 0 0 2 [OPut 1 10; OPut 2 20; OGet 1 0; OPut 3 30]).
  unfold INT_MAX; lia.
Defined.

Lemma lru_nonpositive_capacity_witness :
  (-3 ≤ 0) ∧
  ∃ s0, new (Key := Z) (Value := Z) 0 0 (-3) = Some s0 ∧
    capacity_ s0 = 0 ∧ nodeMap_ s0 = ∅ ∧ contents s0 = [] ∧
    (∀ k v, put k v s0 = Some s0) ∧
    (∀ k v, get k v s0 = Some (s0, (false, v))) ∧
    exec 0 0 (-3) [OPut 1 10; OGet 1 5; OPut 2 20; OGet1 2]
    = Some (s0, miss_ret 0 <$> [OPut 1 10; OGet 1 5; OPut 2 20; OGet1 2]).
Proof.
  split; [lia|].
  apply (lru_nonpositive_capacity 0 0 (-3)
           [OPut 1 10; OGet 1 5; OPut 2 20; OGet1 2]).
  lia.
Defined.

Lemma lru_get1_absent_witness :
  ∃ s rs, exec (Key := Z) (Value := Z) 0 0 2 [OPut 1 10; OPut 2 20]
          = Some (s, rs) ∧
    nodeMap_ s !! 9 = None ∧ get1 0 9 s = Some (s, 0).
Proof.
  eexists _, _. split; [vm_compute; reflexivity|].
  split; [vm_compute; reflexivity|].
  apply (lru_get1_absent 0). vm_compute. reflexivity.
Defined.

Lemma lru_get_absent_unchanged_witness :
  ∃ s rs, exec (Key := Z) (Value := Z) 0 0 2 [OPut 1 10; OPut 2 20]
          = Some (s, rs) ∧
    nodeMap_ s !! 9 = None ∧ get 9 5 s = Some (s, (false, 5)).
Proof.
  eexists _, _. split; [vm_compute; reflexivity|].
  split; [vm_compute; reflexivity|].
  apply lru_get_absent_unchanged. vm_compute. reflexivity.
Defined.

Lemma lru_evicts_least_recent_witness :
  (1 ≤ 2 ≤ INT_MAX) ∧
  ∃ s rs, exec (Key := Z) (Value := Z) 0 0 2
            [OPut 1 10; OPut 2 20; OGet 1 0] = Some (s, rs) ∧
    contents s = (model_run 0 2 [OPut 1 10; OPut 2 20; OGet 1 0] []).1 ∧
    (∀ k v, nodeMap_ s !! k = None →
       (capacity_ s ≤ Z.of_nat (size (nodeMap_ s))) →
       ∃ s' e ve rest, put k v s = Some s' ∧
         leastRecentKey s = Some e ∧ contents s = (e, ve) :: rest ∧
         contents s' = rest ++ [(k, v)] ∧
         nodeMap_ s' !! e = None ∧
         (∀ k', k' ≠ e → k' ≠ k → nodeMap_ s' !! k' = nodeMap_ s !! k')) ∧
    (∀ k node v0, nodeMap_ s !! k = Some node →
       ∃ s' v, get k v0 s = Some (s', (true, v)) ∧
         nodeMap_ s' = nodeMap_ s ∧ beforeTail s' node ∧
         contents s' = drop_key k (contents s) ++ [(k, v)]) ∧
    (∀ k node v, nodeMap_ s !! k = Some node →
       ∃ s', put k v s = Some s' ∧
         nodeMap_ s' = nodeMap_ s ∧ beforeTail s' node ∧
         contents s' = drop_key k (contents s) ++ [(k, v)]).
Proof.
  split; [unfold INT_MAX; lia|].
  eexists _, _. split; [vm_compute; reflexivity|].
  eapply (lru_evicts_least_recent 0 0 2 [OPut 1 10; OPut 2 20; OGet 1 0]).
  - unfold INT_MAX; lia.
  - vm_compute. reflexivity.
Defined.

Lemma lruk_admission_witness :
  (2 ≤ INT_MAX) ∧
  ∃ s, LruK.exec (Key := Z) (Value := Z) 0 0 2 3 2
         [LruK.OPut 1 10; LruK.OPut 1 11; LruK.OGet 2] = Some s ∧
    (∀ y, LruK.resident y s = true →
       (2 ≤ Z.of_nat (LruK.accesses y
              [LruK.OPut 1 10; LruK.OPut 1 11; LruK.OGet 2]))) ∧
    (LruK.resident 2 s = false →
     (∀ op, ∃ s', LruK.step 0 op s = Some s' ∧
        (LruK.resident 2 s' = true →
           LruK.access_key op = Some 2 ∧
           LruK.reached (LruK.historyCount 2 s) 2 = true ∧
           (2 ≤ LruK.historyCount 2 s))) ∧
     (∀ v, LruK.reached (LruK.historyCount 2 s) 2 = false →
        ∃ s', LruK.put 0 2 v s = Some s' ∧ LruK.resident 2 s' = false ∧
          Lru.nodeMap_ (LruK.base s') = Lru.nodeMap_ (LruK.base s) ∧
          LruK.historyValueMap_ s' !! 2 = Some v)).
Proof.
  split; [unfold INT_MAX; lia|].
  eexists. split; [vm_compute; reflexivity|].
  apply (lruk_admission 0 0 2 3 2
           [LruK.OPut 1 10; LruK.OPut 1 11; LruK.OGet 2]).
  - unfold INT_MAX; lia.
  - vm_compute. reflexivity.
Defined.

Lemma khash_balanced_readback_witness :
  (0 ≤ 4 < 2 ^ 53) ∧ (1 ≤ 2 ≤ INT_MAX) ∧ (ceil_div 4 2 ≤ INT_MAX) ∧
  NoDup [(0, 10); (1, 20); (2, 30); (3, 40)].*1 ∧
  Forall (λ i, (Z.of_nat (KHash.load (λ k, k) 2 i
                            [(0, 10); (1, 20); (2, 30); (3, 40)])
                ≤ ceil_div 4 2)) (seqZ 0 2) ∧
  ∃ h0 h1 h2,
    KHash.new (Key := Z) (Value := Z) 0 0 8 4 2 = Some h0 ∧
    KHash.put_all (λ k, k) [(0, 10); (1, 20); (2, 30); (3, 40)] h0 = Some h1 ∧
    KHash.get_all (λ k, k) [2; 0] 7 h1 = Some h2 ∧
    ∀ k v, (k, v) ∈ [(0, 10); (1, 20); (2, 30); (3, 40)] →
      ∃ h3, KHash.get (λ k, k) k 7 h2 = Some (h3, (true, v)).
Proof.
  split; [lia|]. split; [unfold INT_MAX; lia|].
  split; [vm_compute; discriminate|].
  split; [compute_done|]. split; [compute_done|].
  apply (khash_balanced_readback 0 0 (λ k, k) 8 4 2).
  - lia.
  - unfold INT_MAX; lia.
  - vm_compute. discriminate.
  - compute_done.
  - compute_done.
Defined.

Lemma lfu_promotion_count_witness :
  Lfu.index (Lfu.new (Key := Z) (Value := Z) 2 100) !! 1 = None ∧
  Lfu.capacity (Lfu.new (Key := Z) (Value := Z) 2 100) ≠ 0 ∧
  Lfu.sweeps (Lfu.OPut 1 10) (Lfu.new (Key := Z) (Value := Z) 2 100) = false ∧
  Lfu.quiet_hits 1 [Lfu.OGet 1; Lfu.OPut 2 20; Lfu.OPut 1 11; Lfu.OGet 3]
    (Lfu.put 1 10 (Lfu.new 2 100)) = Some 2%nat ∧
  Lfu.freq 1 (Lfu.put 1 10 (Lfu.new (Key := Z) (Value := Z) 2 100)) = Some 1 ∧
  Lfu.freq 1 (Lfu.run [Lfu.OGet 1; Lfu.OPut 2 20; Lfu.OPut 1 11; Lfu.OGet 3]
                (Lfu.put 1 10 (Lfu.new 2 100)))
  = Some (1 + Z.of_nat 2).
Proof.
  split; [vm_compute; reflexivity|]. split; [vm_compute; discriminate|].
  split; [vm_compute; reflexivity|]. split; [vm_compute; reflexivity|].
  apply (lfu_promotion_count (Lfu.new 2 100) 1 10
           [Lfu.OGet 1; Lfu.OPut 2 20; Lfu.OPut 1 11; Lfu.OGet 3] 2).
  - vm_compute. reflexivity.
  - vm_compute. discriminate.
  - vm_compute. reflexivity.
  - vm_compute. reflexivity.
Defined.


End Instances.

(** * Further properties

    What the code of the three classes guarantees beyond the claims above:
    the behaviour of [remove], what [put] and [get] leave alone, which
    values a lookup can return, and the edge cases of the constructors. *)

(** ** [LruCache] *)

Section LruMore.
Import Lru.
Context {Key Value : Type} `{Countable Key}.
Context (Key0 : Key) (Value0 : Value).
Implicit Types (s : LruCache Key Value) (l : list (Entry Key Value))
  (m : list (Key * Value)) (k : Key) (v : Value)
  (op : Op Key Value) (ops : list (Op Key Value)).

(** ** More facts about the list model *)

Lemma assoc_Some_elem m k v : assoc k m = Some v → (k, v) ∈ m.
Proof.
  induction m as [|[k' v'] m IH]; simpl; [done|]. case_decide as Hk.
  - intros [= ->]. subst. set_solver.
  - intros Hm. apply elem_of_cons. right. by apply IH.
Qed.

Lemma assoc_tail_Some m k v :
  NoDup m.*1 → assoc k (tail m) = Some v → assoc k m = Some v.
Proof.
  destruct m as [|[k' v'] m]; [done|]. rewrite fmap_cons. simpl.
  intros [Hk _]%NoDup_cons Hm. rewrite decide_False; [done|].
  intros ->. apply Hk. apply assoc_Some_elem in Hm.
  apply list_elem_of_fmap. by exists (k', v).
Qed.

Lemma assoc_snoc_ne m k k' v' : k ≠ k' → assoc k (m ++ [(k', v')]) = assoc k m.
Proof.
  intros Hne. rewrite assoc_app. destruct (assoc k m); [done|].
  simpl. by rewrite decide_False.
Qed.

(** A [put] never changes the value of another key: it can only drop
    it. *)
Lemma model_put_others cap m k v k' v' :
  NoDup m.*1 → k' ≠ k →
  assoc k' (model_put cap k v m) = Some v' → assoc k' m = Some v'.
Proof.
  intros Hnd Hne. unfold model_put. destruct (cap =? 0)%Z; [done|].
  destruct (assoc k m); rewrite assoc_snoc_ne by done.
  - by rewrite assoc_drop_key_ne by done.
  - case_match; [by apply assoc_tail_Some|done].
Qed.

(** A [put] of a resident key, or into a cache with room, drops nothing. *)
Lemma model_put_room cap m k v k' :
  k' ≠ k → is_Some (assoc k m) ∨ (Z.of_nat (length m) < cap)%Z →
  assoc k' (model_put cap k v m) = assoc k' m.
Proof.
  intros Hne Hroom. unfold model_put. destruct (cap =? 0)%Z; [done|].
  destruct (assoc k m) eqn:Hk; rewrite assoc_snoc_ne by done.
  - by rewrite assoc_drop_key_ne by done.
  - destruct Hroom as [[? [=]]|Hlt].
    destruct (Z.leb_spec cap (Z.of_nat (length m))); [lia|done].
Qed.

Lemma behind_snoc m k k' v' :
  k ≠ k' → behind k (m ++ [(k', v')]) = S <$> behind k m.
Proof.
  intros Hne. induction m as [|[k1 v1] m IH]; simpl.
  - by rewrite decide_False.
  - case_decide; [|done]. simpl. rewrite length_app. simpl.
    f_equal. lia.
Qed.

Lemma behind_drop_key m k k' b :
  k ≠ k' → behind k m = Some b →
  ∃ b', behind k (drop_key k' m) = Some b' ∧ b' ≤ b.
Proof.
  intros Hne. unfold drop_key. revert b.
  induction m as [|[k1 v1] m IH]; intros b; simpl; [done|].
  destruct (decide (k1 = k')) as [->|Hk1].
  - rewrite filter_cons_False by (simpl; auto).
    rewrite decide_False by done. apply IH.
  - rewrite filter_cons_True by done. simpl. case_decide.
    + intros [= <-]. eexists. split; [done|]. apply length_filter.
    + apply IH.
Qed.

Lemma behind_tail m k b :
  behind k m = Some b → S b < length m →
  behind k (tail m) = Some b ∧ assoc k (tail m) = assoc k m.
Proof.
  destruct m as [|[k1 v1] m]; simpl; [done|]. case_decide.
  - intros [= <-] ?. lia.
  - done.
Qed.

Lemma behind_app m1 m2 k :
  assoc k m1 = None → behind k (m1 ++ m2) = behind k m2.
Proof.
  induction m1 as [|[k1 v1] m1 IH]; simpl; [done|]. by case_decide.
Qed.

(** One operation on another key puts at most one more entry behind the
    entry of [k], and leaves its value alone, as long as the entry is not
    the one a full cache evicts. *)
Lemma model_step_behind cap op m k v b :
  op_key op ≠ k → assoc k m = Some v → behind k m = Some b →
  (Z.of_nat b + 1 < cap)%Z →
  ∃ b', behind k (model_step Value0 cap op m).1 = Some b' ∧ b' ≤ b + 1 ∧
    assoc k (model_step Value0 cap op m).1 = Some v.
Proof.
  intros Hop Hv Hb Hcap.
  assert (∀ k' v', k' ≠ k →
    ∃ b', behind k (drop_key k' m ++ [(k', v')]) = Some b' ∧ b' ≤ b + 1 ∧
      assoc k (drop_key k' m ++ [(k', v')]) = Some v) as Hmove.
  { intros k' v' Hne.
    destruct (behind_drop_key m k k' b) as (b' & Hb' & Hle); [done..|].
    exists (S b'). rewrite behind_snoc, Hb' by done.
    rewrite assoc_snoc_ne, assoc_drop_key_ne by done.
    split_and!; [done|lia|done]. }
  destruct op as [k' v'|k' v0|k'|k']; simpl in Hop; simpl.
  - unfold model_put. destruct (Z.eqb_spec cap 0); [lia|].
    destruct (assoc k' m); [by apply Hmove|].
    exists (S b). rewrite behind_snoc, assoc_snoc_ne by done.
    destruct (Z.leb_spec cap (Z.of_nat (length m))).
    + destruct (behind_tail m k b Hb) as [-> ->]; [lia|].
      split_and!; [done|lia|done].
    + rewrite Hb. split_and!; [done|lia|done].
  - unfold model_get. destruct (assoc k' m); simpl; [by apply Hmove|].
    exists b. split_and!; [done|lia|done].
  - unfold model_get. destruct (assoc k' m); simpl; [by apply Hmove|].
    exists b. split_and!; [done|lia|done].
  - unfold model_remove.
    destruct (behind_drop_key m k k' b) as (b' & Hb' & Hle); [done..|].
    exists b'. rewrite assoc_drop_key_ne by done. split_and!; [done|lia|done].
Qed.

(** After one operation a value found for [k] is the one the operations
    so far wrote last. *)
Lemma model_step_note cap op m k acc v :
  NoDup m.*1 → (Z.of_nat (length m) ≤ cap)%Z →
  (∀ w, assoc k m = Some w → acc = Some w) →
  assoc k (model_step Value0 cap op m).1 = Some v →
  note_write k op acc = Some v.
Proof.
  intros Hnd Hlen Hacc. destruct op as [k' v'|k' v0|k'|k']; simpl.
  - destruct (decide (k' = k)) as [->|Hne].
    + destruct (decide (cap = 0%Z)) as [->|Hc].
      * destruct m; [|simpl in Hlen; lia]. done.
      * by rewrite assoc_model_put.
    + intros Hv. apply Hacc. eapply model_put_others; [done| |done]. auto.
  - pose proof (assoc_model_get m k k' v0) as Hg.
    destruct (model_get k' v0 m) as [? [??]]. simpl in *. rewrite Hg. auto.
  - pose proof (assoc_model_get m k k' Value0) as Hg.
    destruct (model_get k' Value0 m) as [? [??]]. simpl in *. rewrite Hg. auto.
  - unfold model_remove. destruct (decide (k' = k)) as [->|Hne].
    + by rewrite assoc_drop_key.
    + rewrite assoc_drop_key_ne by auto. auto.
Qed.

Lemma drop_key_twice m k : drop_key k (drop_key k m) = drop_key k m.
Proof.
  unfold drop_key. induction m as [|[k' v'] m IH]; [done|].
  destruct (decide (k' = k)) as [->|Hne].
  - by rewrite filter_cons_False by (simpl; auto).
  - rewrite filter_cons_True by done. rewrite filter_cons_True by done.
    by rewrite IH.
Qed.

(** A second [get] of the same key leaves the list as the first did. *)
Lemma model_get_twice m k v0 :
  (model_get k v0 (model_get k v0 m).1).1 = (model_get k v0 m).1.
Proof.
  unfold model_get at 2 3. destruct (assoc k m) as [v|] eqn:Hk; simpl.
  - unfold model_get. rewrite assoc_app, assoc_drop_key. simpl.
    rewrite decide_True by done. simpl. f_equal.
    unfold drop_key at 1. rewrite filter_app.
    rewrite filter_cons_False by (simpl; auto). rewrite filter_nil, app_nil_r.
    apply drop_key_twice.
  - unfold model_get. by rewrite Hk.
Qed.

Lemma newest_app n m1 m2 : newest n (newest n m1 ++ m2) = newest n (m1 ++ m2).
Proof.
  unfold newest. rewrite <-(drop_app_le m1 m2 (length m1 - n)) by lia.
  rewrite drop_drop. f_equal. rewrite length_drop, !length_app. lia.
Qed.

(** A [put] of a new key keeps the newest entries. *)
Lemma model_put_fresh cap m k v :
  (1 ≤ cap)%Z → assoc k m = None → (Z.of_nat (length m) ≤ cap)%Z →
  model_put cap k v m = newest (Z.to_nat cap) (m ++ [(k, v)]).
Proof.
  intros Hc Hk Hlen. unfold model_put, newest.
  destruct (Z.eqb_spec cap 0); [lia|]. rewrite Hk, length_app. simpl.
  destruct (Z.leb_spec cap (Z.of_nat (length m))).
  - replace (length m + 1 - Z.to_nat cap) with 1 by lia.
    destruct m; [simpl in *; lia|done].
  - by replace (length m + 1 - Z.to_nat cap) with 0 by lia.
Qed.

(** ** Reached states *)

Lemma keys_deleted_absent l1 (e : Entry Key Value) l2 :
  NoDup (ekey <$> l1 ++ e :: l2) → ekey e ∉ ekey <$> l1 ++ l2.
Proof.
  rewrite !fmap_app, fmap_cons. intros Hnd.
  apply NoDup_app in Hnd as (_ & H2 & H3). apply NoDup_cons in H3 as [H3 _].
  intros [Hin|Hin]%elem_of_app; [|done]. apply (H2 _ Hin). set_solver.
Qed.

Lemma rep_nodup_kv s l : rep s l → NoDup (ekv <$> l).*1.
Proof. intros [_ _ Hk]. by rewrite ekv_fst. Qed.

Lemma rep_contents s l : rep s l → contents s = ekv <$> l.
Proof. intros Hr. apply contents_rep, Hr. Qed.

(** [get] on a state that satisfies the invariant: the result is read off
    the recency list, and nothing but the order of the list changes. *)
Lemma get_observes s l k v0 :
  rep s l →
  ∃ s' l', get k v0 s
           = Some (s', match assoc k (ekv <$> l) with
                       | Some v => (true, v)
                       | None => (false, v0)
                       end) ∧
    rep s' l' ∧ capacity_ s' = capacity_ s ∧ nodeMap_ s' = nodeMap_ s ∧
    l' ≡ₚ l ∧ ekv <$> l' = (model_get k v0 (ekv <$> l)).1.
Proof.
  intros Hr. unfold model_get.
  destruct (decide (k ∈ ekey <$> l)) as [Hin|Hnin].
  - apply key_split in Hin as (l1 & e & l2 & -> & <-).
    pose proof Hr as [_ _ Hk].
    destruct (get_hit _ _ _ _ v0 Hr) as (s' & Hs' & Hf & Hr').
    exists s', (l1 ++ l2 ++ [e]).
    rewrite assoc_ekv_Some, drop_key_ekv by done. simpl.
    split_and!; [done|done|apply Hf|apply Hf|solve_Permutation|].
    by rewrite app_assoc, fmap_app.
  - exists s, l. rewrite assoc_ekv_None by done. simpl.
    by rewrite (get_miss _ _ _ _ Hr Hnin).
Qed.

(** A cache of non-zero capacity takes [k] with [v], and a lookup then
    finds it. *)
Lemma main_takes s l k v :
  rep s l → capacity_ s ≠ 0%Z →
  ∃ s' l', put k v s = Some s' ∧ rep s' l' ∧
    capacity_ s' = capacity_ s ∧
    is_Some (nodeMap_ s' !! k) ∧
    ∀ v0, ∃ s'', get k v0 s' = Some (s'', (true, v)).
Proof.
  intros Hr Hc.
  destruct (put_refines s l k v Hr) as (s' & l' & Hp & Hr' & Hc' & Hl').
  assert (assoc k (ekv <$> l') = Some v) as Hv.
  { rewrite Hl'. by apply assoc_model_put. }
  exists s', l'. split_and!; [done..| |].
  - apply not_eq_None_Some. intros Hn.
    apply (rep_resident _ _ _ Hr') in Hn. congruence.
  - intros v0. destruct (get_observes s' l' k v0 Hr') as (s'' & ? & Hg & _).
    rewrite Hv in Hg. by exists s''.
Qed.

(** The run of [ops'] keeps an entry that has few enough entries behind
    it. *)
Lemma run_survives k v ops' : ∀ s l b,
  rep s l → Forall (λ op, op_key op ≠ k) ops' →
  assoc k (ekv <$> l) = Some v → behind k (ekv <$> l) = Some b →
  (Z.of_nat (b + length ops') < capacity_ s)%Z →
  ∃ s' l' rs', run Value0 ops' s = Some (s', rs') ∧ rep s' l' ∧
    assoc k (ekv <$> l') = Some v.
Proof.
  induction ops' as [|op ops' IH]; intros s l b Hr Hops Hv Hb Hcap.
  { exists s, l, []. done. }
  apply Forall_cons in Hops as [Hop Hops]. cbn [run].
  destruct (step_refines Value0 s l op Hr) as (s1 & l1 & -> & Hr1 & Hc1 & Hl1).
  cbn [mbind option_bind].
  destruct (model_step_behind (capacity_ s) op (ekv <$> l) k v b)
    as (b1 & Hb1 & Hle & Hv1); [done..|simpl in Hcap; lia|].
  rewrite <-Hl1 in Hb1, Hv1.
  destruct (IH s1 l1 b1 Hr1 Hops Hv1 Hb1) as (s2 & l2 & rs & -> & Hr2 & Hv2).
  { rewrite Hc1. simpl in Hcap. lia. }
  cbn [mbind option_bind]. by eexists s2, l2, _.
Qed.

(** Along a run, a value found for [k] is the one written last. *)
Lemma run_last_write k ops : ∀ s l acc,
  rep s l → (Z.of_nat (length l) ≤ capacity_ s)%Z →
  (∀ w, assoc k (ekv <$> l) = Some w → acc = Some w) →
  ∃ s' l' rs, run Value0 ops s = Some (s', rs) ∧ rep s' l' ∧
    ∀ w, assoc k (ekv <$> l') = Some w → last_write k ops acc = Some w.
Proof.
  induction ops as [|op ops IH]; intros s l acc Hr Hlen Hacc.
  { exists s, l, []. done. }
  cbn [run last_write].
  destruct (step_refines Value0 s l op Hr) as (s1 & l1 & -> & Hr1 & Hc1 & Hl1).
  cbn [mbind option_bind].
  assert (0 ≤ capacity_ s)%Z as Hnn by lia.
  pose proof (model_step_length Value0 (capacity_ s) op (ekv <$> l) Hnn) as Hlen1.
  rewrite length_fmap, <-Hl1, length_fmap in Hlen1. specialize (Hlen1 Hlen).
  destruct (IH s1 l1 (note_write k op acc) Hr1) as (s2 & l2 & rs & -> & Hr2 & Hw).
  { by rewrite Hc1. }
  { intros w Hw. rewrite Hl1 in Hw.
    apply (model_step_note (capacity_ s) op (ekv <$> l) k acc w);
      [by eapply rep_nodup_kv|by rewrite length_fmap|exact Hacc|exact Hw]. }
  cbn [mbind option_bind]. by eexists s2, l2, _.
Qed.

(** ** Further properties of [LruCache] *)

(** X1. Every sequence of [put], [get] and [remove] calls on a cache built
    by the constructor runs to its end: no null pointer is dereferenced
    and the assertion of [insertNode] holds.  The values the calls return
    and the recency list they leave are those of the list model, in which
    [put] appends (dropping the head when full) or moves to the back, a
    [get] hit moves to the back and [remove] deletes. *)
Theorem lru_run_refines (c : Z) (ops : list (Op Key Value)) :
  ∃ s, exec Key0 Value0 c ops
       = Some (s, (model_run Value0 (stored_capacity c) ops []).2) ∧
    capacity_ s = stored_capacity c ∧
    contents s = (model_run Value0 (stored_capacity c) ops []).1.
Proof.
  destruct (exec_refines Key0 Value0 c ops) as (s & l & He & Hr & Hc & Hl).
  exists s. split_and!; [done..|]. by rewrite (rep_contents _ _ Hr).
Qed.

(** X2. The index and the linked list of a reached cache always agree: no
    key is linked twice, the index has as many keys as the list has nodes,
    a key is in the index exactly when a node with it is linked, and the
    pointer the index holds for a key leads to a linked node, never a
    sentinel, that carries this key. *)
Theorem lru_index_matches_list (c : Z) (ops : list (Op Key Value)) :
  ∃ s rs, exec Key0 Value0 c ops = Some (s, rs) ∧
    NoDup (contents s).*1 ∧
    size (nodeMap_ s) = length (contents s) ∧
    (∀ k, is_Some (nodeMap_ s !! k) ↔ k ∈ (contents s).*1) ∧
    (∀ k p, nodeMap_ s !! k = Some p →
       p ≠ dummyHead_ s ∧ p ≠ dummyTail_ s ∧
       keyOf (heap_ s) p = Some k ∧
       ∃ v, valueOf (heap_ s) p = Some v ∧ (k, v) ∈ contents s).
Proof.
  destruct (exec_refines Key0 Value0 c ops) as (s & l & He & Hr & Hc & Hl).
  eexists s, _. split; [exact He|]. rewrite (rep_contents _ _ Hr).
  split_and!.
  - by eapply rep_nodup_kv.
  - by rewrite (rep_size _ _ Hr), length_fmap.
  - intros k. rewrite ekv_fst, <-not_eq_None_Some.
    rewrite (rep_lookup_None _ _ _ Hr). split; [|auto].
    intros Hk. by destruct (decide (k ∈ ekey <$> l)).
  - intros k p Hk.
    destruct (rep_lookup_Some _ _ _ _ Hr Hk) as (l1 & e & l2 & -> & <- & <-).
    destruct Hr as [[_ Hnd Hce] _ _].
    apply Forall_app in Hce as [_ Hce]. apply Forall_cons in Hce as [[Hke Hve] _].
    rewrite fmap_app, fmap_cons in Hnd.
    apply NoDup_cons in Hnd as [Hhd Hnd].
    apply NoDup_app in Hnd as (_ & Htl & _).
    split_and!; [| |done|].
    + intros Heq. apply Hhd. rewrite <-Heq. set_solver.
    + intros Heq. apply (Htl (eptr e)); [|set_solver]. set_solver.
    + exists (evalue e). split; [done|]. rewrite fmap_app, fmap_cons. set_solver.
Qed.

(** X3. [remove]: on a reached cache the call returns; afterwards the key
    is out of the index and its node out of the list, every other entry
    keeps its place, the capacity is unchanged and a [get] of the key
    misses.  Removing a key that is not in the index changes nothing. *)
Theorem lru_remove_erases (c : Z) (ops : list (Op Key Value)) :
  ∃ s rs, exec Key0 Value0 c ops = Some (s, rs) ∧
    ∀ k, ∃ s', remove k s = Some s' ∧
      capacity_ s' = capacity_ s ∧
      nodeMap_ s' = delete k (nodeMap_ s) ∧
      contents s' = drop_key k (contents s) ∧
      (∀ v0, get k v0 s' = Some (s', (false, v0))) ∧
      (nodeMap_ s !! k = None → s' = s).
Proof.
  destruct (exec_refines Key0 Value0 c ops) as (s & l & He & Hr & Hc & Hl).
  eexists s, _. split; [exact He|]. intros k.
  rewrite (rep_contents _ _ Hr).
  destruct (decide (k ∈ ekey <$> l)) as [Hin|Hnin].
  - apply key_split in Hin as (l1 & e & l2 & -> & <-).
    pose proof Hr as [_ Hm Hk].
    destruct (remove_hit _ _ _ _ Hr) as (s' & Hs' & Hc' & Hr').
    exists s'. split_and!; [done|done| | | |].
    + pose proof Hr' as [_ Hm' _]. rewrite Hm, Hm'. symmetry.
      by apply index_deleted.
    + by rewrite (rep_contents _ _ Hr'), drop_key_ekv.
    + intros v0. apply (get_miss _ _ _ _ Hr'). by eapply keys_deleted_absent.
    + intros Hnone. apply (rep_lookup_None _ _ _ Hr) in Hnone.
      exfalso. apply Hnone. rewrite fmap_app, fmap_cons. set_solver.
  - rewrite (remove_miss _ _ _ Hr Hnin). exists s.
    pose proof Hnin as Hnone. apply (rep_lookup_None _ _ _ Hr) in Hnone.
    split_and!; [done|done| | | |done].
    + by rewrite delete_id.
    + by rewrite drop_key_absent, (rep_contents _ _ Hr) by done.
    + intros v0. by apply (get_miss _ _ _ _ Hr).
Qed.

(** X4. [put] and the other keys.  On a reached cache a [put] of [k]
    returns, and it never alters what is stored for another key: a value a
    later [get] finds for another key was there before.  When [k] is
    already in the index, or the index holds fewer keys than the capacity,
    nothing is evicted: a [get] of any other key answers after the [put]
    as it would have before. *)
Theorem lru_put_keeps_other_keys (c : Z) (ops : list (Op Key Value)) :
  ∃ s rs, exec Key0 Value0 c ops = Some (s, rs) ∧
    ∀ k v, ∃ s', put k v s = Some s' ∧
      (∀ k' v0 s2 v', k' ≠ k →
         get k' v0 s' = Some (s2, (true, v')) →
         ∃ s1, get k' v0 s = Some (s1, (true, v'))) ∧
      (is_Some (nodeMap_ s !! k) ∨
       (Z.of_nat (size (nodeMap_ s)) < capacity_ s)%Z →
       ∀ k' v0, k' ≠ k →
         ∃ s1 s2 r, get k' v0 s = Some (s1, r) ∧ get k' v0 s' = Some (s2, r)).
Proof.
  destruct (exec_refines Key0 Value0 c ops) as (s & l & He & Hr & Hc & Hl).
  eexists s, _. split; [exact He|]. intros k v.
  destruct (put_refines s l k v Hr) as (s' & l' & Hs' & Hr' & Hc' & Hl').
  exists s'. split; [done|]. split.
  - intros k' v0 s2 v' Hne Hg.
    destruct (get_observes s' l' k' v0 Hr') as (s2' & ? & Hg' & _).
    destruct (get_observes s l k' v0 Hr) as (s1 & ? & Hg1 & _).
    exists s1. rewrite Hg1. rewrite Hg in Hg'.
    destruct (assoc k' (ekv <$> l')) as [w|] eqn:Hw; [|done].
    injection Hg' as _ ->. rewrite Hl' in Hw.
    apply model_put_others in Hw; [|by eapply rep_nodup_kv|done].
    by rewrite Hw.
  - intros Hroom k' v0 Hne.
    destruct (get_observes s' l' k' v0 Hr') as (s2 & ? & Hg2 & _).
    destruct (get_observes s l k' v0 Hr) as (s1 & ? & Hg1 & _).
    eexists s1, s2, _. split; [exact Hg1|]. rewrite Hg2, Hl'.
    rewrite model_put_room; [done|done|].
    destruct Hroom as [Hin|Hlt].
    + left. apply not_eq_None_Some. apply not_eq_None_Some in Hin.
      intros Hn. apply Hin. by apply (rep_resident _ _ _ Hr).
    + right. by rewrite length_fmap, <-(rep_size _ _ Hr).
Qed.

(** X5. [get] only reorders.  On a reached cache a [get] returns and
    leaves the capacity and the index as they were; the recency list
    afterwards is a permutation of the one before, so that a [get] of any
    key answers after it as it would have before; and repeating the same
    [get] returns the same answer and leaves the list as the first call
    left it. *)
Theorem lru_get_only_reorders (c : Z) (ops : list (Op Key Value)) :
  ∃ s rs, exec Key0 Value0 c ops = Some (s, rs) ∧
    ∀ k v0, ∃ s' r, get k v0 s = Some (s', r) ∧
      capacity_ s' = capacity_ s ∧ nodeMap_ s' = nodeMap_ s ∧
      contents s' ≡ₚ contents s ∧
      (∀ k' v1, ∃ s1 s2 r',
         get k' v1 s = Some (s1, r') ∧ get k' v1 s' = Some (s2, r')) ∧
      (∃ s'', get k v0 s' = Some (s'', r) ∧ contents s'' = contents s').
Proof.
  destruct (exec_refines Key0 Value0 c ops) as (s & l & He & Hr & Hc & Hl).
  eexists s, _. split; [exact He|]. intros k v0.
  destruct (get_observes s l k v0 Hr) as (s' & l' & Hg & Hr' & Hc' & Hm' & Hp & Hl').
  eexists s', _. split; [exact Hg|]. split_and!; [done|done| | |].
  - rewrite (rep_contents _ _ Hr), (rep_contents _ _ Hr').
    by apply fmap_Permutation.
  - intros k' v1.
    destruct (get_observes s l k' v1 Hr) as (s1 & ? & Hg1 & _).
    destruct (get_observes s' l' k' v1 Hr') as (s2 & ? & Hg2 & _).
    eexists s1, s2, _. split; [exact Hg1|].
    by rewrite Hg2, Hl', assoc_model_get.
  - destruct (get_observes s' l' k v0 Hr') as (s2 & l2 & Hg2 & Hr2 & _ & _ & _ & Hl2).
    exists s2. split.
    + by rewrite Hg2, Hl', assoc_model_get.
    + rewrite (rep_contents _ _ Hr'), (rep_contents _ _ Hr2), Hl2, Hl'.
      apply model_get_twice.
Qed.

(** X6. What was used recently survives.  Take a reached cache of capacity
    [c] in which the entry of [k] has [n] entries behind it in the recency
    list.  Then [k] is still found, with the same value, after any
    sequence of fewer than [c - n] operations on other keys, whatever they
    are: insertions, hits, misses or removals. *)
Theorem lru_recent_entry_survives (c : Z) (ops ops' : list (Op Key Value))
    (s : LruCache Key Value) (rs : list (Ret Value))
    (older newer : list (Key * Value)) (k : Key) (v v0 : Value) :
  (c ≤ INT_MAX)%Z →
  exec Key0 Value0 c ops = Some (s, rs) →
  contents s = older ++ (k, v) :: newer →
  Forall (λ op, op_key op ≠ k) ops' →
  (Z.of_nat (length newer + length ops') < c)%Z →
  ∃ s' rs' s'', run Value0 ops' s = Some (s', rs') ∧
    get k v0 s' = Some (s'', (true, v)).
Proof.
  intros Hc He Hcont Hops Hlen.
  destruct (exec_rep _ _ _ _ _ _ He) as (l & Hr & Hcap & _).
  rewrite stored_capacity_int in Hcap by lia.
  rewrite (rep_contents _ _ Hr) in Hcont.
  pose proof (rep_nodup_kv _ _ Hr) as Hnd. rewrite Hcont in Hnd.
  assert (assoc k older = None) as Hold.
  { apply assoc_None. rewrite fmap_app, fmap_cons in Hnd.
    apply NoDup_app in Hnd as (_ & Hnd & _). intros Hin.
    apply (Hnd k Hin). set_solver. }
  destruct (run_survives k v ops' s l (length newer) Hr Hops)
    as (s' & l' & rs' & Hrun & Hr' & Hv).
  - rewrite Hcont, assoc_app, Hold. simpl. by rewrite decide_True.
  - rewrite Hcont, behind_app by done. simpl. by rewrite decide_True.
  - by rewrite Hcap.
  - destruct (get_observes s' l' k v0 Hr') as (s'' & ? & Hg & _).
    rewrite Hv in Hg. by exists s', rs', s''.
Qed.

(** X7. No stale values.  On a reached cache a [get] either misses, leaving
    the reference argument alone, or returns the value of the last [put]
    of that key in the history of the cache, and then no [remove] of the
    key has followed that [put].  In particular a key that was never put,
    or was removed and not put again, is not found. *)
Theorem lru_get_returns_last_put (c : Z) (ops : list (Op Key Value)) :
  ∃ s rs, exec Key0 Value0 c ops = Some (s, rs) ∧
    ∀ k v0, ∃ s' r, get k v0 s = Some (s', r) ∧
      (r = (false, v0) ∨
       ∃ v, r = (true, v) ∧ last_write k ops None = Some v).
Proof.
  destruct (exec_refines Key0 Value0 c ops) as (s & l & He & Hr & Hc & Hl).
  eexists s, _. split; [exact He|]. intros k v0.
  destruct (lru_new_spec Key0 Value0 c) as (s0 & Hs0 & Hr0 & Hc0).
  destruct (run_last_write k ops s0 [] None Hr0) as (s1 & l1 & rs & Hrun & Hr1 & Hw).
  { rewrite Hc0. simpl. apply stored_capacity_nonneg. }
  { done. }
  unfold exec in He. rewrite Hs0 in He. simpl in He. rewrite Hrun in He.
  injection He as -> _.
  destruct (get_observes s l1 k v0 Hr1) as (s' & ? & Hg & _).
  eexists s', _. split; [exact Hg|].
  destruct (assoc k (ekv <$> l1)) as [w|] eqn:Hk; [|by left].
  right. exists w. split; [done|]. by apply Hw.
Qed.

(** Insertions of new keys, one after the other. *)
Lemma run_fresh_puts (kvs : list (Key * Value)) : ∀ s l,
  rep s l → (1 ≤ capacity_ s)%Z → (Z.of_nat (length l) ≤ capacity_ s)%Z →
  NoDup kvs.*1 → (∀ k, k ∈ kvs.*1 → assoc k (ekv <$> l) = None) →
  ∃ s' l' rs, run Value0 ((λ kv, OPut kv.1 kv.2) <$> kvs) s = Some (s', rs) ∧
    rep s' l' ∧
    ekv <$> l' = newest (Z.to_nat (capacity_ s)) ((ekv <$> l) ++ kvs).
Proof.
  induction kvs as [|[k v] kvs IH]; intros s l Hr Hc Hlen Hnd Hfresh.
  { exists s, l, []. split_and!; [done..|]. rewrite app_nil_r.
    unfold newest. rewrite length_fmap.
    by replace (length l - Z.to_nat (capacity_ s)) with 0 by lia. }
  rewrite fmap_cons in Hnd. apply NoDup_cons in Hnd as [Hk Hnd].
  rewrite fmap_cons. cbn [run step fst snd].
  destruct (put_refines s l k v Hr) as (s1 & l1 & -> & Hr1 & Hc1 & Hl1).
  cbn [mbind option_bind].
  rewrite model_put_fresh in Hl1;
    [|done|apply Hfresh; set_solver|by rewrite length_fmap].
  destruct (IH s1 l1 Hr1) as (s2 & l2 & rs & -> & Hr2 & Hl2).
  - by rewrite Hc1.
  - rewrite Hc1, <-(length_fmap ekv), Hl1. unfold newest.
    rewrite length_drop, length_app, length_fmap. simpl. lia.
  - done.
  - intros k' Hk'. rewrite Hl1. apply assoc_None. intros Hin.
    apply list_elem_of_fmap in Hin as ([k1 v1] & -> & Hin). simpl in *.
    unfold newest in Hin. apply subseteq_drop in Hin.
    apply elem_of_app in Hin as [Hin|Hin].
    + assert (assoc k1 (ekv <$> l) = None) as Hn by (apply Hfresh; set_solver).
      apply assoc_None in Hn. apply Hn. apply list_elem_of_fmap.
      by exists (k1, v1).
    + apply list_elem_of_singleton in Hin. injection Hin as -> _. done.
  - cbn [mbind option_bind]. eexists s2, l2, _. split_and!; [done..|].
    rewrite Hl2, Hc1, Hl1, newest_app. by rewrite <-app_assoc.
Qed.

(** X18. Insertions keep the newest entries.  When new, distinct keys are
    put one after the other into a reached cache of capacity [c >= 1], the
    cache afterwards holds exactly the [c] newest entries of the old
    recency list followed by the inserted pairs, in this order: entries
    leave in the order in which they were last used. *)
Theorem lru_insertions_keep_newest (c : Z) (ops : list (Op Key Value))
    (s : LruCache Key Value) (rs : list (Ret Value))
    (kvs : list (Key * Value)) :
  (1 ≤ c ≤ INT_MAX)%Z →
  exec Key0 Value0 c ops = Some (s, rs) →
  NoDup kvs.*1 → (∀ k, k ∈ kvs.*1 → nodeMap_ s !! k = None) →
  ∃ s' rs', run Value0 ((λ kv, OPut kv.1 kv.2) <$> kvs) s = Some (s', rs') ∧
    contents s' = newest (Z.to_nat c) (contents s ++ kvs).
Proof.
  intros Hc He Hnd Hfresh.
  destruct (exec_rep _ _ _ _ _ _ He) as (l & Hr & Hcap & Hlen).
  rewrite stored_capacity_int in Hcap, Hlen by lia.
  destruct (run_fresh_puts kvs s l Hr) as (s' & l' & rs' & Hrun & Hr' & Hl');
    [lia|lia|done| |].
  { intros k Hk. apply (rep_resident _ _ _ Hr). by apply Hfresh. }
  exists s', rs'. split; [done|].
  by rewrite (rep_contents _ _ Hr'), (rep_contents _ _ Hr), Hl', Hcap.
Qed.

End LruMore.

(** ** [LruKCache] *)

Section LruKMore.
Import LruK.
Context {Key Value : Type} `{Countable Key}.
Context (Key0 : Key) (Value0 : Value).
Implicit Types (s : LruKCache Key Value) (x y : Key) (v w : Value)
  (h : Lru.LruCache Key Z) (b : Lru.LruCache Key Value)
  (op : Op Key Value) (ops : list (Op Key Value)).

Lemma to_size_t_neg (z : Z) :
  (- 2 ^ 64 ≤ z < 0)%Z → to_size_t z = (2 ^ 64 + z)%Z.
Proof.
  intros Hz. unfold to_size_t. symmetry.
  apply (Z.mod_unique_pos z (2 ^ 64) (-1)); lia.
Qed.

Lemma resident_false x s :
  resident x s = false ↔ Lru.nodeMap_ (base s) !! x = None.
Proof.
  unfold resident. rewrite bool_decide_eq_false. symmetry.
  apply eq_None_not_Some.
Qed.

Lemma main_miss x s v0 :
  resident x s = false →
  Lru.get x v0 (base s) = Some (base s, (false, v0)).
Proof. intros Hx%resident_false. unfold Lru.get. by rewrite Hx. Qed.

(** Removing [x] from the history leaves no count for it. *)
Lemma history_forgets h x :
  Lru.wf h →
  ∃ h', Lru.remove x h = Some h' ∧ Lru.wf h' ∧ Lru.nodeMap_ h' !! x = None.
Proof.
  intros [l Hr].
  destruct (remove_refines h l x Hr) as (h' & l' & Hrm & Hr' & _ & Hl').
  exists h'. split_and!; [done|by exists l'|].
  apply (rep_resident _ _ _ Hr'). rewrite Hl'. apply assoc_drop_key.
Qed.

(** The cache as the constructor leaves it. *)
Lemma new_fresh (c hc k : Z) :
  ∃ s0, new Key0 Value0 c hc k = Some s0 ∧ wf s0 ∧ k_ s0 = k ∧
    Lru.capacity_ (base s0) = Lru.stored_capacity c ∧
    (∀ y, resident y s0 = false) ∧ historyValueMap_ s0 = ∅ ∧
    Lru.contents (historyList_ s0) = [].
Proof.
  unfold new.
  destruct (lru_new_spec Key0 Value0 c) as (b0 & -> & Hrb & Hcb).
  destruct (lru_new_spec Key0 0%Z hc) as (h0 & -> & Hrh & _). simpl.
  eexists. split; [done|]. split_and!; simpl; [|done|done| |done|].
  - split; simpl; by eexists.
  - intros y. apply resident_false. simpl. destruct Hrb as [_ -> _].
    simpl. apply lookup_empty.
  - by rewrite (rep_contents _ _ Hrh).
Qed.

(** Where the keys of the main cache and of the value map come from, and
    what one operation leaves alone. *)
Lemma step_origin s op :
  wf s →
  ∃ s', step Value0 op s = Some s' ∧ wf s' ∧ k_ s' = k_ s ∧
    Lru.capacity_ (base s') = Lru.capacity_ (base s) ∧
    (∀ y, resident y s' = true →
       resident y s = true ∨ is_Some (historyValueMap_ s !! y) ∨
       ∃ v, op = OPut y v) ∧
    (∀ y, is_Some (historyValueMap_ s' !! y) →
       is_Some (historyValueMap_ s !! y) ∨ ∃ v, op = OPut y v).
Proof.
  intros [Hb Hh]. destruct op as [x v|x|x v|x]; simpl.
  - unfold put.
    destruct (get_wf (base s) x Value0 Hb)
      as (b1 & inMain & ev & -> & Hb1 & Hm1 & Hc1 & Hin & _ & _).
    simpl. destruct inMain.
    + destruct (put_wf b1 x v Hb1) as (b2 & -> & Hb2 & Hc2 & Hres & _). simpl.
      eexists. split; [done|]. split_and!; simpl; try done; [congruence| |auto].
      intros y Hy. destruct (decide (y = x)) as [->|Hne]; [eauto|].
      left. apply resident_true. apply resident_true in Hy. simpl in Hy.
      rewrite <-Hm1. by apply Hres.
    + destruct (bump_spec _ x Hh) as (h1 & c & h2 & Hg & Hp & Hh2 & _ & _).
      rewrite Hg. simpl. rewrite Hp. simpl.
      destruct (reached (to_size_t (c + 1)) (k_ s)).
      * destruct (remove_wf h2 x Hh2) as (h3 & -> & Hh3 & _). simpl.
        destruct (put_wf b1 x v Hb1) as (b2 & -> & Hb2 & Hc2 & Hres & _). simpl.
        eexists. split; [done|]. split_and!; simpl; try done; [congruence| |].
        -- intros y Hy. destruct (decide (y = x)) as [->|Hne]; [eauto|].
           left. apply resident_true. apply resident_true in Hy. simpl in Hy.
           rewrite <-Hm1. by apply Hres.
        -- intros y Hy. destruct (decide (y = x)) as [->|Hne]; [eauto|].
           left. by rewrite lookup_delete_ne, lookup_insert_ne in Hy.
      * eexists. split; [done|]. split_and!; simpl; try done.
        -- intros y Hy. left. apply resident_true. apply resident_true in Hy.
           simpl in Hy. by rewrite <-Hm1.
        -- intros y Hy. destruct (decide (y = x)) as [->|Hne]; [eauto|].
           left. by rewrite lookup_insert_ne in Hy.
  - unfold get.
    destruct (get_wf (base s) x Value0 Hb)
      as (b1 & inMain & ev & -> & Hb1 & Hm1 & Hc1 & Hin & _ & _).
    simpl.
    destruct (bump_spec _ x Hh) as (h1 & c & h2 & Hg & Hp & Hh2 & _ & _).
    rewrite Hg. simpl. rewrite Hp. simpl.
    assert (∀ y, is_Some (Lru.nodeMap_ b1 !! y) → resident y s = true) as Hold.
    { intros y Hy. apply resident_true. by rewrite <-Hm1. }
    destruct inMain.
    { eexists. split; [done|]. split_and!; simpl; try done; [|auto].
      intros y Hy. left. apply Hold. by apply resident_true in Hy. }
    destruct (reached (to_size_t (c + 1)) (k_ s)).
    + destruct (historyValueMap_ s !! x) as [stored|] eqn:Hst.
      * destruct (remove_wf h2 x Hh2) as (h3 & -> & Hh3 & _). simpl.
        destruct (put_wf b1 x stored Hb1) as (b2 & -> & Hb2 & Hc2 & Hres & _).
        simpl. eexists. split; [done|].
        split_and!; simpl; try done; [congruence| |].
        -- intros y Hy. destruct (decide (y = x)) as [->|Hne].
           ++ right. left. rewrite Hst. eauto.
           ++ left. apply Hold. apply resident_true in Hy. by apply Hres.
        -- intros y Hy. left. destruct (decide (y = x)) as [->|Hne].
           ++ by rewrite lookup_delete_eq in Hy; destruct Hy.
           ++ by rewrite lookup_delete_ne in Hy.
      * eexists. split; [done|]. split_and!; simpl; try done; [|auto].
        intros y Hy. left. apply Hold. by apply resident_true in Hy.
    + eexists. split; [done|]. split_and!; simpl; try done; [|auto].
      intros y Hy. left. apply Hold. by apply resident_true in Hy.
  - unfold get2.
    destruct (get_wf (base s) x v Hb)
      as (b1 & inMain & ev & -> & Hb1 & Hm1 & Hc1 & _).
    simpl. eexists. split; [done|]. split_and!; simpl; try done; [|auto].
    intros y Hy. left. apply resident_true. apply resident_true in Hy.
    simpl in Hy. by rewrite <-Hm1.
  - unfold remove.
    destruct (remove_wf (base s) x Hb) as (b1 & -> & Hb1 & Hc1 & Hres & _).
    simpl. eexists. split; [done|]. split_and!; simpl; try done; [|auto].
    intros y Hy. left. apply resident_true. apply resident_true in Hy.
    by apply Hres.
Qed.

Lemma run_origin ops : ∀ pre s,
  wf s →
  (∀ y, resident y s = true ∨ is_Some (historyValueMap_ s !! y) →
     ∃ v, OPut y v ∈ pre) →
  ∃ s', run Value0 ops s = Some s' ∧ wf s' ∧ k_ s' = k_ s ∧
    Lru.capacity_ (base s') = Lru.capacity_ (base s) ∧
    (∀ y, resident y s' = true ∨ is_Some (historyValueMap_ s' !! y) →
       ∃ v, OPut y v ∈ pre ++ ops).
Proof.
  induction ops as [|op ops IH]; intros pre s Hwf Hpre; simpl.
  { exists s. rewrite app_nil_r. done. }
  destruct (step_origin s op Hwf) as (s1 & -> & Hwf1 & Hk1 & Hc1 & Hres & Hmap).
  simpl. destruct (IH (pre ++ [op]) s1 Hwf1) as (s2 & -> & Hwf2 & Hk2 & Hc2 & Hall).
  - assert (∀ y, is_Some (historyValueMap_ s !! y) ∨ (∃ v, op = OPut y v) →
            ∃ v, OPut y v ∈ pre ++ [op]) as Hfrom.
    { intros y [Hy|[v ->]].
      - destruct (Hpre y) as [v Hv]; [by right|]. exists v. set_solver.
      - exists v. set_solver. }
    intros y [Hy|Hy].
    + destruct (Hres y Hy) as [Hy'|Hy']; [|by apply Hfrom].
      destruct (Hpre y) as [v Hv]; [by left|]. exists v. set_solver.
    + apply Hfrom. by apply Hmap.
  - exists s2. rewrite <-app_assoc in Hall.
    split_and!; [done|done|congruence|congruence|done].
Qed.

Lemma exec_origin (c hc k : Z) ops s :
  exec Key0 Value0 c hc k ops = Some s →
  wf s ∧ k_ s = k ∧ Lru.capacity_ (base s) = Lru.stored_capacity c ∧
  (∀ y, resident y s = true ∨ is_Some (historyValueMap_ s !! y) →
     ∃ v, OPut y v ∈ ops).
Proof.
  intros He. unfold exec in He.
  destruct (new_fresh c hc k) as (s0 & Hs0 & Hwf0 & Hk0 & Hc0 & Hres0 & Hm0 & _).
  rewrite Hs0 in He. simpl in He.
  destruct (run_origin ops [] s0 Hwf0) as (s' & Hrun & Hwf & Hk & Hc & Hall).
  - intros y [Hy|Hy].
    + by rewrite Hres0 in Hy.
    + rewrite Hm0, lookup_empty in Hy. by destruct Hy.
  - rewrite He in Hrun. injection Hrun as <-. simpl in *.
    split_and!; [done|congruence|congruence|done].
Qed.

(** The history cache keeps the capacity it was built with. *)
Lemma step_history_capacity s op :
  wf s →
  ∃ s', step Value0 op s = Some s' ∧ wf s' ∧
    Lru.capacity_ (historyList_ s') = Lru.capacity_ (historyList_ s).
Proof.
  intros Hwf. pose proof Hwf as [Hb Hh].
  assert (∀ x, ∃ h1 n h2, Lru.get1 0%Z x (historyList_ s) = Some (h1, n) ∧
            Lru.put x (to_size_t (n + 1)) h1 = Some h2 ∧ Lru.wf h2 ∧
            Lru.capacity_ h2 = Lru.capacity_ (historyList_ s) ∧
            ∃ h3, Lru.remove x h2 = Some h3 ∧
              Lru.capacity_ h3 = Lru.capacity_ (historyList_ s)) as Hbump.
  { intros x.
    destruct (get1_wf 0%Z _ x Hh) as (h1 & n & Hg & Hh1 & _ & Hc1 & _).
    destruct (put_wf h1 x (to_size_t (n + 1)) Hh1) as (h2 & Hp & Hh2 & Hc2 & _).
    destruct (remove_wf h2 x Hh2) as (h3 & Hrm & _ & Hc3 & _).
    exists h1, n, h2. split_and!; [done..|congruence|].
    exists h3. split; [done|congruence]. }
  destruct op as [x v|x|x v|x]; simpl.
  - destruct (lruk_put_spec Value0 s x v Hwf) as (s' & Hs' & Hwf' & _).
    exists s'. split_and!; [done..|]. unfold put in Hs'.
    destruct (get_wf (base s) x Value0 Hb) as (b1 & inMain & ev & Hg & Hb1 & _).
    rewrite Hg in Hs'. simpl in Hs'. destruct inMain.
    + destruct (Lru.put x v b1); simpl in Hs'; [|done]. by injection Hs' as <-.
    + destruct (Hbump x) as (h1 & n & h2 & Hg1 & Hp & _ & Hc2 & h3 & Hrm & Hc3).
      rewrite Hg1 in Hs'. simpl in Hs'. rewrite Hp in Hs'. simpl in Hs'.
      destruct (reached (to_size_t (n + 1)) (k_ s)).
      * rewrite Hrm in Hs'. simpl in Hs'.
        destruct (Lru.put x v b1); simpl in Hs'; [|done]. by injection Hs' as <-.
      * by injection Hs' as <-.
  - destruct (lruk_get_spec Value0 s x Hwf) as (s' & w & Hs' & Hwf' & _).
    rewrite Hs'. simpl. exists s'. split_and!; [done..|]. unfold get in Hs'.
    destruct (get_wf (base s) x Value0 Hb) as (b1 & inMain & ev & Hg & Hb1 & _).
    rewrite Hg in Hs'. simpl in Hs'.
    destruct (Hbump x) as (h1 & n & h2 & Hg1 & Hp & _ & Hc2 & h3 & Hrm & Hc3).
    rewrite Hg1 in Hs'. simpl in Hs'. rewrite Hp in Hs'. simpl in Hs'.
    destruct inMain; [by injection Hs' as <- _|].
    destruct (reached (to_size_t (n + 1)) (k_ s)); [|by injection Hs' as <- _].
    destruct (historyValueMap_ s !! x); [|by injection Hs' as <- _].
    rewrite Hrm in Hs'. simpl in Hs'.
    destruct (Lru.put x v b1); simpl in Hs'; [|done]. by injection Hs' as <- _.
  - destruct (lruk_get2_spec s x v Hwf) as (s' & r & -> & Hwf' & _ & Hh' & _).
    simpl. exists s'. by rewrite Hh'.
  - destruct (lruk_remove_spec s x Hwf) as (s' & -> & Hwf' & _ & Hh' & _).
    exists s'. by rewrite Hh'.
Qed.

Lemma exec_history_capacity (c hc k : Z) ops s :
  exec Key0 Value0 c hc k ops = Some s →
  Lru.capacity_ (historyList_ s) = Lru.stored_capacity hc.
Proof.
  unfold exec, new.
  destruct (lru_new_spec Key0 Value0 c) as (b0 & -> & Hrb & _).
  destruct (lru_new_spec Key0 0%Z hc) as (h0 & -> & Hrh & Hch). simpl.
  assert (wf (mkLruK b0 k h0 ∅)) as Hwf0 by (split; simpl; by eexists).
  assert (Lru.capacity_ (historyList_ (mkLruK b0 k h0 ∅))
          = Lru.stored_capacity hc) as Hc0 by done.
  revert Hwf0 Hc0. generalize (mkLruK b0 k h0 (∅ : gmap Key Value)). clear.
  induction ops as [|op ops IH]; intros s0 Hwf0 Hc0; simpl.
  - by intros [= <-].
  - destruct (step_history_capacity s0 op Hwf0) as (s1 & -> & Hwf1 & Hc1).
    simpl. apply IH; [done|congruence].
Qed.

(** The counts of the history and the threshold as the code compares them:
    [k_] converted to [size_t]. *)
Lemma step_counted_unsigned s pre op :
  wf s → (k_ s ≤ INT_MAX)%Z →
  (∀ y c, (y, c) ∈ Lru.contents (historyList_ s) →
     (0 ≤ c ≤ Z.of_nat (accesses y pre))%Z) →
  (∀ y, resident y s = true →
     (to_size_t (k_ s) ≤ Z.of_nat (accesses y pre))%Z) →
  ∃ s', step Value0 op s = Some s' ∧ wf s' ∧ k_ s' = k_ s ∧
    (∀ y c, (y, c) ∈ Lru.contents (historyList_ s') →
       (0 ≤ c ≤ Z.of_nat (accesses y (pre ++ [op])))%Z) ∧
    (∀ y, resident y s' = true →
       (to_size_t (k_ s) ≤ Z.of_nat (accesses y (pre ++ [op])))%Z).
Proof.
  intros Hwf Hk Hc1 Hc2.
  assert (counted pre s) as Hcnt.
  { split; [done|]. intros y Hy. pose proof (to_size_t_int _ Hk).
    specialize (Hc2 y Hy). lia. }
  assert (∀ y, (Z.of_nat (accesses y pre) ≤ Z.of_nat (accesses y (pre ++ [op])))%Z)
    as Hmono.
  { intros y. rewrite accesses_snoc. lia. }
  assert (∀ x s', access_key op = Some x →
    (∀ y, resident y s' = true →
       resident y s = true ∨
       (y = x ∧ reached (historyCount x s) (k_ s) = true)) →
    (∀ e, e ∈ Lru.contents (historyList_ s') →
       e ∈ Lru.contents (historyList_ s) ∨
       ∃ c, e = (x, to_size_t (c + 1)) ∧
            ((x, c) ∈ Lru.contents (historyList_ s) ∨ c = 0%Z)) →
    (∀ y c, (y, c) ∈ Lru.contents (historyList_ s') →
       (0 ≤ c ≤ Z.of_nat (accesses y (pre ++ [op])))%Z) ∧
    (∀ y, resident y s' = true →
       (to_size_t (k_ s) ≤ Z.of_nat (accesses y (pre ++ [op])))%Z)) as Hmain.
  { intros x s' Hop Hres Hhist. split.
    - intros y c Hy. destruct (Hhist _ Hy) as [Hold|(c0 & [= -> ->] & Hc0)].
      + specialize (Hc1 y c Hold). specialize (Hmono y). lia.
      + rewrite accesses_snoc, decide_True by done.
        assert (0 ≤ c0 ≤ Z.of_nat (accesses x pre))%Z.
        { destruct Hc0 as [Hc0| ->]; [by apply Hc1|lia]. }
        pose proof (to_size_t_le (c0 + 1)). lia.
    - intros y Hy. destruct (Hres y Hy) as [Hold|[-> Hr]].
      + specialize (Hc2 y Hold). specialize (Hmono y). lia.
      + unfold reached in Hr. apply Z.leb_le in Hr.
        pose proof (historyCount_bound s pre x Hwf Hcnt).
        rewrite accesses_snoc, decide_True by done. lia. }
  destruct op as [y v|y|y v|y]; simpl.
  - destruct (lruk_put_spec Value0 s y v Hwf)
      as (s' & -> & Hwf' & Hk' & Hres & _ & Hhist).
    exists s'. split_and!; [done..| |]; by apply (Hmain y).
  - destruct (lruk_get_spec Value0 s y Hwf)
      as (s' & v & -> & Hwf' & Hk' & Hres & _ & Hhist).
    exists s'. split_and!; [done..| |]; by apply (Hmain y).
  - destruct (lruk_get2_spec s y v Hwf) as (s' & r & -> & Hwf' & Hk' & Hh & Hm).
    exists s'. split_and!; [done..| |].
    + intros z c Hz. rewrite Hh in Hz. specialize (Hc1 z c Hz).
      specialize (Hmono z). lia.
    + intros z Hz. apply resident_true in Hz. rewrite Hm in Hz.
      apply resident_true in Hz. specialize (Hc2 z Hz). specialize (Hmono z). lia.
  - destruct (lruk_remove_spec s y Hwf) as (s' & -> & Hwf' & Hk' & Hh & Hres).
    exists s'. split_and!; [done..| |].
    + intros z c Hz. rewrite Hh in Hz. specialize (Hc1 z c Hz).
      specialize (Hmono z). lia.
    + intros z Hz. specialize (Hc2 z (Hres z Hz)). specialize (Hmono z). lia.
Qed.

Lemma run_counted_unsigned ops : ∀ pre s,
  wf s → (k_ s ≤ INT_MAX)%Z →
  (∀ y c, (y, c) ∈ Lru.contents (historyList_ s) →
     (0 ≤ c ≤ Z.of_nat (accesses y pre))%Z) →
  (∀ y, resident y s = true →
     (to_size_t (k_ s) ≤ Z.of_nat (accesses y pre))%Z) →
  ∃ s', run Value0 ops s = Some s' ∧
    (∀ y, resident y s' = true →
       (to_size_t (k_ s) ≤ Z.of_nat (accesses y (pre ++ ops)))%Z).
Proof.
  induction ops as [|op ops IH]; intros pre s Hwf Hk Hc1 Hc2; simpl.
  - exists s. by rewrite app_nil_r.
  - destruct (step_counted_unsigned s pre op Hwf Hk Hc1 Hc2)
      as (s1 & -> & Hwf1 & Hk1 & Hc1' & Hc2').
    simpl. rewrite <-Hk1 in Hc2'.
    destruct (IH (pre ++ [op]) s1 Hwf1) as (s2 & -> & Hres); [lia|done..|].
    exists s2. split; [done|]. rewrite <-app_assoc in Hres. by rewrite <-Hk1.
Qed.

(** A cache without history: nothing is linked anywhere, whatever is
    called. *)
Lemma get_no_history s x :
  Lru.nodeMap_ (base s) = ∅ → Lru.nodeMap_ (historyList_ s) = ∅ →
  Lru.capacity_ (historyList_ s) = 0%Z → (2 ≤ to_size_t (k_ s))%Z →
  get Value0 x s
  = Some (mkLruK (base s) (k_ s) (historyList_ s) (historyValueMap_ s), Value0).
Proof.
  intros Hb Hh Hc Hk.
  assert (reached (to_size_t (0 + 1)) (k_ s) = false) as Hr.
  { unfold reached. change (to_size_t (0 + 1)) with 1%Z.
    destruct (Z.leb_spec (to_size_t (k_ s)) 1); [lia|done]. }
  unfold get, Lru.get1, Lru.get. rewrite Hb, Hh, !lookup_empty. simpl.
  rewrite (put_zero (historyList_ s)) by done. simpl. by rewrite Hr.
Qed.

Lemma step_no_history s op :
  Lru.nodeMap_ (base s) = ∅ → Lru.nodeMap_ (historyList_ s) = ∅ →
  Lru.capacity_ (historyList_ s) = 0%Z → (2 ≤ to_size_t (k_ s))%Z →
  ∃ m, step Value0 op s = Some (mkLruK (base s) (k_ s) (historyList_ s) m).
Proof.
  intros Hb Hh Hc Hk.
  assert (reached (to_size_t (0 + 1)) (k_ s) = false) as Hr.
  { unfold reached. change (to_size_t (0 + 1)) with 1%Z.
    destruct (Z.leb_spec (to_size_t (k_ s)) 1); [lia|done]. }
  destruct op as [x v|x|x v|x]; simpl.
  - unfold put, Lru.get1, Lru.get. rewrite Hb, Hh, !lookup_empty. simpl.
    rewrite (put_zero (historyList_ s)) by done. simpl. rewrite Hr. eauto.
  - rewrite get_no_history by done. simpl. eauto.
  - unfold get2, Lru.get. rewrite Hb, lookup_empty. simpl. eauto.
  - unfold remove, Lru.remove. rewrite Hb, lookup_empty. simpl. eauto.
Qed.

Lemma run_no_history ops : ∀ s,
  Lru.nodeMap_ (base s) = ∅ → Lru.nodeMap_ (historyList_ s) = ∅ →
  Lru.capacity_ (historyList_ s) = 0%Z → (2 ≤ to_size_t (k_ s))%Z →
  ∃ m, run Value0 ops s = Some (mkLruK (base s) (k_ s) (historyList_ s) m).
Proof.
  induction ops as [|op ops IH]; intros s Hb Hh Hc Hk; simpl.
  - exists (historyValueMap_ s). by destruct s.
  - destruct (step_no_history s op Hb Hh Hc Hk) as [m ->]. simpl.
    by destruct (IH (mkLruK (base s) (k_ s) (historyList_ s) m)) as [m' ->];
      [..|exists m'].
Qed.

(** A [put] whose count reaches the threshold moves the key into the main
    cache. *)
Lemma put_at_threshold s x v :
  wf s → Lru.capacity_ (base s) ≠ 0%Z →
  resident x s = false →
  reached (historyCount x s) (k_ s) = true →
  ∃ s', put Value0 x v s = Some s' ∧ resident x s' = true ∧
    historyValueMap_ s' !! x = None ∧
    Lru.nodeMap_ (historyList_ s') !! x = None ∧
    ∀ v0, ∃ s'', get2 x v0 s' = Some (s'', (true, v)).
Proof.
  intros [[l Hb] Hh] Hcap Hx Hreach.
  destruct (bump_spec _ x Hh) as (h1 & n & h2 & Hg & Hp & Hh2 & _ & _).
  rewrite (historyCount_bump _ _ _ _ Hg) in Hreach.
  destruct (history_forgets h2 x Hh2) as (h3 & Hrm & _ & Hgone).
  destruct (main_takes (base s) l x v Hb Hcap)
    as (b' & ? & Hput & _ & _ & Hin & Hget).
  unfold put. rewrite (main_miss x s Value0 Hx). simpl.
  rewrite Hg. simpl. rewrite Hp. simpl. rewrite Hreach, Hrm. simpl.
  rewrite Hput. simpl. eexists. split; [done|].
  split_and!; simpl.
  - by apply resident_true.
  - by rewrite lookup_delete_eq.
  - done.
  - intros v0. destruct (Hget v0) as [b'' Hb'']. unfold get2. simpl.
    rewrite Hb''. simpl. eauto.
Qed.

Lemma historyCount_nonneg x s : (0 ≤ historyCount x s < 2 ^ 64)%Z.
Proof.
  unfold historyCount.
  destruct (Lru.get1 0%Z x (historyList_ s)) as [[? n]|]; [|lia].
  unfold to_size_t. apply Z.mod_pos_bound. lia.
Qed.

(** A [put] whose count stays below the threshold leaves the main cache
    alone, stores the value as pending and adds one to the count. *)
Lemma put_below_threshold s x v :
  wf s → (1 ≤ Lru.capacity_ (historyList_ s))%Z →
  resident x s = false →
  reached (historyCount x s) (k_ s) = false →
  ∃ s', put Value0 x v s = Some s' ∧ wf s' ∧ k_ s' = k_ s ∧
    base s' = base s ∧
    Lru.capacity_ (historyList_ s') = Lru.capacity_ (historyList_ s) ∧
    historyValueMap_ s' !! x = Some v ∧
    historyCount x s' = to_size_t (historyCount x s + 1).
Proof.
  intros [Hb [l Hh]] Hcap Hx Hreach.
  destruct (get_observes (historyList_ s) l x 0%Z Hh)
    as (h1 & l1 & Hg & Hh1 & Hc1 & _).
  set (n := (match Lru.assoc x (Lru.ekv <$> l) with
             | Some c => (true, c) | None => (false, 0%Z) end).2) in *.
  assert (Lru.get1 0%Z x (historyList_ s) = Some (h1, n)) as Hg1.
  { unfold Lru.get1. rewrite Hg. unfold n.
    by destruct (Lru.assoc x (Lru.ekv <$> l)). }
  rewrite (historyCount_bump _ _ _ _ Hg1) in *.
  destruct (main_takes h1 l1 x (to_size_t (n + 1)) Hh1)
    as (h2 & l2 & Hp & Hh2 & Hc2 & _ & Hget); [lia|].
  unfold put. rewrite (main_miss x s Value0 Hx). simpl.
  rewrite Hg1. simpl. rewrite Hp. simpl. rewrite Hreach.
  eexists. split; [done|]. split_and!; simpl; [|done|done|congruence| |].
  - split; simpl; [done|by exists l2].
  - by rewrite lookup_insert_eq.
  - unfold historyCount. simpl. unfold Lru.get1.
    destruct (Hget 0%Z) as [h3 ->]. done.
Qed.

Lemma run_puts_below x (vs : list Value) : ∀ s,
  wf s → (1 ≤ Lru.capacity_ (historyList_ s))%Z →
  (0 ≤ k_ s ≤ INT_MAX)%Z → resident x s = false →
  (historyCount x s + Z.of_nat (length vs) ≤ k_ s)%Z →
  ∃ s', run Value0 (OPut x <$> vs) s = Some s' ∧ wf s' ∧ k_ s' = k_ s ∧
    base s' = base s ∧
    historyCount x s' = (historyCount x s + Z.of_nat (length vs))%Z.
Proof.
  induction vs as [|v vs IH]; intros s Hwf Hcap Hk Hx Hlen.
  { exists s. simpl. split_and!; [done..|lia]. }
  rewrite fmap_cons. cbn [run step]. simpl in Hlen.
  pose proof (historyCount_nonneg x s) as Hnn.
  destruct (put_below_threshold s x v Hwf Hcap Hx)
    as (s1 & -> & Hwf1 & Hk1 & Hb1 & Hc1 & _ & Hn1).
  { unfold reached. rewrite to_size_t_small by lia.
    destruct (Z.leb_spec (k_ s) (historyCount x s)); [lia|done]. }
  cbn [mbind option_bind].
  assert (historyCount x s1 = historyCount x s + 1)%Z as Hn1'.
  { rewrite Hn1. unfold to_size_t, INT_MAX in *. apply Z.mod_small. lia. }
  destruct (IH s1 Hwf1) as (s2 & -> & Hwf2 & Hk2 & Hb2 & Hn2).
  - lia.
  - lia.
  - apply resident_false. rewrite Hb1. by apply resident_false.
  - lia.
  - exists s2. split_and!; [done|done|congruence|congruence|].
    rewrite Hn2, Hn1'. simpl length. lia.
Qed.

(** ** Further properties of [LruKCache] *)

(** X8. Admission at the threshold.  On a reached cache whose main cache
    has capacity at least 1, for a key [x] outside the main cache whose
    history count reaches [k] with this call: [put(x, v)] moves [x] into
    the main cache with [v] and erases both its history count and its
    pending value; a one-argument [get(x)] does the same with the pending
    value, which it returns, when there is one, and otherwise returns the
    value-initialised [Value] and admits nothing. *)
Theorem lruk_threshold_promotes (c hc k : Z) ops s x v :
  (1 ≤ c ≤ INT_MAX)%Z →
  exec Key0 Value0 c hc k ops = Some s →
  resident x s = false →
  reached (historyCount x s) k = true →
  (∃ s', put Value0 x v s = Some s' ∧ resident x s' = true ∧
     historyValueMap_ s' !! x = None ∧
     Lru.nodeMap_ (historyList_ s') !! x = None ∧
     ∀ v0, ∃ s'', get2 x v0 s' = Some (s'', (true, v))) ∧
  (∀ w, historyValueMap_ s !! x = Some w →
     ∃ s', get Value0 x s = Some (s', w) ∧ resident x s' = true ∧
       historyValueMap_ s' !! x = None ∧
       Lru.nodeMap_ (historyList_ s') !! x = None ∧
       ∀ v0, ∃ s'', get2 x v0 s' = Some (s'', (true, w))) ∧
  (historyValueMap_ s !! x = None →
     ∃ s', get Value0 x s = Some (s', Value0) ∧ resident x s' = false).
Proof.
  intros Hc He Hx Hreach.
  destruct (exec_origin c hc k ops s He) as (Hwf & Hk & Hcap & _).
  pose proof Hwf as [[l Hb] Hh].
  rewrite stored_capacity_int in Hcap by lia.
  split; [apply put_at_threshold; [done|lia|done|by rewrite Hk]|].
  destruct (bump_spec _ x Hh) as (h1 & n & h2 & Hg & Hp & Hh2 & _ & _).
  rewrite (historyCount_bump _ _ _ _ Hg) in Hreach.
  destruct (history_forgets h2 x Hh2) as (h3 & Hrm & _ & Hgone).
  assert (∀ u, ∃ b', Lru.put x u (base s) = Some b' ∧
            is_Some (Lru.nodeMap_ b' !! x) ∧
            ∀ v0, ∃ b'', Lru.get x v0 b' = Some (b'', (true, u))) as Hadm.
  { intros u. destruct (main_takes (base s) l x u Hb) as (b' & ? & ? & _ & _ & ? & ?);
      [lia|]. by exists b'. }
  split.
  - intros w Hw. destruct (Hadm w) as (b' & Hput & Hin & Hget).
    unfold get. rewrite (main_miss x s Value0 Hx). simpl.
    rewrite Hg. simpl. rewrite Hp. simpl. rewrite Hk, Hreach, Hw, Hrm. simpl.
    rewrite Hput. simpl. eexists. split; [done|].
    split_and!; simpl.
    + by apply resident_true.
    + by rewrite lookup_delete_eq.
    + done.
    + intros v0. destruct (Hget v0) as [b'' Hb'']. unfold get2. simpl.
      rewrite Hb''. simpl. eauto.
  - intros Hw. unfold get. rewrite (main_miss x s Value0 Hx). simpl.
    rewrite Hg. simpl. rewrite Hp. simpl. rewrite Hk, Hreach, Hw.
    eexists. split; [done|]. by apply resident_false, resident_false.
Qed.

(** X9. Without a history nothing is admitted.  When the history capacity
    is not positive and [k] is neither 0 nor 1, every sequence of
    operations runs to its end and leaves the main cache empty: the
    history cache stores no count, so each access counts as the first.
    Every lookup then misses. *)
Theorem lruk_no_history_no_admission (c hc k : Z) ops :
  (hc ≤ 0)%Z → (- 2 ^ 31 ≤ k ≤ INT_MAX)%Z → k ≠ 0%Z → k ≠ 1%Z →
  ∃ s, exec Key0 Value0 c hc k ops = Some s ∧
    (∀ y, resident y s = false) ∧
    (∀ y, ∃ s', get Value0 y s = Some (s', Value0)) ∧
    (∀ y v0, get2 y v0 s = Some (s, (false, v0))).
Proof.
  intros Hhc Hk Hk0 Hk1. unfold exec, new, Lru.new, Lru.stored_capacity.
  destruct (Z.ltb_spec 0 hc) as [|_]; [lia|]. simpl.
  assert (2 ≤ to_size_t k)%Z as Hk2.
  { unfold INT_MAX in *. destruct (decide (0 ≤ k)%Z).
    - unfold to_size_t. rewrite Z.mod_small; lia.
    - rewrite to_size_t_neg; lia. }
  match goal with |- ∃ s, run _ _ ?s0 = _ ∧ _ =>
    destruct (run_no_history ops s0) as [m Hrun]; [done..|] end.
  simpl in Hrun. eexists. split; [exact Hrun|].
  assert (∀ y s, Lru.nodeMap_ (base s) = ∅ → resident y s = false) as Hnone.
  { intros y s Hs. apply resident_false. by rewrite Hs, lookup_empty. }
  split_and!.
  - intros y. by apply Hnone.
  - intros y. rewrite get_no_history by done. eauto.
  - intros y v0. unfold get2, Lru.get. simpl. by rewrite lookup_empty.
Qed.

(** X10. The threshold is compared unsigned.  [historyCount >= k_]
    converts [k_] to [size_t], so on a reached cache every key of the main
    cache has been accessed at least [k] converted to [size_t] times: for a
    negative [k] that is [2^64 + k] times. *)
Theorem lruk_threshold_unsigned (c hc k : Z) ops s y :
  (- 2 ^ 31 ≤ k ≤ INT_MAX)%Z →
  exec Key0 Value0 c hc k ops = Some s →
  resident y s = true →
  (to_size_t k ≤ Z.of_nat (accesses y ops))%Z ∧
  (k < 0 → 2 ^ 64 + k ≤ Z.of_nat (accesses y ops))%Z.
Proof.
  intros Hk He Hy. unfold exec in He.
  destruct (new_fresh c hc k) as (s0 & Hs0 & Hwf0 & Hk0 & _ & Hres0 & _ & Hh0).
  rewrite Hs0 in He. simpl in He.
  destruct (run_counted_unsigned ops [] s0 Hwf0) as (s1 & Hs1 & Hres).
  { lia. }
  { intros z n Hz. rewrite Hh0 in Hz. by apply elem_of_nil in Hz. }
  { intros z Hz. by rewrite Hres0 in Hz. }
  rewrite He in Hs1. injection Hs1 as <-. simpl in Hres. rewrite Hk0 in Hres.
  specialize (Hres y Hy). split; [done|]. intros Hneg.
  rewrite <-to_size_t_neg; [done|lia].
Qed.

(** X11. A key that is already in the main cache.  On a reached cache
    with main capacity at least 1, [put(x, v)] on a resident [x] replaces
    its value in place: the history, the pending values and the set of
    resident keys are untouched, and a lookup then finds [v].  The
    one-argument [get(x)] returns the cached value and leaves the set of
    resident keys and the pending values as they were. *)
Theorem lruk_resident_key_in_place (c hc k : Z) ops s x v :
  (1 ≤ c ≤ INT_MAX)%Z →
  exec Key0 Value0 c hc k ops = Some s →
  resident x s = true →
  (∃ s', put Value0 x v s = Some s' ∧
     historyList_ s' = historyList_ s ∧
     historyValueMap_ s' = historyValueMap_ s ∧
     Lru.nodeMap_ (base s') = Lru.nodeMap_ (base s) ∧
     ∀ v0, ∃ s'', get2 x v0 s' = Some (s'', (true, v))) ∧
  (∃ s' w, get Value0 x s = Some (s', w) ∧
     (x, w) ∈ Lru.contents (base s) ∧
     historyValueMap_ s' = historyValueMap_ s ∧
     Lru.nodeMap_ (base s') = Lru.nodeMap_ (base s)).
Proof.
  intros Hc He Hx.
  destruct (exec_origin c hc k ops s He) as ([[l Hb] Hh] & Hk & Hcap & _).
  rewrite stored_capacity_int in Hcap by lia.
  apply resident_true in Hx.
  destruct (Lru.assoc x (Lru.ekv <$> l)) as [w|] eqn:Hw.
  2:{ apply (rep_resident _ _ _ Hb) in Hw. rewrite Hw in Hx. by destruct Hx. }
  destruct (get_observes (base s) l x Value0 Hb)
    as (b1 & l1 & Hg & Hb1 & Hc1 & Hm1 & Hp1 & _).
  rewrite Hw in Hg. split.
  - destruct (main_takes b1 l1 x v Hb1) as (b2 & l2 & Hput & _ & _ & _ & Hget);
      [lia|].
    assert (x ∈ Lru.ekey <$> l1) as Hin.
    { destruct (decide (x ∈ Lru.ekey <$> l1)) as [|Hn]; [done|].
      apply (rep_lookup_None _ _ _ Hb1) in Hn. rewrite <-Hm1, Hn in Hx.
      by destruct Hx. }
    apply key_split in Hin as (la & e & lb & -> & <-).
    destruct (put_hit b1 la e lb v Hb1) as (b2' & Hput' & Hf & _); [lia|].
    rewrite Hput in Hput'. injection Hput' as <-.
    unfold put. rewrite Hg. simpl. rewrite Hput. simpl.
    eexists. split; [done|]. simpl. split_and!; [done|done| |].
    + destruct Hf as (_ & -> & _). done.
    + intros v0. destruct (Hget v0) as [b3 Hb3]. unfold get2. simpl.
      rewrite Hb3. simpl. eauto.
  - destruct (bump_spec _ x Hh) as (h1 & n & h2 & Hgh & Hph & _).
    unfold get. rewrite Hg. simpl. rewrite Hgh. simpl. rewrite Hph. simpl.
    eexists _, _. split; [done|]. simpl. split_and!; [|done|done].
    rewrite (rep_contents _ _ Hb). by apply assoc_Some_elem.
Qed.

(** X12. Nothing comes from nowhere.  On a reached cache a key that no
    [put] ever wrote is neither in the main cache nor among the pending
    values, however often it was queried; both lookups miss, the
    one-argument [get] returning the value-initialised [Value], and the
    key is still not admitted afterwards. *)
Theorem lruk_never_put_never_found (c hc k : Z) ops s x :
  exec Key0 Value0 c hc k ops = Some s →
  (∀ v, OPut x v ∉ ops) →
  resident x s = false ∧ historyValueMap_ s !! x = None ∧
  (∃ s', get Value0 x s = Some (s', Value0) ∧ resident x s' = false) ∧
  (∀ v0, get2 x v0 s = Some (s, (false, v0))).
Proof.
  intros He Hput.
  destruct (exec_origin c hc k ops s He) as ([Hb Hh] & Hk & _ & Horigin).
  assert (resident x s = false) as Hx.
  { apply not_true_iff_false. intros Hx.
    destruct (Horigin x) as [v Hv]; [by left|]. by apply (Hput v). }
  assert (historyValueMap_ s !! x = None) as Hm.
  { apply eq_None_not_Some. intros Hm.
    destruct (Horigin x) as [v Hv]; [by right|]. by apply (Hput v). }
  split_and!; [done|done| |].
  - destruct (bump_spec _ x Hh) as (h1 & n & h2 & Hgh & Hph & _).
    unfold get. rewrite (main_miss x s Value0 Hx). simpl.
    rewrite Hgh. simpl. rewrite Hph. simpl. rewrite Hm.
    destruct (reached (to_size_t (n + 1)) (k_ s));
      (eexists; split; [done|]); by apply resident_false, resident_false.
  - intros v0. unfold get2. rewrite (main_miss x s v0 Hx). simpl.
    by destruct s.
Qed.

(** X19. The [k]-th access is admitted.  On a reached cache with main
    and history capacity at least 1 and a threshold [k >= 0], take a key
    [x] outside the main cache whose next access would be counted as the
    [n]-th.  Then [k - n] further [put]s of [x] all return and leave [x]
    outside the main cache, and the [put] after them moves [x] into the
    main cache, where a lookup finds the value just put.  On a fresh cache
    that is the [k]-th [put] of the key. *)
Theorem lruk_repeated_put_admits (c hc k : Z) ops s x (vs : list Value) v :
  (1 ≤ c ≤ INT_MAX)%Z → (1 ≤ hc ≤ INT_MAX)%Z → (0 ≤ k ≤ INT_MAX)%Z →
  exec Key0 Value0 c hc k ops = Some s →
  resident x s = false →
  (historyCount x s + Z.of_nat (length vs) = k)%Z →
  ∃ s1 s2, run Value0 (OPut x <$> vs) s = Some s1 ∧
    resident x s1 = false ∧
    put Value0 x v s1 = Some s2 ∧ resident x s2 = true ∧
    ∀ v0, ∃ s3, get2 x v0 s2 = Some (s3, (true, v)).
Proof.
  intros Hc Hhc Hk He Hx Hlen.
  destruct (exec_origin c hc k ops s He) as (Hwf & Hks & Hcap & _).
  rewrite stored_capacity_int in Hcap by lia.
  assert (Lru.capacity_ (historyList_ s) = hc) as Hhcap.
  { rewrite (exec_history_capacity c hc k ops s He).
    apply stored_capacity_int. lia. }
  destruct (run_puts_below x vs s Hwf) as (s1 & Hrun & Hwf1 & Hk1 & Hb1 & Hn1);
    [lia|lia|done|lia|].
  assert (resident x s1 = false) as Hx1.
  { apply resident_false. rewrite Hb1. by apply resident_false. }
  destruct (put_at_threshold s1 x v Hwf1) as (s2 & Hput & Hres & _ & _ & Hget).
  - rewrite Hb1. lia.
  - done.
  - unfold reached. rewrite Hn1, Hk1, Hks, Hlen. rewrite to_size_t_small by lia.
    by apply Z.leb_le.
  - by exists s1, s2.
Qed.

End LruKMore.

(** ** [KHashLruCaches] *)

Section KHashMore.
Import KHash.
Context {Key Value : Type} `{Countable Key}.
Context (Key0 : Key) (Value0 : Value).
Context (Hash : Key → Z) (hardware_concurrency : Z).
Implicit Types (h : KHashLruCaches Key Value) (k : Key) (v : Value)
  (c : Lru.LruCache Key Value) (m : list (Key * Value))
  (op : Op Key Value) (ops : list (Op Key Value)).

(** An operation on another key changes no value it finds. *)
Lemma model_step_others cap (o : Lru.Op Key Value) m k w :
  NoDup m.*1 → Lru.op_key o ≠ k →
  Lru.assoc k (Lru.model_step Value0 cap o m).1 = Some w →
  Lru.assoc k m = Some w.
Proof.
  intros Hnd Hne. destruct o as [k' v'|k' v0|k'|k']; simpl in *.
  - apply model_put_others; [done|auto].
  - pose proof (assoc_model_get m k k' v0) as Hg.
    destruct (Lru.model_get k' v0 m) as [? [??]]. simpl in *. by rewrite Hg.
  - pose proof (assoc_model_get m k k' Value0) as Hg.
    destruct (Lru.model_get k' Value0 m) as [? [??]]. simpl in *. by rewrite Hg.
  - unfold Lru.model_remove. by rewrite assoc_drop_key_ne by auto.
Qed.

Lemma last_write_snoc k (os : list (Lru.Op Key Value)) o acc :
  Lru.last_write k (os ++ [o]) acc
  = Lru.note_write k o (Lru.last_write k os acc).
Proof. revert acc. induction os as [|o' os IH]; intros acc; simpl; auto. Qed.

Lemma last_write_ops_snoc k (pre : list (Op Key Value)) o :
  Lru.last_write k (as_lru <$> pre ++ [o]) None
  = Lru.note_write k (as_lru o) (Lru.last_write k (as_lru <$> pre) None).
Proof. rewrite fmap_app. apply last_write_snoc. Qed.

Lemma note_write_other k o (acc : option Value) :
  Lru.op_key (as_lru o) ≠ k → Lru.note_write k (as_lru o) acc = acc.
Proof. destruct o; simpl; intros Hne; by rewrite ?decide_False. Qed.

(** Each call goes to the slice its key is routed to, as the same call. *)
Lemma step_as_lru op h :
  step Value0 Hash op h =
  i ← sliceIndex Hash (Lru.op_key (as_lru op)) h;
  c ← lruSliceCaches_ h !! i;
  '(c', r) ← Lru.step Value0 (as_lru op) c;
  Some (mkKHash (capacity_ h) (sliceNum_ h) (<[i := c']> (lruSliceCaches_ h)), r).
Proof.
  destruct op as [k v|k v|k]; simpl; unfold put, get1, get, Lru.get1.
  - destruct (sliceIndex Hash k h) as [i|]; [|done]. simpl.
    destruct (lruSliceCaches_ h !! i) as [c|]; [|done]. simpl.
    by destruct (Lru.put k v c).
  - destruct (sliceIndex Hash k h) as [i|]; [|done]. simpl.
    destruct (lruSliceCaches_ h !! i) as [c|]; [|done]. simpl.
    by destruct (Lru.get k v c) as [[? [??]]|].
  - destruct (sliceIndex Hash k h) as [i|]; [|done]. simpl.
    destruct (lruSliceCaches_ h !! i) as [c|]; [|done]. simpl.
    by destruct (Lru.get k Value0 c) as [[? [??]]|].
Qed.

(** One operation keeps every slice well formed, within its capacity, and
    holding only keys routed to it with the values written last. *)
Lemma step_routed (S cap : Z) pre op h :
  (1 ≤ S ≤ INT_MAX)%Z → (0 ≤ cap)%Z →
  slices_routed Hash S cap pre h →
  ∃ h' r, step Value0 Hash op h = Some (h', r) ∧
    capacity_ h' = capacity_ h ∧
    slices_routed Hash S cap (pre ++ [op]) h'.
Proof.
  intros HS Hcap (Hn & Hlen & Hsl). rewrite step_as_lru.
  set (k := Lru.op_key (as_lru op)).
  rewrite (sliceIndex_spec Hash h k S) by done. cbn [mbind option_bind].
  set (j := Z.to_nat (slice_of Hash S k)).
  destruct (slice_lookup Hash h k S Hn HS Hlen) as [c Hc]. fold j in Hc.
  rewrite Hc. cbn [mbind option_bind].
  pose proof (slice_of_bound Hash S k ltac:(lia)) as Hjb.
  assert (Z.of_nat j = slice_of Hash S k) as Hj by (unfold j; lia).
  destruct (Hsl j c Hc) as (Hcc & l & Hr & Hll & Hkeys).
  destruct (step_refines Value0 c l (as_lru op) Hr)
    as (c' & l' & -> & Hr' & Hc' & Hl').
  cbn [mbind option_bind]. eexists _, _. split; [done|]. split; [done|].
  split_and!; simpl; [done|by rewrite length_insert|].
  intros i ci Hi. destruct (decide (i = j)) as [->|Hne].
  - rewrite list_lookup_insert_eq in Hi by (by eapply lookup_lt_Some).
    injection Hi as <-. split; [congruence|]. exists l'. split; [done|].
    pose proof (model_step_length Value0 (Lru.capacity_ c) (as_lru op)
                  (Lru.ekv <$> l)) as Hlen'.
    rewrite <-Hl', !length_fmap in Hlen'. split; [rewrite <-Hcc; apply Hlen'; lia|].
    intros e He.
    assert (Lru.assoc (Lru.ekey e) (Lru.ekv <$> l') = Some (Lru.evalue e)) as Ha.
    { apply assoc_nodup; [by eapply rep_nodup_kv|].
      apply list_elem_of_fmap. by exists e. }
    rewrite Hl' in Ha. rewrite last_write_ops_snoc. split.
    + destruct (decide (k = Lru.ekey e)) as [<-|Hke]; [done|].
      apply model_step_others in Ha; [|by eapply rep_nodup_kv|done].
      apply assoc_Some_elem in Ha.
      apply list_elem_of_fmap in Ha as (e0 & Heq & He0).
      injection Heq as -> _. by apply Hkeys.
    + apply (model_step_note Value0 (Lru.capacity_ c) (as_lru op)
               (Lru.ekv <$> l)); [by eapply rep_nodup_kv| | |done].
      * rewrite length_fmap. lia.
      * intros w Hw. apply assoc_Some_elem in Hw.
        apply list_elem_of_fmap in Hw as (e0 & Heq & He0).
        injection Heq as -> ->. by apply Hkeys.
  - rewrite list_lookup_insert_ne in Hi by done.
    destruct (Hsl i ci Hi) as (Hci & li & Hri & Hlli & Hki).
    split; [done|]. exists li. split_and!; [done..|].
    intros e He. destruct (Hki e He) as [Hroute Hval]. split; [done|].
    rewrite last_write_ops_snoc.
    rewrite note_write_other; [done|]. fold k. intros Heq.
    rewrite <-Heq in Hroute. lia.
Qed.

Lemma run_routed (S cap : Z) ops : ∀ pre h,
  (1 ≤ S ≤ INT_MAX)%Z → (0 ≤ cap)%Z →
  slices_routed Hash S cap pre h →
  ∃ h' rs, run Value0 Hash ops h = Some (h', rs) ∧
    capacity_ h' = capacity_ h ∧
    slices_routed Hash S cap (pre ++ ops) h'.
Proof.
  induction ops as [|op ops IH]; intros pre h HS Hcap Hh; cbn [run].
  { exists h, []. by rewrite app_nil_r. }
  destruct (step_routed S cap pre op h HS Hcap Hh) as (h1 & r & -> & Hc1 & Hh1).
  cbn [mbind option_bind].
  destruct (IH (pre ++ [op]) h1 HS Hcap Hh1) as (h2 & rs & -> & Hc2 & Hh2).
  cbn [mbind option_bind]. eexists _, _. split; [done|].
  rewrite <-app_assoc in Hh2. split; [congruence|done].
Qed.

Lemma exec_routed (C S : Z) ops :
  (0 ≤ C < 2 ^ 53)%Z → (1 ≤ S ≤ INT_MAX)%Z → (ceil_div C S ≤ INT_MAX)%Z →
  ∃ h rs, exec Key0 Value0 Hash hardware_concurrency C S ops = Some (h, rs) ∧
    capacity_ h = C ∧ (0 ≤ ceil_div C S)%Z ∧
    slices_routed Hash S (ceil_div C S) ops h.
Proof.
  intros HC HS Ht.
  destruct (khash_new_spec Key0 Value0 hardware_concurrency C S HC HS Ht)
    as (h0 & Hh0 & Hcap0 & Hn0 & Hlen0 & Hcs).
  destruct (ceil_div_spec C S) as (_ & _ & Hnn & _); [lia..|].
  destruct (run_routed S (ceil_div C S) ops [] h0 HS Hnn)
    as (h & rs & Hrun & Hcap & Hh).
  - split_and!; [done..|]. intros i c Hi. rewrite Forall_forall in Hcs.
    destruct (Hcs c) as [Hr Hc]; [by eapply list_elem_of_lookup_2|].
    split; [done|]. exists []. split_and!; [done|simpl; lia|].
    intros e He. by apply elem_of_nil in He.
  - exists h, rs. unfold exec. rewrite Hh0. simpl.
    split_and!; [done|congruence|done|done].
Qed.


(** ** Further properties of [KHashLruCaches] *)

(** X13. Slices stay within bounds and keys stay in their slice.  For a
    sharded cache built with [S] slices, every sequence of [put] and [get]
    calls runs to its end (the slice index is always in range), the two
    sizes set by the constructor never change, and every slice keeps its
    capacity [ceil(C / S)], holds at most that many keys, and holds only
    keys whose hash is congruent to its position modulo [S]. *)
Theorem khash_keys_stay_in_slice (C S : Z) ops :
  (0 ≤ C < 2 ^ 53)%Z → (1 ≤ S ≤ INT_MAX)%Z → (ceil_div C S ≤ INT_MAX)%Z →
  ∃ h rs, exec Key0 Value0 Hash hardware_concurrency C S ops = Some (h, rs) ∧
    capacity_ h = C ∧ sliceNum_ h = S ∧
    Z.of_nat (length (lruSliceCaches_ h)) = S ∧
    ∀ i c, lruSliceCaches_ h !! i = Some c →
      Lru.capacity_ c = ceil_div C S ∧
      (Z.of_nat (size (Lru.nodeMap_ c)) ≤ ceil_div C S)%Z ∧
      ∀ k, is_Some (Lru.nodeMap_ c !! k) →
        (to_size_t (Hash k) mod S)%Z = Z.of_nat i.
Proof.
  intros HC HS Ht.
  destruct (exec_routed C S ops HC HS Ht) as (h & rs & He & Hcap & _ & Hh).
  exists h, rs. destruct Hh as (Hn & Hlen & Hsl).
  split_and!; [done|done|done|lia|].
  intros i c Hi. destruct (Hsl i c Hi) as (Hc & l & Hr & Hll & Hkeys).
  split_and!; [done|by rewrite (rep_size _ _ Hr)|].
  intros k [p Hk].
  destruct (rep_lookup_Some _ _ _ _ Hr Hk) as (l1 & e & l2 & -> & <- & _).
  apply Hkeys. set_solver.
Qed.




(** X17. No slice count at all.  [hardware_concurrency()] may return 0;
    with a slice count that is not positive the constructor then stores
    [sliceNum_ = 0], its loop runs no iteration, and it returns a cache
    without any slice.  Every [put] and [get] on that cache takes a
    remainder by zero, [Hash(key) % sliceNum_], and has no defined
    result: no operation of a run gets past the first call. *)
Theorem khash_no_hardware_concurrency (C S : Z) :
  (S ≤ 0)%Z → hardware_concurrency = 0%Z →
  ∃ h, new Key0 Value0 hardware_concurrency C S = Some h ∧
    capacity_ h = C ∧ sliceNum_ h = 0%Z ∧ lruSliceCaches_ h = [] ∧
    (∀ k v, put Hash k v h = None) ∧
    (∀ k v, get Hash k v h = None) ∧
    (∀ k, get1 Value0 Hash k h = None) ∧
    (∀ op ops, run Value0 Hash (op :: ops) h = None).
Proof.
  intros HS Hn. unfold new. destruct (Z.ltb_spec 0 S) as [|_]; [lia|].
  rewrite Hn. eexists. split; [reflexivity|]. simpl.
  assert (∀ k v, get Hash k v (mkKHash C (to_int 0) []) = None) as Hget.
  { done. }
  split_and!; [done..| |].
  - intros k. unfold get1. by rewrite Hget.
  - intros op ops. cbn [run]. rewrite step_as_lru. done.
Qed.

End KHashMore.

Section MoreInstances.
Local Open Scope Z_scope.
Import Lru.

(** *** The further properties at concrete caches (keys and values in [Z]) *)

Lemma lru_recent_entry_survives_witness :
  (3 ≤ INT_MAX) ∧
  ∃ s rs, exec (Key := Z) (Value := Z) 0 0 3 [OPut 1 10; OPut 2 20]
          = Some (s, rs) ∧
    contents s = [] ++ (1, 10) :: [(2, 20)] ∧
    Forall (λ op : Op Z Z, op_key op ≠ 1) [OPut 3 30] ∧
    (Z.of_nat (length [(2, 20)] + length [OPut (Key := Z) (Value := Z) 3 30]) < 3) ∧
    ∃ s' rs' s'', run 0 [OPut 3 30] s = Some (s', rs') ∧
      get 1 0 s' = Some (s'', (true, 10)).
Proof.
  split; [unfold INT_MAX; lia|].
  eexists _, _. split; [vm_compute; reflexivity|].
  split; [vm_compute; reflexivity|].
  split; [apply Forall_singleton; simpl; lia|].
  split; [simpl; lia|].
  eapply (lru_recent_entry_survives 0 0 3 [OPut 1 10; OPut 2 20] [OPut 3 30]
            _ _ [] [(2, 20)] 1 10 0).
  - unfold INT_MAX; lia.
  - vm_compute. reflexivity.
  - vm_compute. reflexivity.
  - apply Forall_singleton. simpl. lia.
  - simpl. lia.
Defined.

Lemma lru_insertions_keep_newest_witness :
  (1 ≤ 2 ≤ INT_MAX) ∧
  ∃ s rs, exec (Key := Z) (Value := Z) 0 0 2 [OPut 1 10; OPut 2 20]
          = Some (s, rs) ∧
    NoDup [(3, 30); (4, 40); (5, 50)].*1 ∧
    (∀ k, k ∈ [(3, 30); (4, 40); (5, 50)].*1 → nodeMap_ s !! k = None) ∧
    ∃ s' rs',
      run 0 ((λ kv, OPut kv.1 kv.2) <$> [(3, 30); (4, 40); (5, 50)]) s
      = Some (s', rs') ∧
      contents s' = newest (Z.to_nat 2) (contents s ++ [(3, 30); (4, 40); (5, 50)]).
Proof.
  split; [unfold INT_MAX; lia|].
  eexists _, _. split; [vm_compute; reflexivity|].
  split; [compute_done|].
  assert (∀ (k : Z) (m : gmap Z nat),
            m !! 3 = None → m !! 4 = None → m !! 5 = None →
            k ∈ [(3, 30); (4, 40); (5, 50)].*1 → m !! k = None) as Hfresh.
  { intros k m H3 H4 H5 Hk.
    repeat (apply elem_of_cons in Hk as [->|Hk]; [done|]).
    by apply elem_of_nil in Hk. }
  split.
  { intros k. apply Hfresh; vm_compute; reflexivity. }
  eapply (lru_insertions_keep_newest 0 0 2 [OPut 1 10; OPut 2 20] _ _
            [(3, 30); (4, 40); (5, 50)]).
  - unfold INT_MAX; lia.
  - vm_compute. reflexivity.
  - compute_done.
  - intros k. apply Hfresh; vm_compute; reflexivity.
Defined.

Lemma lruk_threshold_promotes_witness :
  (1 ≤ 2 ≤ INT_MAX) ∧
  ∃ s, LruK.exec (Key := Z) (Value := Z) 0 0 2 3 2 [LruK.OPut 1 10] = Some s ∧
    LruK.resident 1 s = false ∧
    LruK.reached (LruK.historyCount 1 s) 2 = true ∧
    (∃ s', LruK.put 0 1 11 s = Some s' ∧ LruK.resident 1 s' = true ∧
       LruK.historyValueMap_ s' !! 1 = None ∧
       nodeMap_ (LruK.historyList_ s') !! 1 = None ∧
       ∀ v0, ∃ s'', LruK.get2 1 v0 s' = Some (s'', (true, 11))) ∧
    (∀ w, LruK.historyValueMap_ s !! 1 = Some w →
       ∃ s', LruK.get 0 1 s = Some (s', w) ∧ LruK.resident 1 s' = true ∧
         LruK.historyValueMap_ s' !! 1 = None ∧
         nodeMap_ (LruK.historyList_ s') !! 1 = None ∧
         ∀ v0, ∃ s'', LruK.get2 1 v0 s' = Some (s'', (true, w))) ∧
    (LruK.historyValueMap_ s !! 1 = None →
       ∃ s', LruK.get 0 1 s = Some (s', 0) ∧ LruK.resident 1 s' = false).
Proof.
  split; [unfold INT_MAX; lia|].
  eexists. split; [vm_compute; reflexivity|].
  split; [vm_compute; reflexivity|]. split; [vm_compute; reflexivity|].
  eapply (lruk_threshold_promotes 0 0 2 3 2 [LruK.OPut 1 10] _ 1 11).
  - unfold INT_MAX; lia.
  - vm_compute. reflexivity.
  - vm_compute. reflexivity.
  - vm_compute. reflexivity.
Defined.

Lemma lruk_no_history_no_admission_witness :
  (0 ≤ 0) ∧ (- 2 ^ 31 ≤ 2 ≤ INT_MAX) ∧ 2 ≠ 0 ∧ 2 ≠ 1 ∧
  ∃ s, LruK.exec (Key := Z) (Value := Z) 0 0 2 0 2
         [LruK.OPut 1 10; LruK.OPut 1 11; LruK.OGet 1] = Some s ∧
    (∀ y, LruK.resident y s = false) ∧
    (∀ y, ∃ s', LruK.get 0 y s = Some (s', 0)) ∧
    (∀ y v0, LruK.get2 y v0 s = Some (s, (false, v0))).
Proof.
  split; [lia|]. split; [unfold INT_MAX; lia|]. split; [lia|]. split; [lia|].
  apply (lruk_no_history_no_admission 0 0 2 0 2
           [LruK.OPut 1 10; LruK.OPut 1 11; LruK.OGet 1]).
  - lia.
  - unfold INT_MAX; lia.
  - lia.
  - lia.
Defined.

Lemma lruk_threshold_unsigned_witness :
  (- 2 ^ 31 ≤ 2 ≤ INT_MAX) ∧
  ∃ s, LruK.exec (Key := Z) (Value := Z) 0 0 2 3 2
         [LruK.OPut 1 10; LruK.OPut 1 11] = Some s ∧
    LruK.resident 1 s = true ∧
    (to_size_t 2 ≤ Z.of_nat (LruK.accesses 1 [LruK.OPut 1 10; LruK.OPut 1 11])) ∧
    (2 < 0 →
     2 ^ 64 + 2 ≤ Z.of_nat (LruK.accesses 1 [LruK.OPut 1 10; LruK.OPut 1 11])).
Proof.
  split; [unfold INT_MAX; lia|].
  eexists. split; [vm_compute; reflexivity|].
  split; [vm_compute; reflexivity|].
  eapply (lruk_threshold_unsigned 0 0 2 3 2 [LruK.OPut 1 10; LruK.OPut 1 11] _ 1).
  - unfold INT_MAX; lia.
  - vm_compute. reflexivity.
  - vm_compute. reflexivity.
Defined.

Lemma lruk_resident_key_in_place_witness :
  (1 ≤ 2 ≤ INT_MAX) ∧
  ∃ s, LruK.exec (Key := Z) (Value := Z) 0 0 2 3 2
         [LruK.OPut 1 10; LruK.OPut 1 11] = Some s ∧
    LruK.resident 1 s = true ∧
    (∃ s', LruK.put 0 1 12 s = Some s' ∧
       LruK.historyList_ s' = LruK.historyList_ s ∧
       LruK.historyValueMap_ s' = LruK.historyValueMap_ s ∧
       nodeMap_ (LruK.base s') = nodeMap_ (LruK.base s) ∧
       ∀ v0, ∃ s'', LruK.get2 1 v0 s' = Some (s'', (true, 12))) ∧
    (∃ s' w, LruK.get 0 1 s = Some (s', w) ∧
       (1, w) ∈ contents (LruK.base s) ∧
       LruK.historyValueMap_ s' = LruK.historyValueMap_ s ∧
       nodeMap_ (LruK.base s') = nodeMap_ (LruK.base s)).
Proof.
  split; [unfold INT_MAX; lia|].
  eexists. split; [vm_compute; reflexivity|].
  split; [vm_compute; reflexivity|].
  eapply (lruk_resident_key_in_place 0 0 2 3 2
            [LruK.OPut 1 10; LruK.OPut 1 11] _ 1 12).
  - unfold INT_MAX; lia.
  - vm_compute. reflexivity.
  - vm_compute. reflexivity.
Defined.

Lemma lruk_never_put_never_found_witness :
  ∃ s, LruK.exec (Key := Z) (Value := Z) 0 0 2 3 1
         [LruK.OPut 1 10; LruK.OGet 2; LruK.OGet 2] = Some s ∧
    (∀ v, LruK.OPut 2 v ∉ [LruK.OPut 1 10; LruK.OGet 2; LruK.OGet 2]) ∧
    LruK.resident 2 s = false ∧ LruK.historyValueMap_ s !! 2 = None ∧
    (∃ s', LruK.get 0 2 s = Some (s', 0) ∧ LruK.resident 2 s' = false) ∧
    (∀ v0, LruK.get2 2 v0 s = Some (s, (false, v0))).
Proof.
  assert (∀ v : Z, LruK.OPut 2 v ∉ [LruK.OPut 1 10; LruK.OGet 2; LruK.OGet 2])
    as Hput.
  { intros v Hin. repeat (apply elem_of_cons in Hin as [Hin|Hin]; [discriminate|]).
    by apply elem_of_nil in Hin. }
  eexists. split; [vm_compute; reflexivity|]. split; [exact Hput|].
  eapply (lruk_never_put_never_found 0 0 2 3 1
            [LruK.OPut 1 10; LruK.OGet 2; LruK.OGet 2] _ 2).
  - vm_compute. reflexivity.
  - exact Hput.
Defined.

Lemma lruk_repeated_put_admits_witness :
  (1 ≤ 2 ≤ INT_MAX) ∧ (1 ≤ 3 ≤ INT_MAX) ∧ (0 ≤ 2 ≤ INT_MAX) ∧
  ∃ s, LruK.exec (Key := Z) (Value := Z) 0 0 2 3 2 [LruK.OGet 5] = Some s ∧
    LruK.resident 1 s = false ∧
    (LruK.historyCount 1 s + Z.of_nat (length [10]) = 2) ∧
    ∃ s1 s2, LruK.run 0 (LruK.OPut 1 <$> [10]) s = Some s1 ∧
      LruK.resident 1 s1 = false ∧
      LruK.put 0 1 11 s1 = Some s2 ∧ LruK.resident 1 s2 = true ∧
      ∀ v0, ∃ s3, LruK.get2 1 v0 s2 = Some (s3, (true, 11)).
Proof.
  split; [unfold INT_MAX; lia|]. split; [unfold INT_MAX; lia|].
  split; [unfold INT_MAX; lia|].
  eexists. split; [vm_compute; reflexivity|].
  split; [vm_compute; reflexivity|]. split; [vm_compute; reflexivity|].
  eapply (lruk_repeated_put_admits 0 0 2 3 2 [LruK.OGet 5] _ 1 [10] 11).
  - unfold INT_MAX; lia.
  - unfold INT_MAX; lia.
  - unfold INT_MAX; lia.
  - vm_compute. reflexivity.
  - vm_compute. reflexivity.
  - vm_compute. reflexivity.
Defined.

Lemma khash_keys_stay_in_slice_witness :
  (0 ≤ 10 < 2 ^ 53) ∧ (1 ≤ 3 ≤ INT_MAX) ∧ (ceil_div 10 3 ≤ INT_MAX) ∧
  ∃ h rs, KHash.exec (Key := Z) (Value := Z) 0 0 (λ k, k) 8 10 3
            [KHash.OPut 4 40; KHash.OGet 4 0] = Some (h, rs) ∧
    KHash.capacity_ h = 10 ∧ KHash.sliceNum_ h = 3 ∧
    Z.of_nat (length (KHash.lruSliceCaches_ h)) = 3 ∧
    ∀ i c, KHash.lruSliceCaches_ h !! i = Some c →
      capacity_ c = ceil_div 10 3 ∧
      (Z.of_nat (size (nodeMap_ c)) ≤ ceil_div 10 3) ∧
      ∀ k, is_Some (nodeMap_ c !! k) → to_size_t k mod 3 = Z.of_nat i.
Proof.
  split; [lia|]. split; [unfold INT_MAX; lia|].
  split; [vm_compute; discriminate|].
  apply (khash_keys_stay_in_slice 0 0 (λ k, k) 8 10 3
           [KHash.OPut 4 40; KHash.OGet 4 0]).
  - lia.
  - unfold INT_MAX; lia.
  - vm_compute. discriminate.
Defined.




Lemma khash_no_hardware_concurrency_witness :
  (-1 ≤ 0) ∧ 0 = 0 ∧
  ∃ h, KHash.new (Key := Z) (Value := Z) 0 0 0 10 (-1) = Some h ∧
    KHash.capacity_ h = 10 ∧ KHash.sliceNum_ h = 0 ∧
    KHash.lruSliceCaches_ h = [] ∧
    (∀ k v, KHash.put (λ k, k) k v h = None) ∧
    (∀ k v, KHash.get (λ k, k) k v h = None) ∧
    (∀ k, KHash.get1 0 (λ k, k) k h = None) ∧
    (∀ op ops, KHash.run 0 (λ k, k) (op :: ops) h = None).
Proof.
  split; [lia|]. split; [reflexivity|].
  apply (khash_no_hardware_concurrency 0 0 (λ k, k) 0 10 (-1)).
  - lia.
  - reflexivity.
Defined.

End MoreInstances.
